(** * The utility-pole failure model of GridLAB-D's powerflow module

    A shallow embedding of [module/powerflow/pole.cpp]: the pole object, its
    creation and initialisation, and the handlers the host runs at every
    time step (precommit, presync, sync, postsync, commit).

    - A C++ [double] is a binary64 [float] of the kernel: every operation is
      the IEEE 754 one, NaN and the infinities included, and a comparison
      [a > b] of the source is written [b <? a].
    - [TIMESTAMP] is a signed 64-bit integer, [int32] a signed 32-bit one,
      both carried by [Z] with the wrap-around written out.
    - The handlers mutate the object in place; here each takes the object and
      returns the updated one together with the time stamp it returns.
    - Diagnostic output ([verbose], [warning], [error]) changes no state and
      is left out. *)

From Stdlib Require Import ZArith Bool String List Lia.
From Stdlib Require Import Floats.
From coqutil Require Import Datatypes.RecordSetters.
Import ListNotations TriangleBracketNotations.

#[local] Set Warnings "-inexact-float".
#[local] Open Scope float_scope.

(** ** Machine numbers *)

Abbreviation double := float (only parsing).
Abbreviation TIMESTAMP := Z (only parsing).
Abbreviation int32 := Z (only parsing).

Definition wrap_signed (bits : Z) (z : Z) : Z :=
  ((z + 2 ^ (bits - 1)) mod 2 ^ bits - 2 ^ (bits - 1))%Z.

(** Signed 64-bit and 32-bit results, and unsigned 32-bit ones. *)
Definition wrap64 (z : Z) : Z := wrap_signed 64 z.
Definition wrap32 (z : Z) : Z := wrap_signed 32 z.
Definition wrapu32 (z : Z) : Z := (z mod 2 ^ 32)%Z.

(** Conversion of an integer to [double]: the nearest binary64 value, ties to
    even (exact below 2^53). *)
Definition Z2F (z : Z) : double := SF2Prim (binary_normalize prec emax z 0 false).

(** The integer part of a finite [double], rounded toward zero; [None] for
    NaN and the infinities. *)
Definition Ztrunc (x : double) : option Z :=
  match Prim2SF x with
  | S754_zero _ => Some 0%Z
  | S754_finite s m e =>
      let a := match e with
               | Zneg k => Z.shiftr (Zpos m) (Zpos k)
               | _ => Z.shiftl (Zpos m) e
               end in
      Some (if s then Z.opp a else a)
  | _ => None
  end.

(** [(int)x]. The conversion is defined when the integer part fits an [int];
    otherwise the result is the one the x86-64 conversion instruction gives
    (the smallest [int]). *)
Definition double_to_int (x : double) : Z :=
  match Ztrunc x with
  | Some z => if ((- 2 ^ 31 <=? z) && (z <? 2 ^ 31))%Z then z else (- 2 ^ 31)%Z
  | None => (- 2 ^ 31)%Z
  end.

(** [(unsigned int)x], as the x86-64 build computes it: the 64-bit signed
    conversion, of which the low 32 bits are kept. *)
Definition double_to_uint (x : double) : Z :=
  match Ztrunc x with
  | Some z => if ((- 2 ^ 63 <=? z) && (z <? 2 ^ 63))%Z then wrapu32 z else 0%Z
  | None => 0%Z
  end.

(** The host's time-stamp constants (gridlabd.h): the largest [TIMESTAMP]
    means "no event to schedule", and -1 makes the host stop the run. *)
Definition TS_NEVER : TIMESTAMP := 9223372036854775807%Z.
Definition TS_INVALID : TIMESTAMP := (-1)%Z.

(** ** Objects of the host *)

Inductive pole_status_t := PS_OK | PS_FAILED.

Definition pole_status_eqb (a b : pole_status_t) : bool :=
  match a, b with
  | PS_OK, PS_OK | PS_FAILED, PS_FAILED => true
  | _, _ => false
  end.

(** The fields of a [pole_configuration] object that the pole reads. *)
Record pole_configuration := {
  pole_length : double;
  pole_depth : double;
  ground_diameter : double;
  top_diameter : double;
  fiber_strength : double;
  strength_factor_250b_wood : double;
  material_density : double;
  overload_factor_transverse_general : double;
  degradation_rate : double
}.

(** What an object holds besides its published properties: the data of a
    [pole_configuration], or that of some other class. *)
Inductive object_data :=
| pole_configuration_data (c : pole_configuration)
| other_data.

(** An object of the host: its name, its data, and the [double] properties
    it publishes, by name. *)
Record OBJECT := {
  name : string;
  data : object_data;
  properties : list (string * double)
}.

(** [OBJECTDATA(obj,pole_configuration)]: the data of an object of that
    class, nothing for an object of another class. *)
Definition OBJECTDATA (obj : OBJECT) : option pole_configuration :=
  match data obj with
  | pole_configuration_data c => Some c
  | other_data => None
  end.

(** [gl_object_isa(obj,"pole_configuration")]. *)
Definition gl_object_isa_pole_configuration (obj : OBJECT) : bool :=
  match OBJECTDATA obj with
  | Some _ => true
  | None => false
  end.

Fixpoint find_property (l : list (string * double)) (n : string) : option double :=
  match l with
  | [] => None
  | (k, v) :: l' => if String.eqb k n then Some v else find_property l' n
  end.

(** [gl_get_addr(obj,name)]: the address of a published property, here the
    value it holds, or [None] for the null pointer. *)
Definition gl_get_addr (obj : OBJECT) (n : string) : option double :=
  find_property (properties obj) n.

(** A [gld_property]: a property name bound to an object. *)
Record gld_property := {
  prop_object : OBJECT;
  prop_name : string
}.

Definition is_valid (r : gld_property) : bool :=
  match find_property (properties (prop_object r)) (prop_name r) with
  | Some _ => true
  | None => false
  end.

(** ** The host at one point of the run

    The global clock, the module's globals ([powerflow::repair_time],
    [powerflow::stop_on_pole_failure] and the three weather property names)
    and the value each bound weather property holds at this moment. *)
Record host := {
  gl_globalclock : TIMESTAMP;
  default_repair_time : double;
  stop_on_pole_failure : bool;
  wind_speed_name : string;
  wind_dir_name : string;
  wind_gust_name : string;
  get_double : gld_property -> double
}.

(** ** The pole object *)

Record pole := {
  pole_status : pole_status_t;
  tilt_angle : double;
  tilt_direction : double;
  weather : option OBJECT;
  configuration : option OBJECT;
  install_year : int32;
  repair_time : double;
  wind_speed : double;
  wind_direction : double;
  wind_gusts : double;
  pole_stress : double;
  pole_stress_polynomial_a : double;
  pole_stress_polynomial_b : double;
  pole_stress_polynomial_c : double;
  susceptibility : double;
  total_moment : double;
  resisting_moment : double;
  pole_moment : double;
  pole_moment_nowind : double;
  equipment_moment : double;
  equipment_moment_nowind : double;
  critical_wind_speed : double;
  guy_height : double;
  (* not published *)
  is_deadend : bool;
  config : option pole_configuration;
  last_wind_speed : double;
  down_time : TIMESTAMP;
  current_hollow_diameter : double;
  wind_pressure : double;
  wire_load : double;
  wire_moment : double;
  wire_tension : double;
  wire_load_nowind : double;
  wire_moment_nowind : double;
  height : double;
  recalc : bool;
  wind_speed_ref : option gld_property;
  wind_direction_ref : option gld_property;
  wind_gusts_ref : option gld_property
}.

(** The object as the host allocates it: zeroed memory, then the published
    defaults (status OK, every quantity zero). *)
Definition allocated : pole := {|
  pole_status := PS_OK; tilt_angle := 0; tilt_direction := 0;
  weather := None; configuration := None; install_year := 0%Z;
  repair_time := 0; wind_speed := 0; wind_direction := 0; wind_gusts := 0;
  pole_stress := 0; pole_stress_polynomial_a := 0;
  pole_stress_polynomial_b := 0; pole_stress_polynomial_c := 0;
  susceptibility := 0; total_moment := 0; resisting_moment := 0;
  pole_moment := 0; pole_moment_nowind := 0; equipment_moment := 0;
  equipment_moment_nowind := 0; critical_wind_speed := 0; guy_height := 0;
  is_deadend := false; config := None; last_wind_speed := 0;
  down_time := 0%Z; current_hollow_diameter := 0; wind_pressure := 0;
  wire_load := 0; wire_moment := 0; wire_tension := 0;
  wire_load_nowind := 0; wire_moment_nowind := 0; height := 0;
  recalc := false; wind_speed_ref := None; wind_direction_ref := None;
  wind_gusts_ref := None
|}.

(** ** Accumulator resets *)

Definition reset_commit_accumulators (p : pole) : pole :=
  let p := p <| equipment_moment_nowind := 0 |> in
  let p := p <| wire_load_nowind := 0 |> in
  let p := p <| wire_moment_nowind := 0 |> in
  p.

Definition reset_sync_accumulators (p : pole) : pole :=
  let p := p <| pole_moment := 0 |> in
  let p := p <| equipment_moment := 0 |> in
  let p := p <| wire_moment := 0 |> in
  let p := p <| wire_tension := 0 |> in
  let p := p <| wire_load := 0 |> in
  p.

(** ** [pole::create] *)

Definition create (p : pole) : pole * Z :=
  let p := p <| configuration := None |> in
  let p := p <| is_deadend := false |> in
  let p := p <| config := None |> in
  let p := p <| last_wind_speed := 0 |> in
  let p := p <| last_wind_speed := 0 |> in
  let p := p <| down_time := TS_NEVER |> in
  let p := p <| current_hollow_diameter := 0 |> in
  let p := p <| total_moment := 0 |> in
  let p := p <| wind_pressure := 0 |> in
  let p := p <| pole_stress := 0 |> in
  let p := p <| critical_wind_speed := 0 |> in
  let p := p <| susceptibility := 0 |> in
  let p := p <| pole_moment_nowind := 0 |> in
  let p := reset_commit_accumulators p in
  let p := reset_sync_accumulators p in
  let p := p <| wind_speed_ref := None |> in
  let p := p <| wind_direction_ref := None |> in
  let p := p <| wind_gusts_ref := None |> in
  (p, 1%Z).

(** ** [pole::init]

    The handler returns 1, returns 0 after reporting an error, or throws. *)
Inductive init_result :=
| init_return (code : Z) (p : pole)
| init_exception (msg : string).

(** The weather check: each of the three wind properties is bound to the
    weather object when that object publishes it. *)
Definition bind_weather_property (w : OBJECT) (n : string) : option gld_property :=
  let r := {| prop_object := w; prop_name := n |} in
  if negb (is_valid r) then None else Some r.

Definition init_weather (h : host) (p : pole) : pole :=
  match weather p with
  | Some w =>
      let p := p <| wind_speed_ref := bind_weather_property w (wind_speed_name h) |> in
      let p := p <| wind_direction_ref := bind_weather_property w (wind_dir_name h) |> in
      let p := p <| wind_gusts_ref := bind_weather_property w (wind_gust_name h) |> in
      p
  | None => p
  end.

(** The geometry set up once the checks have passed. *)
Definition init_geometry (c : pole_configuration) (p : pole) : pole :=
  let p := p <| height := pole_length c - pole_depth c - guy_height p |> in
  let diameter := ground_diameter c
                  - height p / (pole_length c - pole_depth c)
                    * (ground_diameter c - top_diameter c) in
  let p := p <| resisting_moment := 0.008186
                                    * strength_factor_250b_wood c
                                    * fiber_strength c
                                    * (diameter * diameter * diameter) |> in
  let p := p <| pole_moment_nowind := height p * height p
                                      * (ground_diameter c + 2 * top_diameter c) / 72
                                      * overload_factor_transverse_general c |> in
  p.

Definition init (h : host) (p : pole) : init_result :=
  match configuration p with
  | None => init_return 0 p
  | Some cfg =>
  match OBJECTDATA cfg with
  | None => init_return 0 p (* not a pole_configuration object *)
  | Some c =>
  let p := p <| config := Some c |> in
  (* repair time *)
  let resolved :=
    if repair_time p <=? 0 then
      match gl_get_addr cfg "repair_time" with
      | Some pRepairTime =>
          if 0 <? pRepairTime then Some (p <| repair_time := pRepairTime |>)
          else if 0 <? default_repair_time h
               then Some (p <| repair_time := default_repair_time h |>)
               else None
      | None =>
          if 0 <? default_repair_time h
          then Some (p <| repair_time := default_repair_time h |>)
          else None
      end
    else Some p in
  match resolved with
  | None => init_exception "pole::default_repair_time must be positive"
  | Some p =>
  let p := init_weather h p in
  (* tilt *)
  if (tilt_angle p <? 0) || (90 <? tilt_angle p) then init_return 0 p else
  if (tilt_direction p <? 0) || (360 <=? tilt_direction p) then init_return 0 p else
  init_return 1 (init_geometry c p)
  end
  end
  end.

(** ** The handlers of a time step *)

(** The calendar year the source derives from a time stamp, once through
    [(int)] and once through [(unsigned int)]. *)
Definition year_int (t0 : TIMESTAMP) : Z :=
  wrap32 (1970 + double_to_int (Z2F (Z.quot t0 86400) / 365.24)).

Definition year_uint (t0 : TIMESTAMP) : Z :=
  wrapu32 (1970 + double_to_uint (Z2F (Z.quot t0 86400) / 365.24)).

(** Hours between the failure and the global clock. *)
Definition hours_down (h : host) (p : pole) : double :=
  Z2F (wrap64 (gl_globalclock h - down_time p)) / 3600.

Section Handlers.

(** The platform's [sin] and [cos] and the host's constant [PI]. *)
Variables (sin cos : double -> double) (PI : double).

(** The wind data of [pole::precommit]: a bound weather property overwrites
    the local value. *)
Definition read_weather (h : host) (p : pole) : pole :=
  let p := p <| wind_speed := match wind_speed_ref p with
                              | Some r => get_double h r
                              | None => wind_speed p
                              end |> in
  let p := p <| wind_direction := match wind_direction_ref p with
                                  | Some r => get_double h r
                                  | None => wind_direction p
                                  end |> in
  let p := p <| wind_gusts := match wind_gusts_ref p with
                              | Some r => get_double h r
                              | None => wind_gusts p
                              end |> in
  p.

(** The age of the pole at [t0], in years. *)
Definition age_at (t0 : TIMESTAMP) (p : pole) : double :=
  let t0_year := Z2F (year_int t0) in
  t0_year - Z2F (install_year p).

(** The degradation model and the resisting moment of [pole::precommit]. *)
Definition degrade (c : pole_configuration) (t0 : TIMESTAMP) (p : pole) : pole :=
  let age := age_at t0 p in
  let p := p <| current_hollow_diameter :=
                  if (0 <? age) && (0 <? degradation_rate c)
                  then if 0 <? age
                       then 2 * age * degradation_rate c
                       else 0
                  else current_hollow_diameter p |> in
  let p := p <| resisting_moment :=
                  0.008186
                  * strength_factor_250b_wood c
                  * fiber_strength c
                  * ((ground_diameter c * ground_diameter c * ground_diameter c)
                     - (current_hollow_diameter p * current_hollow_diameter p
                        * current_hollow_diameter p)) |> in
  p.

(** The branch taken when the repair time has arrived. *)
Definition repair (t0 : TIMESTAMP) (p : pole) : pole :=
  let p := p <| tilt_angle := 0 |> in
  let p := p <| tilt_direction := 0 |> in
  let p := p <| pole_status := PS_OK |> in
  let p := p <| install_year := wrap32 (year_uint t0) |> in
  let p := p <| recalc := true |> in
  p.

(** The branch taken when the wind speed has changed. A guarded assignment
    [if (b) x = v;] is written as the assignment of [if b then v else x]. *)
Definition wind_update (c : pole_configuration) (p : pole) : pole :=
  let p := p <| resisting_moment :=
                  if resisting_moment p <? 0 then 0 else resisting_moment p |> in
  let p := p <| pole_moment :=
                  if 0 <? tilt_angle p then
                    let D1 := top_diameter c / 12 in
                    let D0 := ground_diameter c / 12 in
                    let DD := (D0 - D1) / 2 in
                    let H := height p in
                    let rho := material_density c in
                    pole_moment p
                    + 0.125 * rho * PI * (H * H) * (D0 * D0 - DD * DD)
                      * sin (tilt_angle p / 180 * PI)
                  else pole_moment p |> in
  let p := p <| wind_pressure := 0.00256 * 2.24 * wind_speed p * wind_speed p |> in
  let p := p <| pole_moment_nowind :=
                  height p * height p
                  * (ground_diameter c + 2 * top_diameter c) / 72
                  * overload_factor_transverse_general c |> in
  let wind_pressure_failure :=
    (resisting_moment p - wire_tension p)
    / (pole_moment_nowind p + equipment_moment_nowind p + wire_moment_nowind p) in
  let p := p <| critical_wind_speed := sqrt (wind_pressure_failure / (0.00256 * 2.24)) |> in
  let p := p <| last_wind_speed := wind_speed p |> in
  let p := p <| pole_moment :=
                  if 0 <? wind_pressure p then
                    let beta := (tilt_direction p - wind_direction p) / 180 * PI in
                    let wind_moment :=
                      wind_pressure p * height p * height p
                      * (ground_diameter c / 12 + 2 * top_diameter c / 12) / 72
                      * overload_factor_transverse_general c in
                    let x := pole_moment p + wind_moment * cos beta in
                    let y := wind_moment * sin beta in
                    sqrt (x * x + y * y)
                  else pole_moment p |> in
  let p := p <| recalc := true |> in
  p.

(** [pole::precommit]. It reads the configuration through [config]: nothing
    is returned when that pointer is null. *)
Definition precommit (h : host) (p : pole) (t0 : TIMESTAMP) : option (pole * TIMESTAMP) :=
  let p := reset_commit_accumulators p in
  let p := read_weather h p in
  match config p with
  | None => None
  | Some c =>
      let p := degrade c t0 p in
      let p :=
        if pole_status_eqb (pole_status p) PS_FAILED && (repair_time p <? hours_down h p)
        then repair t0 p
        else if pole_status_eqb (pole_status p) PS_OK
                && negb (last_wind_speed p =? wind_speed p)
        then wind_update c p
        else p in
      Some (p, TS_NEVER)
  end.

End Handlers.

(** [pole::presync]. *)
Definition presync (p : pole) (t0 : TIMESTAMP) : pole * TIMESTAMP :=
  let p := if recalc p then reset_sync_accumulators p else p in
  (p, TS_NEVER).

(** [pole::sync]. *)
Definition sync (p : pole) (t0 : TIMESTAMP) : pole * TIMESTAMP :=
  (p, TS_NEVER).

(** The body of [pole::postsync] when the flag is set. *)
Definition recalculate (h : host) (p : pole) : pole * TIMESTAMP :=
  let p := p <| total_moment := pole_moment p + equipment_moment p
                                + wire_moment p + wire_tension p |> in
  let p := p <| susceptibility :=
                  if 0 <? wind_speed p
                  then 2 * (pole_moment p + equipment_moment p + wire_moment p)
                       / resisting_moment p / wind_speed p / 0.00256 / 2.24
                  else 0 |> in
  let p := p <| pole_stress :=
                  if 0 <? resisting_moment p
                  then total_moment p / resisting_moment p
                  else infinity |> in
  let p := p <| pole_status := if pole_stress p <? 1 then PS_OK else PS_FAILED |> in
  let p := p <| down_time :=
                  if pole_status_eqb (pole_status p) PS_FAILED
                  then gl_globalclock h
                  else down_time p |> in
  let p := p <| pole_stress_polynomial_a :=
                  pole_moment_nowind p + equipment_moment_nowind p
                  + wire_moment_nowind p |> in
  let p := p <| pole_stress_polynomial_b := 0 |> in
  let p := p <| pole_stress_polynomial_c := wire_tension p |> in
  let next_event :=
    if pole_status_eqb (pole_status p) PS_FAILED
    then wrap64 (down_time p + double_to_int (repair_time p * 3600))
    else TS_NEVER in
  let p := p <| recalc := false |> in
  (p, if stop_on_pole_failure h then TS_INVALID else next_event).

(** [pole::postsync]. *)
Definition postsync (h : host) (p : pole) (t0 : TIMESTAMP) : pole * TIMESTAMP :=
  if recalc p then recalculate h p else (p, TS_NEVER).

(** [pole::commit]. *)
Definition commit (p : pole) (t1 t2 : TIMESTAMP) : pole * TIMESTAMP :=
  (p, TS_NEVER).

(** ** The collaborators and the time step *)

(** Modelled from the spec: the pole-mounted equipment and the wires are not
    part of pole.cpp. Between the pole's presync and its postsync each of
    them adds its share to the pole's accumulators (sections 4.3, 4.4 and 6
    of the specification: zeroed at the presync reset, additive during sync,
    read at postsync). *)
Record contribution := {
  to_pole_moment : double;
  to_equipment_moment : double;
  to_wire_moment : double;
  to_wire_tension : double;
  to_wire_load : double;
  to_equipment_moment_nowind : double;
  to_wire_load_nowind : double;
  to_wire_moment_nowind : double
}.

Definition accumulate (p : pole) (c : contribution) : pole :=
  let p := p <| pole_moment := pole_moment p + to_pole_moment c |> in
  let p := p <| equipment_moment := equipment_moment p + to_equipment_moment c |> in
  let p := p <| wire_moment := wire_moment p + to_wire_moment c |> in
  let p := p <| wire_tension := wire_tension p + to_wire_tension c |> in
  let p := p <| wire_load := wire_load p + to_wire_load c |> in
  let p := p <| equipment_moment_nowind :=
                  equipment_moment_nowind p + to_equipment_moment_nowind c |> in
  let p := p <| wire_load_nowind := wire_load_nowind p + to_wire_load_nowind c |> in
  let p := p <| wire_moment_nowind := wire_moment_nowind p + to_wire_moment_nowind c |> in
  p.

Definition collaborate (cs : list contribution) (p : pole) : pole :=
  fold_left accumulate cs p.

Section Step.

Variables (sin cos : double -> double) (PI : double).

(** One time step at [t0]: the pole's precommit, its presync, the
    collaborators, its sync, its postsync and its commit. The step returns the
    object and the time stamp of postsync, the only one that is not
    [TS_NEVER]. *)
Definition step (h : host) (t0 : TIMESTAMP) (cs : list contribution) (p : pole)
  : option (pole * TIMESTAMP) :=
  match precommit sin cos PI h p t0 with
  | None => None
  | Some (p, _) =>
      let (p, _) := presync p t0 in
      let p := collaborate cs p in
      let (p, _) := sync p t0 in
      let (p, next_event) := postsync h p t0 in
      let (p, _) := commit p t0 t0 in
      Some (p, next_event)
  end.

(** A run of time steps, each with its host, its time and its collaborators;
    nothing is returned when a step dereferences the null configuration. *)
Fixpoint run (steps : list (host * TIMESTAMP * list contribution)) (p : pole)
  : option pole :=
  match steps with
  | [] => Some p
  | (h, t0, cs) :: rest =>
      match step h t0 cs p with
      | Some (p', _) => run rest p'
      | None => None
      end
  end.

End Step.

(** ** Vocabulary of the properties *)

(** Initialisation fails when [init] does not return 1. *)
Definition init_fails (r : init_result) : Prop :=
  match r with
  | init_return 1 _ => False
  | _ => True
  end.

(** A property that exists and holds a positive value. *)
Definition is_positive (v : option double) : bool :=
  match v with
  | Some x => 0 <? x
  | None => false
  end.

(** The stress a recalculating postsync assigns. *)
Definition stress_of (p : pole) : double :=
  let tm := pole_moment p + equipment_moment p + wire_moment p + wire_tension p in
  if 0 <? resisting_moment p then tm / resisting_moment p else infinity.

(** The wind speed precommit works with: the weather's when bound. *)
Definition observed_wind_speed (h : host) (p : pole) : double :=
  match wind_speed_ref p with
  | Some r => get_double h r
  | None => wind_speed p
  end.

(** The two triggers of precommit, as tests on the pole it receives. *)
Definition repair_due (h : host) (p : pole) : bool :=
  pole_status_eqb (pole_status p) PS_FAILED && (repair_time p <? hours_down h p).

Definition wind_changed (h : host) (p : pole) : bool :=
  pole_status_eqb (pole_status p) PS_OK
  && negb (last_wind_speed p =? observed_wind_speed h p).

(** The pole on which precommit evaluates its triggers: accumulators reset,
    weather read, degradation applied. *)
Definition refreshed (c : pole_configuration) (h : host) (t0 : TIMESTAMP) (p : pole) : pole :=
  degrade c t0 (read_weather h (reset_commit_accumulators p)).

(** What the collaborators add to one accumulator, from its value [a]. *)
Definition sum_from (f : contribution -> double) (cs : list contribution) (a : double) : double :=
  fold_left (fun a c => a + f c) cs a.

(** ** Rounding to binary64

    The integers below count multiples of [2^sigma], a unit fine enough for
    the operands at hand; they serve to state that the arithmetic of the
    hardware rounds exact results to the nearest representable value. *)

Section Rounding.

#[local] Open Scope Z_scope.

(** Round half to even of [m / 2^n]. *)
Definition rne (m n : Z) : Z :=
  let q := m / 2 ^ n in
  match 2 * (m mod 2 ^ n) ?= 2 ^ n with
  | Lt => q
  | Gt => q + 1
  | Eq => if Z.even q then q else q + 1
  end.

(** The exponent of the binary64 grid around the integer [V] counted in
    units of [2^sigma], and the rounding of [V] to that grid. *)
Definition cexp (sigma V : Z) : Z := fexp prec emax (Zdigits2 V + sigma).

Definition round_to_grid (sigma V : Z) : Z :=
  let k := cexp sigma V - sigma in
  rne V k * 2 ^ k.

(** The binary64 value of sign [s] that holds [W] units of [2^sigma]. *)
Definition encode (sigma : Z) (s : bool) (W : Z) : spec_float :=
  match W with
  | Zpos _ =>
      let c := cexp sigma W in
      if c <=? emax - prec
      then S754_finite s (Z.to_pos (W / 2 ^ (c - sigma))) c
      else S754_infinity s
  | _ => S754_zero s
  end.

Definition emin64 : Z := SpecFloat.emin prec emax.

(** The binary64 value nearest to the integer [d] counted in units of
    [2^sigma]. *)
Definition nearest (sigma d : Z) : spec_float :=
  match d with
  | Z0 => S754_zero false
  | Zpos _ => encode sigma false (round_to_grid sigma d)
  | Zneg p => encode sigma true (round_to_grid sigma (Zpos p))
  end.

(** Where [rem], the part shifted out, lies in an interval of length [a]. *)
Definition loc_of (rem a : Z) : location :=
  if rem =? 0 then loc_Exact else loc_Inexact (2 * rem ?= a).

(** The value of a finite binary64 number, in units of [2^emin64]. *)
Definition sval (x : spec_float) : Z :=
  match x with
  | S754_finite s m e => cond_Zopp s (Zpos m * 2 ^ (e - emin64))
  | _ => 0
  end.

Definition finite_or_zero (x : spec_float) : bool :=
  match x with
  | S754_zero _ | S754_finite _ _ _ => true
  | _ => false
  end.

(** Two results that differ at most in the sign of a zero. *)
Definition same_value (a b : spec_float) : Prop :=
  a = b \/ (exists s1 s2, a = S754_zero s1 /\ b = S754_zero s2).

End Rounding.

(** A strictly positive, finite number; a finite number. *)
Definition finite_positive (k : float) : bool := (0 <? k) && (k <? infinity).
Definition finite (x : float) : bool := (neg_infinity <? x) && (x <? infinity).

(** The cube as the source writes it. *)
Definition cube (h : float) : float := h * h * h.

(** ** Concrete objects used to run the handlers *)

(** A host at the clock 1600000000 (September 2020), with the module's
    default globals and no weather data. *)
Definition quiet_host : host := {|
  gl_globalclock := 1600000000%Z;
  default_repair_time := 24;
  stop_on_pole_failure := false;
  wind_speed_name := "wind_speed";
  wind_dir_name := "wind_dir";
  wind_gust_name := "wind_gust";
  get_double := fun _ => 0
|}.

(** The same host with [powerflow::stop_on_pole_failure] set. *)
Definition stopping_host : host := quiet_host <| stop_on_pole_failure := true |>.

(** A pole flagged for recalculation whose accumulators hold half of its
    resisting moment, in a wind of 10 m/s. *)
Definition loaded_pole : pole :=
  allocated <| recalc := true |> <| repair_time := 24 |>
            <| resisting_moment := 1000 |> <| wind_speed := 10 |>
            <| pole_moment := 300 |> <| equipment_moment := 150 |>
            <| wire_moment := 40 |> <| wire_tension := 10 |>.

(** The same pole after a collaborator has written NaN into the equipment
    moment. *)
Definition nan_loaded_pole : pole := loaded_pole <| equipment_moment := nan |>.

(** A wooden pole of 45 ft, 6 ft of it in the ground, that loses a quarter
    of an inch of sound wood per year on each side; the object publishes a
    repair time of zero (not set). *)
Definition wooden : pole_configuration := {|
  pole_length := 45;
  pole_depth := 6;
  ground_diameter := 20.25;
  top_diameter := 9.9;
  fiber_strength := 8000;
  strength_factor_250b_wood := 0.85;
  material_density := 35;
  overload_factor_transverse_general := 1.75;
  degradation_rate := 0.25
|}.

Definition wooden_configuration : OBJECT := {|
  name := "wooden";
  data := pole_configuration_data wooden;
  properties := [("repair_time"%string, 0)]
|}.

(** A host whose [powerflow::repair_time] has been set to zero. *)
Definition no_default_host : host := quiet_host <| default_repair_time := 0 |>.

(** A pole as the loader hands it to [init]: created, then given its
    configuration and the year 1970 as its install year. *)
Definition loaded_1970 : pole :=
  (fst (create allocated)) <| configuration := Some wooden_configuration |>
                           <| install_year := 1970%Z |>.

(** The same pole with a repair time that is not a number. *)
Definition nan_repair_pole : pole := loaded_1970 <| repair_time := nan |>.


(** The wind direction precommit works with: the weather's when bound. *)
Definition observed_wind_direction (h : host) (p : pole) : double :=
  match wind_direction_ref p with
  | Some r => get_double h r
  | None => wind_direction p
  end.

(** The pole with its gust field erased. *)
Definition without_gusts (p : pole) : pole := p <| wind_gusts := 0 |>.

(** Two hosts that agree on the clock, on the stop flag and on what the wind
    speed and the wind direction of the weather read for the pole: they may
    differ in what the gust property reads. *)
Definition agree_but_gusts (h1 h2 : host) (p : pole) : Prop :=
  gl_globalclock h1 = gl_globalclock h2 /\
  stop_on_pole_failure h1 = stop_on_pole_failure h2 /\
  (forall r, wind_speed_ref p = Some r -> get_double h1 r = get_double h2 r) /\
  (forall r, wind_direction_ref p = Some r -> get_double h1 r = get_double h2 r).

(** The platform's [sin] and [cos] at the only angle the concrete runs below
    reach, the angle zero (no tilt, and wind along the tilt direction), and
    the value of [PI]. *)
Definition sin_at_zero : double -> double := fun _ => 0.
Definition cos_at_zero : double -> double := fun _ => 1.
Definition PI_value : double := 3.141592653589793.

(** The pole [loaded_1970] once initialised. *)
Definition initialised_1970 : pole :=
  match init quiet_host loaded_1970 with
  | init_return _ p => p
  | init_exception _ => loaded_1970
  end.

(** The same pole in a wind of 20 m/s, and with gusts of 35 m/s. *)
Definition windy_pole : pole := initialised_1970 <| wind_speed := 20 |>.
Definition gusty_pole : pole := windy_pole <| wind_gusts := 35 |>.

(** An initialised pole flagged for recalculation that carries three times
    its resisting moment. *)
Definition overloaded_pole : pole :=
  loaded_pole <| config := Some wooden |> <| pole_moment := 3000 |>.

(** The host one hour after [quiet_host]. *)
Definition hour_later_host : host := quiet_host <| gl_globalclock := 1600003600%Z |>.

(** What a transformer mounted on the pole adds to the accumulators. *)
Definition transformer : contribution := {|
  to_pole_moment := 0;
  to_equipment_moment := 1200;
  to_wire_moment := 0;
  to_wire_tension := 0;
  to_wire_load := 0;
  to_equipment_moment_nowind := 15;
  to_wire_load_nowind := 0;
  to_wire_moment_nowind := 0
|}.

(** The host twenty-five hours after [quiet_host], the host some hours
    later in the same year, and the host in December of the next year. *)
Definition day_later_host : host := quiet_host <| gl_globalclock := 1600090000%Z |>.
Definition same_year_host : host := quiet_host <| gl_globalclock := 1600100000%Z |>.
Definition next_year_host : host := quiet_host <| gl_globalclock := 1640000000%Z |>.

(** The pole [windy_pole] after the step that fails it and the step, a day
    later, that repairs it. *)
Definition repaired_2020 : pole :=
  match run sin_at_zero cos_at_zero PI_value
          [(quiet_host, 1600000000%Z, []); (day_later_host, 1600090000%Z, [])]
          windy_pole with
  | Some p => p
  | None => windy_pole
  end.

(** The initialised pole, had it been installed in 2010. *)
Definition decade_old_pole : pole := initialised_1970 <| install_year := 2010%Z |>.

(** ** Further vocabulary *)

(** The gusts precommit works with: the weather's when bound. *)
Definition observed_wind_gusts (h : host) (p : pole) : double :=
  match wind_gusts_ref p with
  | Some r => get_double h r
  | None => wind_gusts p
  end.

(** The property of the weather object [w] named [n], and whether [w]
    publishes it. *)
Definition weather_property (w : OBJECT) (n : string) : gld_property :=
  {| prop_object := w; prop_name := n |}.

(** The resisting moment the wind branch of precommit works with: the one of
    the degradation model, zero when that is negative. *)
Definition clamped (m : double) : double := if m <? 0 then 0 else m.

(** The pole moment per unit of wind pressure, as init and the wind branch
    compute it. *)
Definition moment_per_pressure (c : pole_configuration) (p : pole) : double :=
  height p * height p * (ground_diameter c + 2 * top_diameter c) / 72
  * overload_factor_transverse_general c.

(** The pole with the four fields overwritten that precommit assigns before
    it reads them. *)
Definition with_stale_outputs (rm a b d : double) (p : pole) : pole :=
  p <| resisting_moment := rm |> <| equipment_moment_nowind := a |>
    <| wire_load_nowind := b |> <| wire_moment_nowind := d |>.

(** The host of a step of a run. *)
Definition step_host (s : host * TIMESTAMP * list contribution) : host := fst (fst s).

Section WakeUps.

Variables (sin cos : double -> double) (PI : double).

(** The time stamps the steps of a run return, in order. *)
Fixpoint wake_ups (steps : list (host * TIMESTAMP * list contribution)) (p : pole)
  : option (list TIMESTAMP) :=
  match steps with
  | [] => Some []
  | (h, t0, cs) :: rest =>
      match step sin cos PI h t0 cs p with
      | Some (p', e) =>
          match wake_ups rest p' with
          | Some es => Some (e :: es)
          | None => None
          end
      | None => None
      end
  end.

End WakeUps.

(** A weather station that publishes the wind speed and the wind direction
    under the default names, and no gusts. *)
Definition station : OBJECT := {|
  name := "station";
  data := other_data;
  properties := [("wind_speed"%string, 12); ("wind_dir"%string, 270)]
|}.

(** A host whose weather properties read what the object publishes. *)
Definition weather_host : host :=
  quiet_host <| get_double := fun r =>
                  match find_property (properties (prop_object r)) (prop_name r) with
                  | Some v => v
                  | None => 0
                  end |>.

(** The pole [loaded_1970] with the station as its weather and local wind
    data of its own. *)
Definition stationed_pole : pole :=
  loaded_1970 <| weather := Some station |> <| wind_speed := 5 |>
              <| wind_direction := 90 |> <| wind_gusts := 7 |>.

(** The repair time [init] settles on, from the pole's own value [own]:
    nothing when it throws. *)
Definition resolve_repair_time (h : host) (cfg : OBJECT) (own : double) : option double :=
  if own <=? 0 then
    if is_positive (gl_get_addr cfg "repair_time")
    then gl_get_addr cfg "repair_time"
    else if 0 <? default_repair_time h then Some (default_repair_time h) else None
  else Some own.

(** The tilt checks of [init]. *)
Definition tilt_rejected (p : pole) : bool :=
  ((tilt_angle p <? 0) || (90 <? tilt_angle p))
  || ((tilt_direction p <? 0) || (360 <=? tilt_direction p)).

(** ** Integers in binary64 *)

(** The binary64 number that holds the integer [n], for [|n| < 2^53]: the
    magnitude shifted to 53 digits, with the exponent that undoes the
    shift. *)
Definition integer_float (n : Z) : spec_float :=
  match n with
  | Z0 => S754_zero false
  | _ =>
      let d := Zdigits2 (Z.abs n) in
      S754_finite (n <? 0)%Z (Z.to_pos (Z.abs n * 2 ^ (53 - d))) (d - 53)
  end.

(** The two bits that place an inexact value within the unit above its
    mantissa: 0 on the mantissa, 1 below the middle, 2 in the middle, 3
    above. *)
Definition loc_bits (l : location) : Z :=
  match l with
  | loc_Exact => 0
  | loc_Inexact Lt => 1
  | loc_Inexact Eq => 2
  | loc_Inexact Gt => 3
  end.

(** The pole [windy_pole] after the step of 2020 that fails it. *)
Definition failed_2020 : pole :=
  match step sin_at_zero cos_at_zero PI_value quiet_host 1600000000 [] windy_pole with
  | Some (p, _) => p
  | None => windy_pole
  end.

(** * Properties *)

(** ** Comparisons of binary64 values *)

Module FloatOrder.

Lemma SFcompare_antisym x y :
  SFcompare y x = option_map CompOpp (SFcompare x y).
Proof.
  destruct x as [sx|sx| |sx mx ex], y as [sy|sy| |sy my ey]; simpl;
    try reflexivity;
    try (destruct sx; reflexivity); try (destruct sy; reflexivity);
    try (destruct sx, sy; reflexivity).
  destruct sx, sy; simpl; try reflexivity;
    rewrite (Z.compare_antisym ex ey); destruct (ex ?= ey)%Z; simpl;
    try reflexivity; f_equal;
    rewrite (Pos.compare_cont_antisym mx my Eq); simpl;
    try reflexivity; now rewrite CompOpp_involutive.
Qed.

Lemma SFcompare_none x y :
  SFcompare x y = None <-> x = S754_nan \/ y = S754_nan.
Proof.
  destruct x as [sx|sx| |sx mx ex], y as [sy|sy| |sy my ey]; simpl;
    split; intros H; try discriminate; auto;
    try (destruct H; discriminate);
    try (destruct sx; discriminate); try (destruct sy; discriminate);
    try (destruct sx, sy; discriminate).
Qed.

Lemma spec_float_nan_dec x : {x = S754_nan} + {x <> S754_nan}.
Proof. destruct x; (left; reflexivity) || (right; discriminate). Qed.

Lemma SFcompare_refl x : x <> S754_nan -> SFcompare x x = Some Eq.
Proof.
  destruct x as [s|s| |s m e]; simpl; intros H; try reflexivity.
  - destruct s; reflexivity.
  - congruence.
  - destruct s; rewrite Z.compare_refl;
      change (Pos.compare_cont Eq m m) with (Pos.compare m m);
      rewrite Pos.compare_refl; reflexivity.
Qed.

Lemma is_nan_spec x : is_nan x = true <-> Prim2SF x = S754_nan.
Proof.
  unfold is_nan. rewrite eqb_spec. unfold SFeqb. split.
  - intros H. destruct (SFcompare (Prim2SF x) (Prim2SF x)) as [c|] eqn:C.
    + destruct (spec_float_nan_dec (Prim2SF x)) as [N|N]; [exact N|].
      rewrite (SFcompare_refl _ N) in C. injection C as <-. discriminate.
    + apply SFcompare_none in C. tauto.
  - intros ->. reflexivity.
Qed.

Lemma is_nan_false x : is_nan x = false <-> Prim2SF x <> S754_nan.
Proof.
  rewrite <- is_nan_spec. destruct (is_nan x); split; congruence.
Qed.

(** [x < y] fails exactly when [y <= x] or one of the two is NaN. *)
Lemma ltb_false_iff x y :
  (x <? y) = false <->
  (y <=? x) = true \/ is_nan x = true \/ is_nan y = true.
Proof.
  rewrite ltb_spec, leb_spec, !is_nan_spec. unfold SFltb, SFleb.
  rewrite (SFcompare_antisym (Prim2SF x) (Prim2SF y)).
  destruct (SFcompare (Prim2SF x) (Prim2SF y)) as [[ | | ]|] eqn:E; simpl.
  - split; auto.
  - split; [discriminate|].
    intros [H|H]; [discriminate|].
    apply SFcompare_none in H. congruence.
  - split; auto.
  - apply SFcompare_none in E. split; auto.
Qed.

Lemma ltb_true_leb_false x y : (x <? y) = true -> (y <=? x) = false.
Proof.
  rewrite ltb_spec, leb_spec. unfold SFltb, SFleb.
  rewrite (SFcompare_antisym (Prim2SF x) (Prim2SF y)).
  destruct (SFcompare (Prim2SF x) (Prim2SF y)) as [[ | | ]|]; simpl; congruence.
Qed.

Lemma ltb_true_not_nan x y :
  (x <? y) = true -> is_nan x = false /\ is_nan y = false.
Proof.
  rewrite ltb_spec, !is_nan_false. unfold SFltb.
  destruct (SFcompare (Prim2SF x) (Prim2SF y)) eqn:E; [|discriminate].
  intros _. split; intros H; rewrite H in E;
    [|destruct (Prim2SF x)]; discriminate.
Qed.

(** A value equal to zero (of either sign) is not positive. *)
Lemma eqb_zero_not_pos x : (x =? 0) = true -> (0 <? x) = false.
Proof.
  rewrite eqb_spec, ltb_spec. unfold SFeqb, SFltb.
  rewrite (SFcompare_antisym (Prim2SF x) (Prim2SF 0)).
  destruct (SFcompare (Prim2SF x) (Prim2SF 0)) as [[ | | ]|]; simpl; congruence.
Qed.

End FloatOrder.

(** ** Rounding of binary64 arithmetic

    The product and the difference of two binary64 numbers are the roundings
    of the exact product and difference, and the rounding is monotone. *)

Module Rounding64.

#[local] Open Scope Z_scope.

Lemma digits2_size p : digits2_pos p = Pos.size p.
Proof. induction p; simpl; congruence. Qed.

Lemma Zdigits2_log2 p : Zdigits2 (Zpos p) = Z.log2 (Zpos p) + 1.
Proof.
  simpl. rewrite digits2_size. destruct p; simpl; try reflexivity;
    rewrite Pos.add_1_r; reflexivity.
Qed.

Lemma Zdigits2_bounds m : 0 < m -> 2 ^ (Zdigits2 m - 1) <= m < 2 ^ Zdigits2 m.
Proof.
  intros H. destruct m as [|p|p]; try lia.
  rewrite Zdigits2_log2. replace (Z.log2 (Z.pos p) + 1 - 1) with (Z.log2 (Z.pos p)) by lia.
  replace (Z.log2 (Z.pos p) + 1) with (Z.succ (Z.log2 (Z.pos p))) by lia.
  apply Z.log2_spec. lia.
Qed.

Lemma Zdigits2_pos m : 0 < m -> 0 < Zdigits2 m.
Proof. destruct m; simpl; lia. Qed.

Lemma Zdigits2_nonneg m : 0 <= Zdigits2 m.
Proof. destruct m; simpl; lia. Qed.

Lemma Zdigits2_unique m d : 0 < m -> 2 ^ (d - 1) <= m < 2 ^ d -> Zdigits2 m = d.
Proof.
  intros H B. destruct m as [|p|p]; try lia.
  rewrite Zdigits2_log2.
  assert (d - 1 = Z.log2 (Z.pos p)); [|lia].
  assert (0 <= d - 1).
  { destruct (Z.le_gt_cases 0 (d - 1)); [assumption|].
    destruct (Z.eq_dec d 0) as [->|]; [simpl in B; lia|].
    rewrite (Z.pow_neg_r 2 d) in B by lia. lia. }
  symmetry. apply Z.log2_unique; [assumption|].
  replace (Z.succ (d - 1)) with d by lia. exact B.
Qed.

Lemma Zdigits2_le m1 m2 : 0 <= m1 <= m2 -> Zdigits2 m1 <= Zdigits2 m2.
Proof.
  intros H. destruct m1 as [|p1|p1]; try lia.
  - apply Zdigits2_nonneg.
  - destruct m2 as [|p2|p2]; try lia.
    rewrite !Zdigits2_log2. apply Z.add_le_mono_r, Z.log2_le_mono. lia.
Qed.

Lemma Zdigits2_mul_pow2 m j : 0 < m -> 0 <= j -> Zdigits2 (m * 2 ^ j) = Zdigits2 m + j.
Proof.
  intros H J. apply Zdigits2_unique; [apply Z.mul_pos_pos; lia|].
  pose proof (Zdigits2_bounds m H) as [B1 B2].
  pose proof (Zdigits2_pos m H).
  replace (Zdigits2 m + j - 1) with (Zdigits2 m - 1 + j) by lia.
  rewrite !Z.pow_add_r by lia. split.
  - apply Z.mul_le_mono_nonneg_r; lia.
  - apply Z.mul_lt_mono_pos_r; lia.
Qed.

(** *** Rounding half to even *)

Lemma pow2_pos n : 0 <= n -> 0 < 2 ^ n.
Proof. intros. apply Z.pow_pos_nonneg; lia. Qed.

Lemma rne_cases m n :
  rne m n = m / 2 ^ n \/ rne m n = m / 2 ^ n + 1.
Proof.
  unfold rne. destruct (2 * (m mod 2 ^ n) ?= 2 ^ n); auto.
  destruct (Z.even (m / 2 ^ n)); auto.
Qed.

Lemma rne_mono m1 m2 n : 0 <= n -> m1 <= m2 -> rne m1 n <= rne m2 n.
Proof.
  intros N H. pose proof (pow2_pos n N) as A.
  unfold rne. set (a := 2 ^ n) in *.
  pose proof (Z.div_mod m1 a ltac:(lia)) as E1.
  pose proof (Z.div_mod m2 a ltac:(lia)) as E2.
  pose proof (Z.mod_pos_bound m1 a A) as B1.
  pose proof (Z.mod_pos_bound m2 a A) as B2.
  set (q1 := m1 / a) in *. set (q2 := m2 / a) in *.
  set (r1 := m1 mod a) in *. set (r2 := m2 mod a) in *.
  assert (q1 <= q2) by nia.
  destruct (Z.eq_dec q1 q2) as [Q|Q].
  - rewrite <- Q in *. assert (r1 <= r2) by nia.
    destruct (Z.compare_spec (2 * r1) a), (Z.compare_spec (2 * r2) a);
      destruct (Z.even q1); lia.
  - destruct (Z.compare_spec (2 * r1) a), (Z.compare_spec (2 * r2) a);
      destruct (Z.even q1), (Z.even q2); lia.
Qed.

Lemma rne_exact c n : 0 <= n -> rne (c * 2 ^ n) n = c.
Proof.
  intros N. pose proof (pow2_pos n N) as A. unfold rne.
  rewrite Z.div_mul, Z.mod_mul by lia.
  destruct (Z.compare_spec (2 * 0) (2 ^ n)); lia.
Qed.

Lemma rne_0 m : rne m 0 = m.
Proof. rewrite <- (rne_exact m 0) at 2 by lia. now rewrite Z.mul_1_r. Qed.

Lemma rne_scale m n j : 0 <= n -> 0 <= j -> rne (m * 2 ^ j) (n + j) = rne m n.
Proof.
  intros N J. pose proof (pow2_pos n N) as A. pose proof (pow2_pos j J) as B.
  unfold rne. rewrite Z.pow_add_r by lia.
  rewrite Z.div_mul_cancel_r, Z.mul_mod_distr_r by lia.
  replace (2 * (m mod 2 ^ n * 2 ^ j)) with (2 ^ j * (2 * (m mod 2 ^ n))) by ring.
  rewrite (Z.mul_comm (2 ^ n) (2 ^ j)).
  rewrite <- Zmult_compare_compat_l by lia. reflexivity.
Qed.

Lemma rne_nonneg m n : 0 <= n -> 0 <= m -> 0 <= rne m n.
Proof.
  intros N M. pose proof (pow2_pos n N).
  assert (0 <= m / 2 ^ n) by (apply Z.div_pos; lia).
  destruct (rne_cases m n); lia.
Qed.

(** *** The grid *)

Lemma fexp_le a b : a <= b -> fexp prec emax a <= fexp prec emax b.
Proof. unfold fexp. lia. Qed.

Lemma cexp_mono sigma V1 V2 : 0 <= V1 <= V2 -> cexp sigma V1 <= cexp sigma V2.
Proof.
  intros H. unfold cexp. apply fexp_le.
  pose proof (Zdigits2_le V1 V2 H). lia.
Qed.

Lemma cexp_scale sigma V j :
  0 < V -> 0 <= j -> cexp (sigma - j) (V * 2 ^ j) = cexp sigma V.
Proof.
  intros H J. unfold cexp. rewrite Zdigits2_mul_pow2 by assumption. f_equal. lia.
Qed.

Lemma cexp_ge_emin sigma V : SpecFloat.emin prec emax <= cexp sigma V.
Proof. unfold cexp, fexp. lia. Qed.

Lemma shift_nonneg sigma V : sigma <= emin64 -> 0 <= cexp sigma V - sigma.
Proof. intros H. pose proof (cexp_ge_emin sigma V). unfold emin64 in *. lia. Qed.

Lemma round_to_grid_nonneg sigma V :
  sigma <= emin64 -> 0 <= V -> 0 <= round_to_grid sigma V.
Proof.
  intros S H. unfold round_to_grid.
  pose proof (shift_nonneg sigma V S) as K.
  apply Z.mul_nonneg_nonneg; [now apply rne_nonneg|].
  apply Z.lt_le_incl, pow2_pos, K.
Qed.

Lemma round_to_grid_mono sigma V1 V2 :
  sigma <= emin64 -> 0 < V1 <= V2 ->
  round_to_grid sigma V1 <= round_to_grid sigma V2.
Proof.
  intros S [P1 H]. unfold round_to_grid.
  pose proof (shift_nonneg sigma V1 S) as K1.
  pose proof (shift_nonneg sigma V2 S) as K2.
  pose proof (cexp_mono sigma V1 V2 ltac:(lia)) as C.
  set (k1 := cexp sigma V1 - sigma) in *.
  set (k2 := cexp sigma V2 - sigma) in *.
  destruct (Z.eq_dec k1 k2) as [E|E].
  - rewrite <- E. apply Z.mul_le_mono_nonneg_r; [apply Z.lt_le_incl, pow2_pos, K1|].
    now apply rne_mono.
  - assert (L : k1 < k2) by lia.
    assert (HK1 : k1 = Z.max (Zdigits2 V1 + sigma - prec) emin64 - sigma)
      by reflexivity.
    assert (HK2 : k2 = Z.max (Zdigits2 V2 + sigma - prec) emin64 - sigma)
      by reflexivity.
    clearbody k1 k2.
    set (d1 := Zdigits2 V1) in *. set (d2 := Zdigits2 V2) in *.
    assert (D2 : k2 = d2 - prec) by lia.
    assert (D1 : d1 < d2) by lia.
    assert (PR : 0 < prec) by reflexivity.
    pose proof (Zdigits2_bounds V1 P1) as [_ U1]. fold d1 in U1.
    pose proof (Zdigits2_bounds V2 ltac:(lia)) as [L2 _]. fold d2 in L2.
    assert (V1B : V1 <= 2 ^ (d2 - 1)).
    { apply Z.lt_le_incl, Z.lt_le_trans with (1 := U1).
      apply Z.pow_le_mono_r; lia. }
    apply Z.le_trans with (2 ^ (d2 - 1)).
    + replace (2 ^ (d2 - 1)) with (2 ^ (d2 - 1 - k1) * 2 ^ k1)
        by (rewrite <- Z.pow_add_r by lia; f_equal; lia).
      apply Z.mul_le_mono_nonneg_r; [apply Z.lt_le_incl, pow2_pos, K1|].
      rewrite <- (rne_exact (2 ^ (d2 - 1 - k1)) k1) by assumption.
      apply rne_mono; [assumption|].
      rewrite <- Z.pow_add_r by lia.
      replace (d2 - 1 - k1 + k1) with (d2 - 1) by lia. exact V1B.
    + replace (2 ^ (d2 - 1)) with (2 ^ (d2 - 1 - k2) * 2 ^ k2)
        by (rewrite <- Z.pow_add_r by lia; f_equal; lia).
      apply Z.mul_le_mono_nonneg_r; [apply Z.lt_le_incl, pow2_pos, K2|].
      rewrite <- (rne_exact (2 ^ (d2 - 1 - k2)) k2) by assumption.
      apply rne_mono; [assumption|].
      rewrite <- Z.pow_add_r by lia.
      replace (d2 - 1 - k2 + k2) with (d2 - 1) by lia. exact L2.
Qed.

(** The rounding does not depend on the unit in which the value is
    counted. *)
Lemma round_to_grid_scale sigma V j :
  sigma <= emin64 -> 0 < V -> 0 <= j ->
  round_to_grid (sigma - j) (V * 2 ^ j) = round_to_grid sigma V * 2 ^ j.
Proof.
  intros S P J. unfold round_to_grid.
  rewrite cexp_scale by assumption.
  pose proof (shift_nonneg sigma V S) as K.
  replace (cexp sigma V - (sigma - j)) with (cexp sigma V - sigma + j) by lia.
  rewrite rne_scale by assumption.
  rewrite Z.pow_add_r by lia. ring.
Qed.

(** *** Encoding *)

Lemma encode_scale sigma s W j :
  sigma <= emin64 -> 0 <= W -> 0 <= j ->
  encode (sigma - j) s (W * 2 ^ j) = encode sigma s W.
Proof.
  intros S P J. destruct W as [|w|w]; try lia; [reflexivity|].
  pose proof (pow2_pos j J) as PJ.
  destruct (Z.pos w * 2 ^ j) as [|v|v] eqn:E; try lia.
  rewrite <- E. unfold encode.
  rewrite cexp_scale by lia.
  pose proof (shift_nonneg sigma (Z.pos w) S) as K.
  replace (cexp sigma (Z.pos w) - (sigma - j))
    with (cexp sigma (Z.pos w) - sigma + j) by lia.
  rewrite Z.pow_add_r, Z.div_mul_cancel_r by lia.
  rewrite E at 1. reflexivity.
Qed.

Lemma to_pos_le a b : a <= b -> (Z.to_pos a <= Z.to_pos b)%positive.
Proof.
  intros H. destruct a as [|a|a], b as [|b|b]; simpl; try lia.
Qed.

Lemma compare_cont_le m1 m2 :
  (m1 <= m2)%positive ->
  Pos.compare_cont Eq m1 m2 = Lt \/ Pos.compare_cont Eq m1 m2 = Eq.
Proof.
  intros H. change (Pos.compare_cont Eq m1 m2) with (Pos.compare m1 m2).
  destruct (Pos.compare_spec m1 m2); auto. lia.
Qed.

(** The encoding is monotone on either side of zero. *)
Lemma encode_le sigma W1 W2 :
  0 <= W1 <= W2 -> SFleb (encode sigma false W1) (encode sigma false W2) = true.
Proof.
  intros [P H]. destruct W1 as [|w1|w1]; try lia.
  - destruct W2 as [|w2|w2]; try lia; [reflexivity|].
    unfold encode. destruct (cexp sigma (Z.pos w2) <=? emax - prec); reflexivity.
  - destruct W2 as [|w2|w2]; try lia.
    pose proof (cexp_mono sigma (Z.pos w1) (Z.pos w2) ltac:(lia)) as C.
    unfold encode.
    set (c1 := cexp sigma (Z.pos w1)) in *. set (c2 := cexp sigma (Z.pos w2)) in *.
    destruct (Z.leb_spec c2 (emax - prec)) as [O2|O2].
    + destruct (Z.leb_spec c1 (emax - prec)) as [O1|O1]; [|lia].
      unfold SFleb, SFcompare.
      destruct (Z.compare_spec c1 c2) as [E|E|E]; try reflexivity; [|lia].
      rewrite E.
      destruct (compare_cont_le (Z.to_pos (Z.pos w1 / 2 ^ (c2 - sigma)))
                  (Z.to_pos (Z.pos w2 / 2 ^ (c2 - sigma)))) as [R|R];
        [|now rewrite R|now rewrite R].
      apply to_pos_le.
      destruct (Z.le_gt_cases 0 (c2 - sigma)) as [K|K].
      * apply Z.div_le_mono; [apply pow2_pos, K|lia].
      * rewrite (Z.pow_neg_r 2 (c2 - sigma)) by lia.
        rewrite !Z.div_0_r. lia.
    + destruct (c1 <=? emax - prec); reflexivity.
Qed.

Lemma encode_ge sigma W1 W2 :
  0 <= W1 <= W2 -> SFleb (encode sigma true W2) (encode sigma true W1) = true.
Proof.
  intros [P H]. destruct W1 as [|w1|w1]; try lia.
  - destruct W2 as [|w2|w2]; try lia; [reflexivity|].
    unfold encode. destruct (cexp sigma (Z.pos w2) <=? emax - prec); reflexivity.
  - destruct W2 as [|w2|w2]; try lia.
    pose proof (cexp_mono sigma (Z.pos w1) (Z.pos w2) ltac:(lia)) as C.
    unfold encode.
    set (c1 := cexp sigma (Z.pos w1)) in *. set (c2 := cexp sigma (Z.pos w2)) in *.
    destruct (Z.leb_spec c2 (emax - prec)) as [O2|O2].
    + destruct (Z.leb_spec c1 (emax - prec)) as [O1|O1]; [|lia].
      unfold SFleb, SFcompare.
      destruct (Z.compare_spec c2 c1) as [E|E|E]; try reflexivity; [|lia].
      rewrite E.
      rewrite (Pos.compare_cont_antisym _ _ Eq). simpl.
      destruct (compare_cont_le (Z.to_pos (Z.pos w1 / 2 ^ (c1 - sigma)))
                  (Z.to_pos (Z.pos w2 / 2 ^ (c1 - sigma)))) as [R|R];
        [|now rewrite R|now rewrite R].
      apply to_pos_le.
      destruct (Z.le_gt_cases 0 (c1 - sigma)) as [K|K].
      * apply Z.div_le_mono; [apply pow2_pos, K|lia].
      * rewrite (Z.pow_neg_r 2 (c1 - sigma)) by lia.
        rewrite !Z.div_0_r. lia.
    + destruct (c1 <=? emax - prec); reflexivity.
Qed.

Lemma encode_neg_le_pos sigma W1 W2 :
  SFleb (encode sigma true W1) (encode sigma false W2) = true.
Proof.
  unfold encode.
  destruct W1 as [|w1|w1], W2 as [|w2|w2]; try reflexivity;
    repeat match goal with
      | |- context [if ?c then _ else _] => destruct c
      end; reflexivity.
Qed.

Lemma nearest_mono sigma d1 d2 :
  sigma <= emin64 -> d1 <= d2 -> SFleb (nearest sigma d1) (nearest sigma d2) = true.
Proof.
  intros S H.
  assert (Z0le : forall W, SFleb (S754_zero false) (encode sigma false W) = true).
  { intros W. unfold encode. destruct W; try reflexivity.
    destruct (_ <=? _); reflexivity. }
  assert (leZ0 : forall W, SFleb (encode sigma true W) (S754_zero false) = true).
  { intros W. unfold encode. destruct W; try reflexivity.
    destruct (_ <=? _); reflexivity. }
  destruct d1 as [|p1|p1], d2 as [|p2|p2]; try lia; unfold nearest;
    auto using encode_neg_le_pos.
  - apply encode_le. split.
    + apply round_to_grid_nonneg; [assumption|lia].
    + apply round_to_grid_mono; [assumption|lia].
  - apply encode_ge. split.
    + apply round_to_grid_nonneg; [assumption|lia].
    + apply round_to_grid_mono; [assumption|lia].
Qed.

(** *** The shift of the rounding algorithm *)

Lemma iter_pos_nat {A} (f : A -> A) p : forall x,
  iter_pos f p x = Nat.iter (Pos.to_nat p) f x.
Proof.
  induction p as [p IH|p IH|]; intros x; cbn [iter_pos].
  - rewrite !IH, Pos2Nat.inj_xI.
    replace (S (2 * Pos.to_nat p)) with (Pos.to_nat p + S (Pos.to_nat p))%nat by lia.
    rewrite Nat.iter_add, Nat.iter_succ_r. reflexivity.
  - rewrite !IH, Pos2Nat.inj_xO.
    replace (2 * Pos.to_nat p)%nat with (Pos.to_nat p + Pos.to_nat p)%nat by lia.
    now rewrite Nat.iter_add.
  - reflexivity.
Qed.

Lemma shr_1_spec m r s :
  0 <= m ->
  shr_1 {| shr_m := m; shr_r := r; shr_s := s |} =
  {| shr_m := m / 2; shr_r := Z.odd m; shr_s := r || s |}.
Proof.
  intros H. rewrite <- Z.div2_div.
  destruct m as [|[p|p|]|]; try reflexivity. lia.
Qed.

Lemma shr_iter m k :
  0 <= m ->
  let rec := Nat.iter k shr_1 {| shr_m := m; shr_r := false; shr_s := false |} in
  shr_m rec = m / 2 ^ Z.of_nat k /\
  loc_of_shr_record rec = loc_of (m mod 2 ^ Z.of_nat k) (2 ^ Z.of_nat k).
Proof.
  intros M. induction k as [|k IH].
  - simpl. rewrite Z.div_1_r, Z.mod_1_r. split; reflexivity.
  - cbv zeta in *. rewrite Nat.iter_succ.
    destruct (Nat.iter k shr_1 _) as [mk r s]. simpl in IH.
    destruct IH as [IHm IHl].
    assert (A : 0 < 2 ^ Z.of_nat k) by (apply pow2_pos; lia).
    assert (Mk : 0 <= mk) by (rewrite IHm; apply Z.div_pos; lia).
    rewrite shr_1_spec by assumption. simpl shr_m.
    rewrite Nat2Z.inj_succ, Z.pow_succ_r by lia.
    set (a := 2 ^ Z.of_nat k) in *.
    split.
    + rewrite IHm, Z.div_div by lia. f_equal. lia.
    + pose proof (Z.rem_mul_r m a 2 ltac:(lia) ltac:(lia)) as R.
      rewrite (Z.mul_comm 2 a). rewrite R. rewrite <- IHm.
      pose proof (Z.mod_pos_bound m a A) as B.
      set (rem := m mod a) in *.
      rewrite (Zmod_odd mk).
      assert (S : r || s = negb (rem =? 0)).
      { unfold loc_of in IHl.
        destruct r, s, (rem =? 0); simpl in *; congruence. }
      rewrite S. unfold loc_of. clear IHl S R.
      destruct (Z.odd mk); destruct (Z.eqb_spec rem 0) as [E0|E0];
        cbn [loc_of_shr_record negb].
      * destruct (Z.eqb_spec (rem + a * 1) 0); [lia|].
        f_equal. symmetry. apply Z.compare_eq_iff. lia.
      * destruct (Z.eqb_spec (rem + a * 1) 0); [lia|].
        f_equal. symmetry. apply Z.compare_gt_iff. lia.
      * destruct (Z.eqb_spec (rem + a * 0) 0); [reflexivity|lia].
      * destruct (Z.eqb_spec (rem + a * 0) 0); [lia|].
        f_equal. symmetry. apply Z.compare_lt_iff. lia.
Qed.

Lemma round_loc_of m n :
  0 <= n ->
  round_nearest_even (m / 2 ^ n) (loc_of (m mod 2 ^ n) (2 ^ n)) = rne m n.
Proof.
  intros N. pose proof (pow2_pos n N) as A.
  pose proof (Z.mod_pos_bound m (2 ^ n) A) as B.
  unfold loc_of, rne, round_nearest_even.
  destruct (Z.eqb_spec (m mod 2 ^ n) 0) as [E|E].
  - rewrite E. destruct (Z.compare_spec (2 * 0) (2 ^ n)); lia.
  - destruct (2 * (m mod 2 ^ n) ?= 2 ^ n); reflexivity.
Qed.

(** The first pass of the algorithm on an exact mantissa. *)
Lemma shr_exact m e n :
  0 <= m -> 0 <= n ->
  let '(mrs, e') := shr {| shr_m := m; shr_r := false; shr_s := false |} e n in
  e' = e + n /\
  shr_m mrs = m / 2 ^ n /\
  round_nearest_even (shr_m mrs) (loc_of_shr_record mrs) = rne m n.
Proof.
  intros M N. destruct n as [|p|p]; try lia.
  - simpl. rewrite Z.add_0_r, Z.div_1_r, rne_0. repeat split.
  - unfold shr. rewrite iter_pos_nat.
    destruct (shr_iter m (Pos.to_nat p) M) as [Hm Hl].
    rewrite positive_nat_Z in *.
    split; [reflexivity|]. split; [exact Hm|].
    rewrite Hm, Hl. now apply round_loc_of.
Qed.

(** *** The rounding algorithm computes the nearest value *)

Lemma rne_ge_div m n : m / 2 ^ n <= rne m n.
Proof. destruct (rne_cases m n); lia. Qed.

Lemma binary_round_aux_encode s m e :
  e <= cexp e (Zpos m) ->
  binary_round_aux prec emax s (Zpos m) e loc_Exact =
  encode e s (round_to_grid e (Zpos m)).
Proof.
  intros P. unfold binary_round_aux, shr_fexp, round_to_grid.
  change (fexp prec emax (Zdigits2 (Z.pos m) + e)) with (cexp e (Z.pos m)).
  set (E := cexp e (Z.pos m)) in *. set (n := E - e).
  assert (N : 0 <= n) by (unfold n; lia).
  cbn [shr_record_of_loc].
  pose proof (shr_exact (Z.pos m) e n ltac:(lia) N) as H1.
  destruct (shr _ e n) as [mrs' e'].
  destruct H1 as (-> & _ & ->).
  replace (e + n) with E by (unfold n; lia).
  set (m' := rne (Z.pos m) n).
  assert (M' : 0 <= m') by (apply rne_nonneg; lia).
  assert (PR : 0 < prec) by reflexivity.
  assert (EM : emin64 <= E) by apply cexp_ge_emin.
  destruct (Z.eq_dec m' 0) as [Z|NZ].
  - rewrite Z. cbn [Zdigits2 Z.add].
    assert (NN : fexp prec emax E - E <= 0).
    { unfold fexp, emin64 in *. lia. }
    unfold shr. destruct (fexp prec emax E - E); try lia; reflexivity.
  - assert (M'pos : 0 < m') by lia.
    pose proof (pow2_pos n N) as A.
    set (n' := fexp prec emax (Zdigits2 m' + E) - E).
    pose proof (Zdigits2_bounds m' M'pos) as [DL DU].
    pose proof (Zdigits2_pos m' M'pos) as DP.
    pose proof (Zdigits2_bounds (Z.pos m) ltac:(lia)) as [ML MU].
    pose proof (Zdigits2_pos (Z.pos m) ltac:(lia)) as MP.
    assert (N' : 0 <= n').
    { unfold n'. destruct (Z.eq_dec E emin64) as [Em|Em].
      - unfold fexp, emin64 in *. lia.
      - assert (En : n = Zdigits2 (Z.pos m) - prec).
        { unfold n, E, cexp, fexp, emin64 in *. lia. }
        assert (2 ^ (prec - 1) <= m').
        { apply Z.le_trans with (2 := rne_ge_div (Z.pos m) n).
          apply Z.div_le_lower_bound; [lia|].
          rewrite <- Z.pow_add_r by lia.
          replace (n + (prec - 1)) with (Zdigits2 (Z.pos m) - 1) by lia.
          exact ML. }
        assert (prec <= Zdigits2 m').
        { destruct (Z.lt_ge_cases (Zdigits2 m') prec) as [C|C]; [|exact C].
          assert (2 ^ Zdigits2 m' <= 2 ^ (prec - 1))
            by (apply Z.pow_le_mono_r; lia).
          lia. }
        unfold fexp. lia. }
    assert (N'U : n' <= Zdigits2 m' - 1).
    { unfold n', fexp, emin64 in *. lia. }
    pose proof (shr_exact m' E n' M' N') as H2.
    destruct (shr _ E n') as [mrs'' e''].
    destruct H2 as (-> & -> & _).
    pose proof (pow2_pos n' N') as A'.
    assert (Q : 1 <= m' / 2 ^ n').
    { apply Z.div_le_lower_bound; [lia|].
      apply Z.le_trans with (2 := DL). rewrite Z.mul_1_r.
      apply Z.pow_le_mono_r; lia. }
    assert (W : 0 < m' * 2 ^ n) by (apply Z.mul_pos_pos; lia).
    assert (C : cexp e (m' * 2 ^ n) = E + n').
    { unfold cexp. rewrite Zdigits2_mul_pow2 by lia.
      replace (Zdigits2 m' + n + e) with (Zdigits2 m' + E) by (unfold n; lia).
      unfold n'. lia. }
    unfold encode. destruct (m' * 2 ^ n) as [|w|w] eqn:EW; try lia.
    rewrite C, <- EW.
    replace (E + n' - e) with (n + n') by (unfold n; lia).
    rewrite (Z.mul_comm m'), Z.pow_add_r, Z.div_mul_cancel_l by lia.
    destruct (m' / 2 ^ n') as [|q|q]; try lia. reflexivity.
Qed.

(** *** Changing the unit *)

Lemma round_to_grid_rescale sigma V j :
  sigma <= cexp sigma V -> 0 < V -> 0 <= j ->
  round_to_grid (sigma - j) (V * 2 ^ j) = round_to_grid sigma V * 2 ^ j.
Proof.
  intros S P J. unfold round_to_grid.
  rewrite cexp_scale by assumption.
  replace (cexp sigma V - (sigma - j)) with (cexp sigma V - sigma + j) by lia.
  rewrite rne_scale by lia.
  rewrite Z.pow_add_r by lia. ring.
Qed.

Lemma encode_rescale sigma s W j :
  sigma <= cexp sigma W -> 0 <= W -> 0 <= j ->
  encode (sigma - j) s (W * 2 ^ j) = encode sigma s W.
Proof.
  intros S P J. destruct W as [|w|w]; try lia; [reflexivity|].
  pose proof (pow2_pos j J) as PJ.
  destruct (Z.pos w * 2 ^ j) as [|v|v] eqn:E; try lia.
  rewrite <- E. unfold encode.
  rewrite cexp_scale by lia.
  replace (cexp sigma (Z.pos w) - (sigma - j))
    with (cexp sigma (Z.pos w) - sigma + j) by lia.
  rewrite Z.pow_add_r, Z.div_mul_cancel_r by lia.
  rewrite E at 1. reflexivity.
Qed.

(** Rounding does not lower the grid exponent. *)
Lemma round_to_grid_cexp sigma V :
  sigma <= cexp sigma V -> 0 < V ->
  round_to_grid sigma V = 0 \/ cexp sigma V <= cexp sigma (round_to_grid sigma V).
Proof.
  intros S P. unfold round_to_grid.
  set (k := cexp sigma V - sigma). assert (K : 0 <= k) by (unfold k; lia).
  pose proof (pow2_pos k K) as A.
  pose proof (Zdigits2_bounds V P) as [L U].
  pose proof (Zdigits2_pos V P) as D.
  set (d := Zdigits2 V) in *.
  assert (G : forall W, 2 ^ (d - 1) <= W -> cexp sigma V <= cexp sigma W).
  { intros W HW.
    assert (E : cexp sigma V = cexp sigma (2 ^ (d - 1))).
    { unfold cexp. fold d. f_equal. f_equal. symmetry.
      apply Zdigits2_unique; [apply pow2_pos; lia|].
      split; [lia|]. apply Z.pow_lt_mono_r; lia. }
    rewrite E. apply cexp_mono. split; [|exact HW].
    apply Z.lt_le_incl, pow2_pos. lia. }
  destruct (Z.le_gt_cases k (d - 1)) as [C|C].
  - right. apply G.
    replace (2 ^ (d - 1)) with (2 ^ (d - 1 - k) * 2 ^ k)
      by (rewrite <- Z.pow_add_r by lia; f_equal; lia).
    apply Z.mul_le_mono_nonneg_r; [lia|].
    rewrite <- (rne_exact (2 ^ (d - 1 - k)) k) by assumption.
    apply rne_mono; [assumption|].
    rewrite <- Z.pow_add_r by lia.
    replace (d - 1 - k + k) with (d - 1) by lia. exact L.
  - assert (Q : V / 2 ^ k = 0).
    { apply Z.div_small. split; [lia|].
      apply Z.lt_le_trans with (1 := U). apply Z.pow_le_mono_r; lia. }
    destruct (rne_cases V k) as [R|R]; rewrite R, Q.
    + left. reflexivity.
    + right. rewrite Z.add_0_l, Z.mul_1_l.
      apply G. apply Z.pow_le_mono_r; lia.
Qed.

(** The result of the rounding algorithm, in any smaller unit. *)
Lemma binary_round_aux_nearest s m e sigma :
  e <= cexp e (Zpos m) -> sigma <= e ->
  binary_round_aux prec emax s (Zpos m) e loc_Exact =
  encode sigma s (round_to_grid sigma (Zpos m * 2 ^ (e - sigma))).
Proof.
  intros P S. rewrite binary_round_aux_encode by assumption.
  replace sigma with (e - (e - sigma)) at 1 2 by lia.
  rewrite round_to_grid_rescale by lia.
  assert (0 <= round_to_grid e (Z.pos m)).
  { unfold round_to_grid. apply Z.mul_nonneg_nonneg.
    - apply rne_nonneg; lia.
    - apply Z.lt_le_incl, pow2_pos. lia. }
  destruct (round_to_grid_cexp e (Z.pos m) P ltac:(lia)) as [Z|C].
  - rewrite Z. reflexivity.
  - rewrite encode_rescale by lia. reflexivity.
Qed.

#[local] Arguments Z.mul : simpl never.
#[local] Arguments Z.pow : simpl never.
#[local] Arguments Z.sub : simpl never.
#[local] Arguments Z.add : simpl never.

(** *** Valid numbers *)

Lemma valid_finite s m e :
  valid_binary (S754_finite s m e) = true ->
  cexp e (Zpos m) = e /\ e <= emax - prec /\ emin64 <= e.
Proof.
  simpl. unfold bounded, canonical_mantissa. intros H.
  apply andb_true_iff in H. destruct H as [H1 H2].
  apply Z.eqb_eq in H1. apply Z.leb_le in H2.
  change (fexp prec emax (Z.pos (digits2_pos m) + e)) with (cexp e (Z.pos m)) in H1.
  pose proof (cexp_ge_emin e (Z.pos m)) as H.
  split; [exact H1|split; [exact H2|]].
  rewrite <- H1. exact H.
Qed.

Lemma valid_digits s m e :
  valid_binary (S754_finite s m e) = true ->
  Zdigits2 (Zpos m) <= prec /\ (emin64 < e -> Zdigits2 (Zpos m) = prec).
Proof.
  intros H. destruct (valid_finite s m e H) as (C & _ & _).
  unfold cexp, fexp, emin64, SpecFloat.emin in *.
  change prec with 53 in *. change emax with 1024 in *. lia.
Qed.

Lemma sval_finite_pos m e :
  emin64 <= e -> 0 < Zpos m * 2 ^ (e - emin64).
Proof. intros H. apply Z.mul_pos_pos; [lia|]. apply pow2_pos. lia. Qed.

(** The order of two valid_binary positive numbers is the order of their values. *)
Lemma lex_lt_value m1 e1 m2 e2 :
  valid_binary (S754_finite false m1 e1) = true ->
  valid_binary (S754_finite false m2 e2) = true ->
  e1 < e2 ->
  Zpos m1 * 2 ^ (e1 - emin64) < Zpos m2 * 2 ^ (e2 - emin64).
Proof.
  intros V1 V2 L.
  destruct (valid_finite _ _ _ V1) as (_ & _ & E1).
  destruct (valid_digits _ _ _ V1) as (D1 & _).
  destruct (valid_digits _ _ _ V2) as (_ & D2).
  specialize (D2 ltac:(lia)).
  pose proof (Zdigits2_bounds (Z.pos m1) ltac:(lia)) as [_ U1].
  pose proof (Zdigits2_bounds (Z.pos m2) ltac:(lia)) as [L2 _].
  rewrite D2 in L2.
  change prec with 53 in *.
  assert (U1' : Z.pos m1 < 2 ^ 53).
  { apply Z.lt_le_trans with (1 := U1). apply Z.pow_le_mono_r; lia. }
  replace (e2 - emin64) with ((e2 - e1 - 1) + 1 + (e1 - emin64)) by lia.
  rewrite !Z.pow_add_r by lia.
  pose proof (pow2_pos (e1 - emin64) ltac:(lia)) as A.
  pose proof (pow2_pos (e2 - e1 - 1) ltac:(lia)) as B.
  replace (2 ^ 53) with (2 ^ (53 - 1) * 2) in U1' by reflexivity.
  change (2 ^ 1) with 2.
  set (a := 2 ^ (e1 - emin64)) in *. set (b := 2 ^ (e2 - e1 - 1)) in *.
  set (c := 2 ^ (53 - 1)) in *.
  assert (Z.pos m1 * a < c * 2 * a) by nia.
  assert (X1 : c * a <= Z.pos m2 * a) by (apply Z.mul_le_mono_nonneg_r; lia).
  assert (X2 : Z.pos m2 * a * 1 <= Z.pos m2 * a * b)
    by (apply Z.mul_le_mono_nonneg_l; nia).
  replace (Z.pos m2 * (b * 2 * a)) with (2 * (Z.pos m2 * a * b)) by ring.
  lia.
Qed.

Lemma SFleb_sval x y :
  valid_binary x = true -> valid_binary y = true ->
  finite_or_zero x = true -> finite_or_zero y = true ->
  SFleb x y = true -> sval x <= sval y.
Proof.
  intros Vx Vy Fx Fy. unfold SFleb, SFcompare.
  destruct x as [sx|sx| |sx mx ex], y as [sy|sy| |sy my ey]; try discriminate;
    cbn [sval].
  - destruct (valid_finite _ _ _ Vy) as (_ & _ & Ey).
    pose proof (sval_finite_pos my ey Ey).
    destruct sy; simpl; [discriminate|intros _; lia].
  - destruct (valid_finite _ _ _ Vx) as (_ & _ & Ex).
    pose proof (sval_finite_pos mx ex Ex).
    destruct sx; simpl; [intros _; lia|discriminate].
  - destruct (valid_finite _ _ _ Vx) as (_ & _ & Ex).
    destruct (valid_finite _ _ _ Vy) as (_ & _ & Ey).
    pose proof (sval_finite_pos mx ex Ex).
    pose proof (sval_finite_pos my ey Ey).
    destruct sx, sy; simpl; try discriminate; try (intros _; lia).
    + (* both negative *)
      destruct (Z.compare_spec ex ey) as [E|E|E]; try discriminate.
      * subst ey. change (Pos.compare_cont Eq mx my) with (Pos.compare mx my).
        destruct (Pos.compare_spec mx my); simpl; try discriminate; intros _.
        -- subst. lia.
        -- pose proof (pow2_pos (ex - emin64) ltac:(lia)). nia.
      * intros _. pose proof (lex_lt_value my ey mx ex Vy Vx E). lia.
    + destruct (Z.compare_spec ex ey) as [E|E|E]; try discriminate.
      * subst ey. change (Pos.compare_cont Eq mx my) with (Pos.compare mx my).
        destruct (Pos.compare_spec mx my); simpl; try discriminate; intros _.
        -- subst. lia.
        -- pose proof (pow2_pos (ex - emin64) ltac:(lia)). nia.
      * intros _. pose proof (lex_lt_value mx ex my ey Vx Vy E). lia.
Qed.

(** *** The operations as roundings *)

Lemma nearest_signed sigma s V :
  0 < V -> nearest sigma (cond_Zopp s V) = encode sigma s (round_to_grid sigma V).
Proof.
  intros H. destruct V as [|p|p]; try lia. destruct s; reflexivity.
Qed.

Lemma cond_Zopp_mul s1 s2 a b :
  cond_Zopp s1 a * cond_Zopp s2 b = cond_Zopp (xorb s1 s2) (a * b).
Proof. destruct s1, s2; simpl; ring. Qed.

Lemma cond_Zopp_mul_r s a b : cond_Zopp s a * b = cond_Zopp s (a * b).
Proof. destruct s; simpl; ring. Qed.

Lemma emin64_value : emin64 = -1074.
Proof. reflexivity. Qed.

Lemma SFmul_finite sx mx ex sy my ey :
  valid_binary (S754_finite sx mx ex) = true ->
  valid_binary (S754_finite sy my ey) = true ->
  SFmul prec emax (S754_finite sx mx ex) (S754_finite sy my ey) =
  nearest (2 * emin64)
    (sval (S754_finite sx mx ex) * sval (S754_finite sy my ey)).
Proof.
  intros Vx Vy.
  destruct (valid_finite _ _ _ Vx) as (_ & _ & Ex).
  destruct (valid_finite _ _ _ Vy) as (_ & _ & Ey).
  destruct (valid_digits _ _ _ Vx) as (_ & Dx).
  destruct (valid_digits _ _ _ Vy) as (_ & Dy).
  cbn [SFmul sval]. rewrite cond_Zopp_mul.
  pose proof emin64_value as EM.
  rewrite nearest_signed.
  2:{ apply Z.mul_pos_pos; apply sval_finite_pos; assumption. }
  rewrite (binary_round_aux_nearest _ _ _ (2 * emin64)).
  - f_equal. f_equal. rewrite Pos2Z.inj_mul.
    replace (ex + ey - 2 * emin64) with ((ex - emin64) + (ey - emin64)) by lia.
    rewrite Z.pow_add_r by lia. ring.
  - unfold cexp, fexp, SpecFloat.emin. change prec with 53 in *.
    change emax with 1024.
    assert (Mx : 0 <= Z.pos mx <= Z.pos (mx * my)) by (rewrite Pos2Z.inj_mul; nia).
    assert (My : 0 <= Z.pos my <= Z.pos (mx * my)) by (rewrite Pos2Z.inj_mul; nia).
    apply Zdigits2_le in Mx. apply Zdigits2_le in My.
    destruct (Z.eq_dec ex emin64) as [X|X], (Z.eq_dec ey emin64) as [Y|Y]; lia.
  - lia.
Qed.

Lemma pos_iter_xO m d : Zpos (Pos.iter xO m d) = Zpos m * 2 ^ Zpos d.
Proof.
  revert m. induction d using Pos.peano_ind; intros m.
  - cbn [Pos.iter]. change (2 ^ 1) with 2. lia.
  - rewrite Pos.iter_succ, Pos2Z.inj_succ, Z.pow_succ_r by lia.
    rewrite Pos2Z.inj_xO, IHd. ring.
Qed.

Lemma shl_align_spec m e e' :
  shl_align m e e' =
  if e' <? e then (Z.to_pos (Zpos m * 2 ^ (e - e')), e') else (m, e).
Proof.
  unfold shl_align. destruct (Z.ltb_spec e' e) as [L|L].
  - destruct (e' - e) as [|d|d] eqn:E; try lia.
    f_equal. apply Pos2Z.inj. rewrite pos_iter_xO.
    replace (e - e') with (Z.pos d) by lia.
    rewrite Z2Pos.id; [reflexivity|].
    apply Z.mul_pos_pos; [lia|apply pow2_pos; lia].
  - destruct (e' - e) as [|d|d] eqn:E; try lia; reflexivity.
Qed.

Lemma shl_align_value m e e' :
  e' <= e -> Zpos (fst (shl_align m e e')) = Zpos m * 2 ^ (e - e').
Proof.
  intros L. rewrite shl_align_spec. destruct (Z.ltb_spec e' e) as [L'|L']; cbn [fst].
  - rewrite Z2Pos.id; [reflexivity|].
    apply Z.mul_pos_pos; [lia|apply pow2_pos; lia].
  - replace (e - e') with 0 by lia. change (2 ^ 0) with 1. lia.
Qed.

Lemma binary_round_nearest s m e sigma :
  sigma <= e -> sigma <= emin64 ->
  binary_round prec emax s m e =
  encode sigma s (round_to_grid sigma (Zpos m * 2 ^ (e - sigma))).
Proof.
  intros S1 S2. unfold binary_round.
  change (fexp prec emax (Z.pos (digits2_pos m) + e)) with (cexp e (Zpos m)).
  pose proof (cexp_ge_emin e (Zpos m)) as G. fold emin64 in G.
  rewrite shl_align_spec. destruct (Z.ltb_spec (cexp e (Zpos m)) e) as [L|L].
  - set (e' := cexp e (Zpos m)) in *.
    assert (P : 0 < Zpos m * 2 ^ (e - e'))
      by (apply Z.mul_pos_pos; [lia|apply pow2_pos; lia]).
    rewrite (binary_round_aux_nearest _ _ _ sigma).
    + rewrite Z2Pos.id by exact P. f_equal. f_equal.
      rewrite <- Z.mul_assoc, <- Z.pow_add_r by lia. f_equal. f_equal. lia.
    + rewrite Z2Pos.id by exact P. unfold cexp.
      rewrite Zdigits2_mul_pow2 by lia.
      replace (Zdigits2 (Z.pos m) + (e - e') + e') with (Zdigits2 (Z.pos m) + e) by lia.
      fold (cexp e (Zpos m)). fold e'. lia.
    + lia.
  - apply binary_round_aux_nearest; lia.
Qed.

Lemma binary_normalize_nearest D e sigma :
  sigma <= e -> sigma <= emin64 ->
  binary_normalize prec emax D e false = nearest sigma (D * 2 ^ (e - sigma)).
Proof.
  intros S1 S2. pose proof (pow2_pos (e - sigma) ltac:(lia)) as P.
  destruct D as [|p|p]; cbn [binary_normalize].
  - reflexivity.
  - rewrite (binary_round_nearest _ _ _ sigma) by assumption.
    change (Z.pos p * 2 ^ (e - sigma)) with (cond_Zopp false (Z.pos p * 2 ^ (e - sigma))) at 2.
    rewrite nearest_signed by lia. reflexivity.
  - rewrite (binary_round_nearest _ _ _ sigma) by assumption.
    replace (Z.neg p * 2 ^ (e - sigma)) with (cond_Zopp true (Z.pos p * 2 ^ (e - sigma)))
      by (cbn [cond_Zopp]; lia).
    rewrite nearest_signed by lia. reflexivity.
Qed.

(** A valid_binary number is the rounding of its own value. *)
Lemma nearest_sval s m e :
  valid_binary (S754_finite s m e) = true ->
  nearest emin64 (sval (S754_finite s m e)) = S754_finite s m e.
Proof.
  intros V. destruct (valid_finite _ _ _ V) as (C & U & L).
  cbn [sval]. rewrite nearest_signed by (apply sval_finite_pos; assumption).
  rewrite <- (binary_round_aux_nearest s m e emin64) by lia.
  rewrite binary_round_aux_encode by lia.
  unfold round_to_grid. rewrite C, Z.sub_diag, rne_0.
  change (2 ^ 0) with 1. rewrite Z.mul_1_r.
  unfold encode. rewrite C, Z.sub_diag. change (2 ^ 0) with 1.
  rewrite Z.div_1_r. apply Z.leb_le in U. rewrite U. reflexivity.
Qed.

Lemma SFsub_finite sx mx ex sy my ey :
  valid_binary (S754_finite sx mx ex) = true ->
  valid_binary (S754_finite sy my ey) = true ->
  SFsub prec emax (S754_finite sx mx ex) (S754_finite sy my ey) =
  nearest emin64
    (sval (S754_finite sx mx ex) - sval (S754_finite sy my ey)).
Proof.
  intros Vx Vy.
  destruct (valid_finite _ _ _ Vx) as (_ & _ & Ex).
  destruct (valid_finite _ _ _ Vy) as (_ & _ & Ey).
  cbn [SFsub sval].
  change (IntDef.Z.min ex ey) with (Z.min ex ey).
  assert (M : emin64 <= Z.min ex ey) by (apply Z.min_glb; assumption).
  pose proof (Z.le_min_l ex ey) as Ml. pose proof (Z.le_min_r ex ey) as Mr.
  set (ez := Z.min ex ey) in *. clearbody ez.
  rewrite (binary_normalize_nearest _ _ emin64) by lia.
  f_equal. rewrite !shl_align_value by lia.
  rewrite Z.mul_sub_distr_r, !cond_Zopp_mul_r.
  rewrite <- !Z.mul_assoc, <- !Z.pow_add_r by lia.
  replace (ex - ez + (ez - emin64)) with (ex - emin64) by lia.
  replace (ey - ez + (ez - emin64)) with (ey - emin64) by lia.
  reflexivity.
Qed.

Lemma same_value_refl a : same_value a a.
Proof. now left. Qed.

Lemma same_value_zero s1 s2 : same_value (S754_zero s1) (S754_zero s2).
Proof. right. now exists s1, s2. Qed.

Lemma SFmul_nearest x y :
  valid_binary x = true -> valid_binary y = true ->
  finite_or_zero x = true -> finite_or_zero y = true ->
  same_value (SFmul prec emax x y) (nearest (2 * emin64) (sval x * sval y)).
Proof.
  intros Vx Vy Fx Fy.
  destruct x as [sx|sx| |sx mx ex], y as [sy|sy| |sy my ey]; try discriminate.
  - apply same_value_zero.
  - apply same_value_zero.
  - cbn [SFmul sval]. rewrite Z.mul_0_r. apply same_value_zero.
  - rewrite SFmul_finite by assumption. apply same_value_refl.
Qed.

Lemma SFsub_nearest x y :
  valid_binary x = true -> valid_binary y = true ->
  finite_or_zero x = true -> finite_or_zero y = true ->
  same_value (SFsub prec emax x y) (nearest emin64 (sval x - sval y)).
Proof.
  intros Vx Vy Fx Fy.
  destruct x as [sx|sx| |sx mx ex], y as [sy|sy| |sy my ey]; try discriminate.
  - destruct sx, sy; apply same_value_zero.
  - cbn [SFsub]. left.
    assert (V' : valid_binary (S754_finite (negb sy) my ey) = true) by exact Vy.
    rewrite <- (nearest_sval _ _ _ V'). f_equal. cbn [sval].
    destruct sy; cbn [negb cond_Zopp]; lia.
  - cbn [SFsub]. left. rewrite <- (nearest_sval _ _ _ Vx) at 1.
    f_equal. cbn [sval]. lia.
  - rewrite SFsub_finite by assumption. apply same_value_refl.
Qed.

Lemma same_value_leb a a' b b' :
  same_value a a' -> same_value b b' -> SFleb a b = SFleb a' b'.
Proof.
  intros [->|(s1 & s2 & -> & ->)] [->|(t1 & t2 & -> & ->)]; try reflexivity.
  all: try (destruct a'; reflexivity).
  all: destruct b'; reflexivity.
Qed.

(** *** Monotonicity of the operations on representations *)

Lemma SFleb_top x : x <> S754_nan -> SFleb x (S754_infinity false) = true.
Proof. destruct x as [s|s| |s m e]; try destruct s; try reflexivity; congruence. Qed.

Lemma SFleb_bot x : x <> S754_nan -> SFleb (S754_infinity true) x = true.
Proof. destruct x as [s|s| |s m e]; try destruct s; try reflexivity; congruence. Qed.

Lemma SFleb_refl x : x <> S754_nan -> SFleb x x = true.
Proof.
  intros H. unfold SFleb.
  destruct x as [s|s| |s m e]; try destruct s; try reflexivity; try congruence;
    cbn [SFcompare]; rewrite Z.compare_refl;
    change (Pos.compare_cont Eq m m) with (Pos.compare m m);
    rewrite Pos.compare_refl; reflexivity.
Qed.

Lemma nearest_not_nan sigma d : nearest sigma d <> S754_nan.
Proof.
  unfold nearest, encode.
  destruct d; try discriminate;
    destruct (round_to_grid _ _); try discriminate;
    destruct (_ <=? _); discriminate.
Qed.

Lemma same_value_not_nan a b : same_value a b -> b <> S754_nan -> a <> S754_nan.
Proof. intros [->|(s1 & s2 & -> & _)] H; [exact H|discriminate]. Qed.

(** The shapes of a number that is not below zero. *)
Lemma nonneg_shape x :
  SFleb (S754_zero false) x = true ->
  (exists s, x = S754_zero s) \/ x = S754_infinity false \/
  (exists m e, x = S754_finite false m e).
Proof.
  destruct x as [s|s| |s m e]; try destruct s; try discriminate; intros _; eauto.
Qed.

Lemma nonneg_sval x : SFleb (S754_zero false) x = true -> 0 <= sval x.
Proof.
  intros H. destruct (nonneg_shape x H) as [(s & ->)|[->|(m & e & ->)]];
    cbn [sval cond_Zopp]; lia.
Qed.

Lemma below_finite_or_zero x y :
  SFleb (S754_zero false) x = true -> SFleb x y = true -> finite_or_zero y = true ->
  finite_or_zero x = true.
Proof.
  intros H. destruct (nonneg_shape x H) as [(s & ->)|[->|(m & e & ->)]];
    try reflexivity.
  destruct y as [s|s| |s m e]; try destruct s; discriminate.
Qed.

Lemma SFleb_trans_zero x y :
  SFleb (S754_zero false) x = true -> SFleb x y = true -> SFleb (S754_zero false) y = true.
Proof.
  intros H. destruct (nonneg_shape x H) as [(s & ->)|[->|(m & e & ->)]];
    destruct y as [s'|s'| |s' m' e']; try destruct s'; try reflexivity;
    try discriminate.
Qed.

(** The product with an infinite factor. *)
Lemma mul_inf_l y :
  SFleb (S754_zero false) y = true -> SFmul prec emax (S754_infinity false) y <> S754_nan ->
  SFmul prec emax (S754_infinity false) y = S754_infinity false.
Proof.
  intros H. destruct (nonneg_shape y H) as [(s & ->)|[->|(m & e & ->)]];
    cbn [SFmul xorb]; congruence.
Qed.

Lemma mul_inf_r x :
  SFleb (S754_zero false) x = true -> SFmul prec emax x (S754_infinity false) <> S754_nan ->
  SFmul prec emax x (S754_infinity false) = S754_infinity false.
Proof.
  intros H. destruct (nonneg_shape x H) as [(s & ->)|[->|(m & e & ->)]];
    cbn [SFmul xorb]; congruence.
Qed.

Lemma not_finite_or_zero_nonneg x :
  SFleb (S754_zero false) x = true -> finite_or_zero x = false -> x = S754_infinity false.
Proof.
  intros H. destruct (nonneg_shape x H) as [(s & ->)|[->|(m & e & ->)]];
    try discriminate; reflexivity.
Qed.

(** Products of numbers that are not below zero grow with both factors. *)
Lemma mul_mono_nonneg a b c d :
  valid_binary a = true -> valid_binary b = true -> valid_binary c = true -> valid_binary d = true ->
  SFleb (S754_zero false) a = true -> SFleb a b = true ->
  SFleb (S754_zero false) c = true -> SFleb c d = true ->
  SFmul prec emax a c <> S754_nan -> SFmul prec emax b d <> S754_nan ->
  SFleb (SFmul prec emax a c) (SFmul prec emax b d) = true.
Proof.
  intros Va Vb Vc Vd A AB C CD N1 N2.
  pose proof (SFleb_trans_zero _ _ A AB) as B.
  pose proof (SFleb_trans_zero _ _ C CD) as D.
  destruct (finite_or_zero b) eqn:Fb.
  - destruct (finite_or_zero d) eqn:Fd.
    + pose proof (below_finite_or_zero _ _ A AB Fb) as Fa.
      pose proof (below_finite_or_zero _ _ C CD Fd) as Fc.
      rewrite (same_value_leb _ _ _ _ (SFmul_nearest a c Va Vc Fa Fc)
                 (SFmul_nearest b d Vb Vd Fb Fd)).
      apply nearest_mono; [rewrite emin64_value; lia|].
      pose proof (nonneg_sval _ A). pose proof (nonneg_sval _ C).
      pose proof (SFleb_sval _ _ Va Vb Fa Fb AB).
      pose proof (SFleb_sval _ _ Vc Vd Fc Fd CD).
      apply Z.mul_le_mono_nonneg; lia.
    + rewrite (not_finite_or_zero_nonneg d D Fd) in *.
      rewrite (mul_inf_r b B N2). apply SFleb_top. exact N1.
  - rewrite (not_finite_or_zero_nonneg b B Fb) in *.
    rewrite (mul_inf_l d D N2). apply SFleb_top. exact N1.
Qed.

(** A factor that is not below zero keeps the order of the other factor,
    whatever its sign. *)
Lemma mul_mono_l k u v :
  valid_binary k = true -> valid_binary u = true -> valid_binary v = true ->
  SFleb (S754_zero false) k = true -> SFleb u v = true ->
  SFmul prec emax k u <> S754_nan -> SFmul prec emax k v <> S754_nan ->
  SFleb (SFmul prec emax k u) (SFmul prec emax k v) = true.
Proof.
  intros Vk Vu Vv K UV N1 N2.
  destruct (finite_or_zero k) eqn:Fk.
  - destruct (finite_or_zero u) eqn:Fu.
    + destruct (finite_or_zero v) eqn:Fv.
      * rewrite (same_value_leb _ _ _ _ (SFmul_nearest k u Vk Vu Fk Fu)
                   (SFmul_nearest k v Vk Vv Fk Fv)).
        apply nearest_mono; [rewrite emin64_value; lia|].
        pose proof (nonneg_sval _ K).
        pose proof (SFleb_sval _ _ Vu Vv Fu Fv UV).
        apply Z.mul_le_mono_nonneg_l; lia.
      * destruct v as [s|[|]| |s m e]; try discriminate.
        -- destruct u as [s|[|]| |[|] m e]; discriminate.
        -- destruct (nonneg_shape k K) as [(s & ->)|[->|(m & e & ->)]];
             try discriminate.
           ++ destruct u as [su|su| |su mu eu]; try discriminate;
                cbn [SFmul] in *; congruence.
           ++ cbn [SFmul xorb] in *. apply SFleb_top. exact N1.
        -- destruct u as [s|[|]| |[|] m e]; discriminate.
    + destruct u as [s|[|]| |s m e]; try discriminate.
      * destruct (nonneg_shape k K) as [(s & ->)|[->|(m & e & ->)]];
          try discriminate.
        -- destruct v as [sv|sv| |sv mv ev]; try discriminate;
             cbn [SFmul] in *; congruence.
        -- cbn [SFmul xorb] in *. apply SFleb_bot. exact N2.
      * destruct v as [s|[|]| |[|] m e]; try discriminate.
        apply SFleb_refl. exact N1.
  - rewrite (not_finite_or_zero_nonneg k K Fk) in *.
    destruct u as [su|[|]| |[|] mu eu], v as [sv|[|]| |[|] mv ev];
      try discriminate; cbn [SFmul xorb] in *; try reflexivity; congruence.
Qed.

(** Subtracting more leaves less. *)
Lemma sub_mono_r a y1 y2 :
  valid_binary a = true -> valid_binary y1 = true -> valid_binary y2 = true ->
  SFleb y1 y2 = true ->
  SFsub prec emax a y1 <> S754_nan -> SFsub prec emax a y2 <> S754_nan ->
  SFleb (SFsub prec emax a y2) (SFsub prec emax a y1) = true.
Proof.
  intros Va V1 V2 Y N1 N2.
  destruct (finite_or_zero a) eqn:Fa.
  - destruct (finite_or_zero y1) eqn:F1.
    + destruct (finite_or_zero y2) eqn:F2.
      * rewrite (same_value_leb _ _ _ _ (SFsub_nearest a y2 Va V2 Fa F2)
                   (SFsub_nearest a y1 Va V1 Fa F1)).
        apply nearest_mono; [rewrite emin64_value; lia|].
        pose proof (SFleb_sval _ _ V1 V2 F1 F2 Y). lia.
      * destruct y2 as [s|[|]| |s m e]; try discriminate.
        -- destruct y1 as [s|[|]| |[|] m e]; discriminate.
        -- replace (SFsub prec emax a (S754_infinity false)) with (S754_infinity true)
             by (destruct a; try discriminate; reflexivity).
           apply SFleb_bot. exact N1.
        -- destruct y1 as [s|[|]| |[|] m e]; discriminate.
    + destruct y1 as [s|[|]| |s m e]; try discriminate.
      * replace (SFsub prec emax a (S754_infinity true)) with (S754_infinity false)
          by (destruct a; try discriminate; reflexivity).
        apply SFleb_top. exact N2.
      * destruct y2 as [s|[|]| |[|] m e]; try discriminate.
        apply SFleb_refl. exact N1.
  - destruct a as [s|sa| |s m e]; try discriminate.
    + assert (E : forall y, SFsub prec emax (S754_infinity sa) y <> S754_nan ->
                            SFsub prec emax (S754_infinity sa) y = S754_infinity sa).
      { intros y. destruct y as [s|[|]| |s m e], sa; cbn [SFsub]; congruence. }
      rewrite (E _ N1), (E _ N2). apply SFleb_refl. discriminate.
    + cbn [SFsub] in N1. congruence.
Qed.

(** Where the operations cannot produce NaN. *)
Lemma mul_finite_not_nan_l s m e x :
  valid_binary (S754_finite s m e) = true -> valid_binary x = true ->
  x <> S754_nan -> SFmul prec emax (S754_finite s m e) x <> S754_nan.
Proof.
  intros Vk Vx N. destruct x as [sx|sx| |sx mx ex]; try discriminate; [congruence|].
  rewrite SFmul_finite by assumption. apply nearest_not_nan.
Qed.

Lemma mul_finite_not_nan_r s m e x :
  valid_binary (S754_finite s m e) = true -> valid_binary x = true ->
  x <> S754_nan -> SFmul prec emax x (S754_finite s m e) <> S754_nan.
Proof.
  intros Vk Vx N. destruct x as [sx|sx| |sx mx ex]; try discriminate; [congruence|].
  rewrite SFmul_finite by assumption. apply nearest_not_nan.
Qed.

Lemma sub_finite_not_nan a y :
  valid_binary a = true -> valid_binary y = true -> finite_or_zero a = true ->
  y <> S754_nan -> SFsub prec emax a y <> S754_nan.
Proof.
  intros Va Vy Fa N.
  destruct (finite_or_zero y) eqn:Fy.
  - apply (same_value_not_nan _ _ (SFsub_nearest a y Va Vy Fa Fy)).
    apply nearest_not_nan.
  - destruct a as [s|s| |s m e], y as [sy|sy| |sy my ey]; try discriminate;
      congruence.
Qed.

Lemma mul_self_not_nan x : valid_binary x = true -> x <> S754_nan -> SFmul prec emax x x <> S754_nan.
Proof.
  intros V N. destruct x as [s|s| |s m e]; try discriminate; [congruence|].
  now apply mul_finite_not_nan_l.
Qed.

End Rounding64.

(** ** Monotonicity of binary64 arithmetic *)

Module FloatArith.

Import Rounding64.

Lemma finite_positive_shape k :
  finite_positive k = true -> exists m e, Prim2SF k = S754_finite false m e.
Proof.
  unfold finite_positive. rewrite andb_true_iff, !ltb_spec.
  change (Prim2SF 0) with (S754_zero false).
  change (Prim2SF infinity) with (S754_infinity false).
  destruct (Prim2SF k) as [s|[|]| |[|] m e]; intros [H1 H2]; try discriminate.
  eauto.
Qed.

Lemma finite_shape x : finite x = true -> finite_or_zero (Prim2SF x) = true.
Proof.
  unfold finite. rewrite andb_true_iff, !ltb_spec.
  change (Prim2SF neg_infinity) with (S754_infinity true).
  change (Prim2SF infinity) with (S754_infinity false).
  destruct (Prim2SF x) as [s|[|]| |s m e]; intros [H1 H2]; try discriminate;
    reflexivity.
Qed.

Lemma leb_not_nan x y : (x <=? y) = true -> is_nan x = false /\ is_nan y = false.
Proof.
  rewrite leb_spec, !FloatOrder.is_nan_false.
  destruct (Prim2SF x) as [s|s| |s m e], (Prim2SF y) as [s'|s'| |s' m' e'];
    try discriminate; intros _; split; discriminate.
Qed.

Lemma ltb_leb x y : (x <? y) = true -> (x <=? y) = true.
Proof.
  rewrite ltb_spec, leb_spec. unfold SFltb, SFleb.
  destruct (SFcompare _ _) as [[ | | ]|]; congruence.
Qed.

Lemma leb_refl x : is_nan x = false -> (x <=? x) = true.
Proof. rewrite FloatOrder.is_nan_false, leb_spec. apply SFleb_refl. Qed.

Lemma leb_mul_nonneg a b c d :
  (0 <=? a) = true -> (a <=? b) = true ->
  (0 <=? c) = true -> (c <=? d) = true ->
  is_nan (a * c) = false -> is_nan (b * d) = false ->
  (a * c <=? b * d) = true.
Proof.
  rewrite !leb_spec, !FloatOrder.is_nan_false, !mul_spec.
  change (Prim2SF 0) with (S754_zero false).
  apply mul_mono_nonneg; apply Prim2SF_valid.
Qed.

Lemma leb_mul_l k u v :
  (0 <=? k) = true -> (u <=? v) = true ->
  is_nan (k * u) = false -> is_nan (k * v) = false ->
  (k * u <=? k * v) = true.
Proof.
  rewrite !leb_spec, !FloatOrder.is_nan_false, !mul_spec.
  change (Prim2SF 0) with (S754_zero false).
  apply mul_mono_l; apply Prim2SF_valid.
Qed.

Lemma leb_sub_r a y1 y2 :
  (y1 <=? y2) = true ->
  is_nan (a - y1) = false -> is_nan (a - y2) = false ->
  (a - y2 <=? a - y1) = true.
Proof.
  rewrite !leb_spec, !FloatOrder.is_nan_false, !sub_spec.
  apply sub_mono_r; apply Prim2SF_valid.
Qed.

Lemma mul_finite_positive_l k x :
  finite_positive k = true -> is_nan x = false -> is_nan (k * x) = false.
Proof.
  intros K. destruct (finite_positive_shape k K) as (m & e & E).
  rewrite !FloatOrder.is_nan_false, mul_spec. pose proof (Prim2SF_valid k) as V.
  rewrite E in *. apply mul_finite_not_nan_l; [exact V|apply Prim2SF_valid].
Qed.

Lemma mul_finite_positive_r k x :
  finite_positive k = true -> is_nan x = false -> is_nan (x * k) = false.
Proof.
  intros K. destruct (finite_positive_shape k K) as (m & e & E).
  rewrite !FloatOrder.is_nan_false, mul_spec. pose proof (Prim2SF_valid k) as V.
  rewrite E in *. apply mul_finite_not_nan_r; [exact V|apply Prim2SF_valid].
Qed.

Lemma sub_finite x y :
  finite x = true -> is_nan y = false -> is_nan (x - y) = false.
Proof.
  intros F. apply finite_shape in F.
  rewrite !FloatOrder.is_nan_false, sub_spec.
  apply sub_finite_not_nan; try apply Prim2SF_valid. exact F.
Qed.

Lemma mul_self x : is_nan x = false -> is_nan (x * x) = false.
Proof. rewrite !FloatOrder.is_nan_false, mul_spec. apply mul_self_not_nan, Prim2SF_valid. Qed.

(** A product of two numbers that are not below zero is not below zero. *)
Lemma mul_nonneg x y :
  (0 <=? x) = true -> (0 <=? y) = true -> is_nan (x * y) = false ->
  (0 <=? x * y) = true.
Proof.
  intros X Y N. change 0 with (0 * 0) at 1.
  apply leb_mul_nonneg; auto.
Qed.

Lemma cube_not_nan h : (0 <=? h) = true -> is_nan (cube h) = false.
Proof.
  intros H. destruct (leb_not_nan _ _ H) as [_ N]. unfold cube.
  pose proof (mul_self h N) as N2.
  pose proof (mul_nonneg h h H H N2) as S.
  rewrite FloatOrder.is_nan_false, mul_spec.
  rewrite leb_spec in H, S. rewrite FloatOrder.is_nan_false in N, N2.
  change (Prim2SF 0) with (S754_zero false) in *.
  rewrite mul_spec in *.
  pose proof (Prim2SF_valid h) as V.
  pose proof (Prim2SF_valid (h * h)) as V2. rewrite mul_spec in V2.
  destruct (nonneg_shape _ H) as [(s & E)|[E|(m & e & E)]]; rewrite E in *.
  - discriminate.
  - discriminate.
  - apply mul_finite_not_nan_r; assumption.
Qed.

(** The cube of a hollow diameter grows with the diameter. *)
Lemma cube_mono h1 h2 :
  (0 <=? h1) = true -> (h1 <=? h2) = true -> (cube h1 <=? cube h2) = true.
Proof.
  intros H1 H12.
  destruct (leb_not_nan _ _ H12) as [N1 N2].
  assert (H2 : (0 <=? h2) = true).
  { revert H1 H12. rewrite !leb_spec. apply SFleb_trans_zero. }
  pose proof (cube_not_nan h1 H1) as C1.
  pose proof (cube_not_nan h2 H2) as C2.
  unfold cube in *.
  apply leb_mul_nonneg; auto.
  - apply mul_nonneg; auto using mul_self.
  - apply leb_mul_nonneg; auto using mul_self.
Qed.

(** The hollow diameter of the degradation model grows with a positive age. *)
Lemma hollow_mono rate a1 a2 :
  finite_positive rate = true ->
  (0 <? a1) = true -> (a1 <=? a2) = true ->
  (2 * a1 * rate <=? 2 * a2 * rate) = true.
Proof.
  intros R A1 A12.
  destruct (leb_not_nan _ _ A12) as [N1 N2].
  assert (T : finite_positive 2 = true) by reflexivity.
  pose proof (mul_finite_positive_l 2 a1 T N1) as M1.
  pose proof (mul_finite_positive_l 2 a2 T N2) as M2.
  assert (R0 : (0 <=? rate) = true).
  { unfold finite_positive in R. apply andb_true_iff in R. now apply ltb_leb. }
  destruct (leb_not_nan _ _ R0) as [_ NR].
  apply leb_mul_nonneg.
  - apply mul_nonneg; auto using ltb_leb.
  - apply leb_mul_l; auto.
  - exact R0.
  - now apply leb_refl.
  - now apply mul_finite_positive_r.
  - now apply mul_finite_positive_r.
Qed.

(** The resisting moment of the degradation model shrinks as the hollow
    diameter grows. *)
Lemma moment_antitone K G h1 h2 :
  finite_positive K = true -> finite G = true ->
  (0 <=? h1) = true -> (h1 <=? h2) = true ->
  (K * (G - cube h2) <=? K * (G - cube h1)) = true.
Proof.
  intros HK HG H1 H12.
  assert (H2 : (0 <=? h2) = true).
  { revert H1 H12. rewrite !leb_spec. apply SFleb_trans_zero. }
  pose proof (cube_not_nan h1 H1) as C1.
  pose proof (cube_not_nan h2 H2) as C2.
  pose proof (sub_finite G _ HG C1) as S1.
  pose proof (sub_finite G _ HG C2) as S2.
  apply leb_mul_l.
  - unfold finite_positive in HK. apply andb_true_iff in HK. now apply ltb_leb.
  - apply leb_sub_r; auto using cube_mono.
  - now apply mul_finite_positive_l.
  - now apply mul_finite_positive_l.
Qed.

Lemma ltb_leb_trans_zero x y :
  (0 <? x) = true -> (x <=? y) = true -> (0 <? y) = true.
Proof.
  rewrite !ltb_spec, leb_spec. change (Prim2SF 0) with (S754_zero false).
  destruct (Prim2SF x) as [s|[|]| |[|] m e], (Prim2SF y) as [s'|[|]| |[|] m' e'];
    try discriminate; reflexivity.
Qed.

End FloatArith.

(** ** Postsync *)

#[local] Arguments wrap64 : simpl never.
#[local] Arguments wrap32 : simpl never.
#[local] Arguments double_to_int : simpl never.
#[local] Arguments double_to_uint : simpl never.
#[local] Arguments Z2F : simpl never.
#[local] Arguments year_int : simpl never.
#[local] Arguments year_uint : simpl never.
#[local] Arguments TS_NEVER : simpl never.
#[local] Arguments TS_INVALID : simpl never.
#[local] Arguments Z.add : simpl never.
#[local] Arguments Z.sub : simpl never.

#[local] Arguments constant {E} newValue _ /.


(** Case analysis on a pole, each field named after its projection. *)
Ltac destruct_pole p :=
  destruct p as
    [pole_status' tilt_angle' tilt_direction' weather' configuration'
     install_year' repair_time' wind_speed' wind_direction' wind_gusts'
     pole_stress' pole_stress_polynomial_a' pole_stress_polynomial_b'
     pole_stress_polynomial_c' susceptibility' total_moment'
     resisting_moment' pole_moment' pole_moment_nowind' equipment_moment'
     equipment_moment_nowind' critical_wind_speed' guy_height' is_deadend'
     config' last_wind_speed' down_time' current_hollow_diameter'
     wind_pressure' wire_load' wire_moment' wire_tension' wire_load_nowind'
     wire_moment_nowind' height' recalc' wind_speed_ref'
     wind_direction_ref' wind_gusts_ref'].

Section Postsync.

Variables (h : host) (t0 : TIMESTAMP).

(** What a recalculating postsync leaves in the fields it computes. *)
Lemma postsync_recalc p :
  recalc p = true ->
  let p' := fst (postsync h p t0) in
  total_moment p' =
    pole_moment p + equipment_moment p + wire_moment p + wire_tension p /\
  pole_stress p' = stress_of p /\
  pole_status p' = (if stress_of p <? 1 then PS_OK else PS_FAILED) /\
  down_time p' = (if stress_of p <? 1 then down_time p else gl_globalclock h) /\
  susceptibility p' =
    (if 0 <? wind_speed p
     then 2 * (pole_moment p + equipment_moment p + wire_moment p)
          / resisting_moment p / wind_speed p / 0.00256 / 2.24
     else 0) /\
  recalc p' = false.
Proof.
  intros R. unfold postsync, stress_of. rewrite R.
  destruct p; cbn in *.
  repeat split; try reflexivity.
  match goal with |- context [if ?c <? 1 then _ else _] => destruct (c <? 1) end;
    reflexivity.
Qed.

(** The time stamp a recalculating postsync returns. *)
Lemma postsync_recalc_event p :
  recalc p = true ->
  snd (postsync h p t0) =
    if stop_on_pole_failure h then TS_INVALID
    else if stress_of p <? 1 then TS_NEVER
         else wrap64 (gl_globalclock h + double_to_int (repair_time p * 3600)).
Proof.
  intros R. unfold postsync, stress_of. rewrite R.
  destruct p; cbn in *.
  match goal with |- context [if ?c <? 1 then _ else _] => destruct (c <? 1) end;
    reflexivity.
Qed.

(** The fields postsync leaves alone. *)
Lemma postsync_frame p :
  let p' := fst (postsync h p t0) in
  resisting_moment p' = resisting_moment p /\
  repair_time p' = repair_time p /\
  config p' = config p /\
  install_year p' = install_year p /\
  tilt_angle p' = tilt_angle p /\
  tilt_direction p' = tilt_direction p.
Proof.
  unfold postsync. destruct (recalc p); [|cbn; tauto].
  destruct p; cbn. tauto.
Qed.

(** Without the flag postsync does nothing. *)
Lemma postsync_idle p : recalc p = false -> postsync h p t0 = (p, TS_NEVER).
Proof. intros R. unfold postsync. now rewrite R. Qed.

End Postsync.

(** *** C1 *)

(** C1, as amended: in a postsync with the recalc flag set, [total_moment]
    is [pole_moment + equipment_moment + wire_moment + wire_tension];
    [pole_stress] is [total_moment / resisting_moment] when
    [resisting_moment > 0] and [+infinity] when [resisting_moment = 0];
    [status] is set to OK if and only if [pole_stress < 1.0] and to FAILED
    otherwise, that is, if and only if [pole_stress >= 1.0] or [pole_stress]
    is NaN; and on setting FAILED [down_time] is set to the global clock. *)
Theorem postsync_stress_and_status h p t0 :
  recalc p = true ->
  let p' := fst (postsync h p t0) in
  let tm := pole_moment p + equipment_moment p + wire_moment p + wire_tension p in
  total_moment p' = tm /\
  ((0 <? resisting_moment p) = true -> pole_stress p' = tm / resisting_moment p) /\
  ((resisting_moment p =? 0) = true -> pole_stress p' = infinity) /\
  (pole_status p' = PS_OK <-> (pole_stress p' <? 1) = true) /\
  (pole_status p' = PS_FAILED <->
     (1 <=? pole_stress p') = true \/ is_nan (pole_stress p') = true) /\
  (pole_status p' = PS_FAILED -> down_time p' = gl_globalclock h).
Proof.
  intros R p' tm.
  destruct (postsync_recalc h t0 p R) as (Htm & Hps & Hst & Hdt & _ & _).
  fold p' in Htm, Hps, Hst, Hdt.
  split; [exact Htm|].
  split; [intros Hpos; rewrite Hps; unfold stress_of; now rewrite Hpos|].
  split; [intros Hz; rewrite Hps; unfold stress_of;
          now rewrite (FloatOrder.eqb_zero_not_pos _ Hz)|].
  rewrite Hst, Hdt, Hps.
  destruct (stress_of p <? 1) eqn:E.
  - split; [tauto|]. split; [|discriminate].
    split; [discriminate|].
    intros [H|H].
    + now rewrite (FloatOrder.ltb_true_leb_false _ _ E) in H.
    + destruct (FloatOrder.ltb_true_not_nan _ _ E) as [N _]. congruence.
  - split; [split; discriminate|]. split; [|reflexivity].
    split; [|reflexivity]. intros _.
    apply FloatOrder.ltb_false_iff in E. destruct E as [E|[E|E]]; auto.
    discriminate.
Qed.

Lemma postsync_stress_and_status_witness :
  recalc loaded_pole = true /\
  let p' := fst (postsync quiet_host loaded_pole 1600000000) in
  pole_stress p' = 500 / 1000 /\ pole_status p' = PS_OK.
Proof.
  split; [reflexivity|].
  destruct (postsync_stress_and_status quiet_host loaded_pole 1600000000 eq_refl)
    as (_ & Hps & _ & Hok & _).
  split.
  - exact (Hps eq_refl).
  - apply Hok. rewrite (Hps eq_refl). reflexivity.
Defined.

(** C1 as stated fails when the stress is NaN: the pole is set to FAILED
    although [pole_stress >= 1.0] does not hold. *)
Lemma postsync_nan_stress_is_failed :
  let p' := fst (postsync quiet_host nan_loaded_pole 1600000000) in
  recalc nan_loaded_pole = true /\
  (0 <? resisting_moment nan_loaded_pole) = true /\
  pole_status p' = PS_FAILED /\
  (1 <=? pole_stress p') = false.
Proof. vm_compute. repeat split. Qed.

(** *** C3 *)

(** C3: with [stop_on_pole_failure] set, a recalculating postsync returns
    [TS_INVALID] whatever the status it has just computed. *)
Theorem postsync_stop_flag_halts h p t0 :
  recalc p = true ->
  stop_on_pole_failure h = true ->
  snd (postsync h p t0) = TS_INVALID.
Proof.
  intros R S. rewrite (postsync_recalc_event h t0 p R). now rewrite S.
Qed.

(** The failing input of C3: the pole ends the step OK and the host is told
    to stop. *)
Lemma postsync_stop_flag_halts_sound_pole :
  pole_status (fst (postsync stopping_host loaded_pole 1600000000)) = PS_OK /\
  snd (postsync stopping_host loaded_pole 1600000000) = TS_INVALID /\
  TS_INVALID <> TS_NEVER.
Proof.
  split; [reflexivity|]. split; [|discriminate].
  exact (postsync_stop_flag_halts stopping_host loaded_pole 1600000000 eq_refl eq_refl).
Defined.

(** *** C6 *)

(** C6: in a recalculating postsync, a wind speed equal to zero gives the
    susceptibility 0 whatever the accumulators and the resisting moment hold,
    and a positive wind speed gives
    [2 * (pole_moment + equipment_moment + wire_moment) / resisting_moment
     / wind_speed / 0.00256 / 2.24]. *)
Theorem postsync_susceptibility h p t0 :
  recalc p = true ->
  let p' := fst (postsync h p t0) in
  ((wind_speed p =? 0) = true -> susceptibility p' = 0) /\
  ((0 <? wind_speed p) = true ->
   susceptibility p' =
     2 * (pole_moment p + equipment_moment p + wire_moment p)
     / resisting_moment p / wind_speed p / 0.00256 / 2.24).
Proof.
  intros R p'.
  destruct (postsync_recalc h t0 p R) as (_ & _ & _ & _ & Hs & _).
  fold p' in Hs. rewrite Hs. split.
  - intros Hz. now rewrite (FloatOrder.eqb_zero_not_pos _ Hz).
  - intros Hpos. now rewrite Hpos.
Qed.

Lemma postsync_susceptibility_witness :
  recalc loaded_pole = true /\
  (0 <? wind_speed loaded_pole) = true /\
  susceptibility (fst (postsync quiet_host loaded_pole 1600000000)) =
    2 * (300 + 150 + 40) / 1000 / 10 / 0.00256 / 2.24.
Proof.
  split; [reflexivity|]. split; [reflexivity|].
  exact (proj2 (postsync_susceptibility quiet_host loaded_pole 1600000000 eq_refl)
           eq_refl).
Defined.

(** *** C8 *)

(** C8: when the recalc flag is not set, postsync returns the pole as it
    received it (so the total moment, the stress, the status, the
    susceptibility, the down time and the polynomial coefficients are
    unchanged) together with [TS_NEVER], and so does every further
    invocation, at whatever clock. *)
Theorem postsync_without_recalc (p : pole) (calls : list (host * TIMESTAMP)) :
  recalc p = false ->
  (forall h t0, postsync h p t0 = (p, TS_NEVER)) /\
  fold_left (fun q c => fst (postsync (fst c) q (snd c))) calls p = p /\
  Forall (fun c => snd (postsync (fst c) p (snd c)) = TS_NEVER) calls.
Proof.
  intros R. split; [intros h t0; now apply postsync_idle|]. split.
  - induction calls as [|c calls IH]; [reflexivity|].
    simpl. now rewrite (postsync_idle (fst c) (snd c) p R).
  - apply Forall_forall. intros c _.
    now rewrite (postsync_idle (fst c) (snd c) p R).
Qed.

Lemma postsync_without_recalc_witness :
  recalc allocated = false /\
  postsync stopping_host allocated 1600000000 = (allocated, TS_NEVER).
Proof.
  split; [reflexivity|].
  exact (proj1 (postsync_without_recalc allocated [] eq_refl) stopping_host
           1600000000%Z).
Defined.

(** ** Initialisation *)

(** The three outcomes of [init] and what each says of the pole it was
    given. *)
Lemma init_outcome h p :
  match init h p with
  | init_return 1 p' =>
      exists cfg c, configuration p = Some cfg /\ OBJECTDATA cfg = Some c /\
      ((tilt_angle p <? 0) || (90 <? tilt_angle p)) = false /\
      ((tilt_direction p <? 0) || (360 <=? tilt_direction p)) = false /\
      config p' = Some c /\
      repair_time p' =
        (if repair_time p <=? 0
         then if is_positive (gl_get_addr cfg "repair_time")
              then match gl_get_addr cfg "repair_time" with Some v => v | None => 0 end
              else default_repair_time h
         else repair_time p) /\
      ((repair_time p <=? 0) = true ->
       is_positive (gl_get_addr cfg "repair_time") = false ->
       (0 <? default_repair_time h) = true)
  | init_return _ _ =>
      configuration p = None \/
      (exists cfg, configuration p = Some cfg /\ OBJECTDATA cfg = None) \/
      ((tilt_angle p <? 0) || (90 <? tilt_angle p)) = true \/
      ((tilt_direction p <? 0) || (360 <=? tilt_direction p)) = true
  | init_exception _ =>
      exists cfg, configuration p = Some cfg /\
      (repair_time p <=? 0) = true /\
      is_positive (gl_get_addr cfg "repair_time") = false /\
      (0 <? default_repair_time h) = false
  end.
Proof.
  unfold init.
  destruct (configuration p) as [cfg|] eqn:Ecfg; [|now left].
  destruct (OBJECTDATA cfg) as [c|] eqn:Ec; [|right; left; eauto].
  destruct_pole p; cbn in *.
  unfold is_positive.
  destruct weather';
  (destruct (repair_time' <=? 0) eqn:Ert;
   [ destruct (gl_get_addr cfg "repair_time") as [v|] eqn:Ev; cbn;
     [ destruct (0 <? v) eqn:Ep; cbn;
       [ | destruct (0 <? default_repair_time h) eqn:Ed; cbn;
           [ | exists cfg; rewrite ?Ev; cbn; repeat split; (assumption || reflexivity) ] ]
     | destruct (0 <? default_repair_time h) eqn:Ed; cbn;
       [ | exists cfg; rewrite ?Ev; cbn; repeat split; (assumption || reflexivity) ] ]
   | ]).
  all: cbn; destruct ((tilt_angle' <? 0) || (90 <? tilt_angle')) eqn:Eta; cbn;
    try (right; right; left; reflexivity).
  all: destruct ((tilt_direction' <? 0) || (360 <=? tilt_direction')) eqn:Etd; cbn;
    try (right; right; right; reflexivity).
  all: exists cfg, c; rewrite ?Ev; cbn; rewrite ?Ep; repeat split; congruence.
Qed.

(** *** C7 *)

(** C7, as amended: initialisation fails (it returns 0 or throws) if and only
    if the configuration reference is missing or is not a pole_configuration
    object, or [tilt_angle < 0] or [tilt_angle > 90], or [tilt_direction < 0]
    or [tilt_direction >= 360], or the pole's own repair time is [<= 0] and
    neither the configuration's repair time nor the process-wide default is
    positive. The resolution is attempted only when the pole's own repair
    time is [<= 0]: it then takes the configuration's value when positive,
    otherwise the default; an own value that is positive, or NaN, is kept. *)
Theorem init_fails_iff h p :
  (init_fails (init h p) <->
   configuration p = None \/
   (exists cfg, configuration p = Some cfg /\
                gl_object_isa_pole_configuration cfg = false) \/
   (tilt_angle p <? 0) = true \/ (90 <? tilt_angle p) = true \/
   (tilt_direction p <? 0) = true \/ (360 <=? tilt_direction p) = true \/
   (exists cfg, configuration p = Some cfg /\
                (repair_time p <=? 0) = true /\
                is_positive (gl_get_addr cfg "repair_time") = false /\
                (0 <? default_repair_time h) = false)) /\
  (forall p', init h p = init_return 1 p' ->
   exists cfg, configuration p = Some cfg /\
   repair_time p' =
     if repair_time p <=? 0
     then match gl_get_addr cfg "repair_time" with
          | Some v => if 0 <? v then v else default_repair_time h
          | None => default_repair_time h
          end
     else repair_time p).
Proof.
  pose proof (init_outcome h p) as O. split.
  - unfold gl_object_isa_pole_configuration.
    destruct (init h p) as [code p'|msg]; cbn.
    + destruct code as [|[ | | ]|]; cbn.
      * split; [intros _|tauto].
        destruct O as [O|[(cfg & O1 & O2)|[O|O]]]; auto.
        -- right; left. exists cfg. now rewrite O2.
        -- apply orb_true_iff in O. tauto.
        -- apply orb_true_iff in O. tauto.
      * split; [intros _|tauto].
        destruct O as [O|[(cfg & O1 & O2)|[O|O]]]; auto.
        -- right; left. exists cfg. now rewrite O2.
        -- apply orb_true_iff in O. tauto.
        -- apply orb_true_iff in O. tauto.
      * split; [intros _|tauto].
        destruct O as [O|[(cfg & O1 & O2)|[O|O]]]; auto.
        -- right; left. exists cfg. now rewrite O2.
        -- apply orb_true_iff in O. tauto.
        -- apply orb_true_iff in O. tauto.
      * split; [tauto|].
        destruct O as (cfg & c & O1 & O2 & O3 & O4 & _ & _ & O7).
        apply orb_false_iff in O3, O4.
        intros [H|[(cfg' & H1 & H2)|[H|[H|[H|[H|(cfg' & H1 & H2 & H3 & H4)]]]]]];
          try congruence; try (destruct O3, O4; congruence).
        -- rewrite O1 in H1. injection H1 as <-. now rewrite O2 in H2.
        -- rewrite O1 in H1. injection H1 as <-.
           specialize (O7 H2 H3). congruence.
      * split; [intros _|tauto].
        destruct O as [O|[(cfg & O1 & O2)|[O|O]]]; auto.
        -- right; left. exists cfg. now rewrite O2.
        -- apply orb_true_iff in O. tauto.
        -- apply orb_true_iff in O. tauto.
    + split; [intros _|tauto].
      destruct O as (cfg & O). do 6 right. now exists cfg.
  - intros p' E. rewrite E in O.
    destruct O as (cfg & c & O1 & _ & _ & _ & _ & O6 & _).
    exists cfg. split; [exact O1|]. rewrite O6. unfold is_positive.
    destruct (repair_time p <=? 0); [|reflexivity].
    destruct (gl_get_addr cfg "repair_time") as [v|]; reflexivity.
Qed.

(** C7 as stated fails for a repair time that is NaN: none of the three
    repair times is positive, the configuration and the tilt are in order,
    and initialisation succeeds, keeping the NaN. *)
Lemma init_keeps_nan_repair_time :
  (0 <? repair_time nan_repair_pole) = false /\
  is_positive (gl_get_addr wooden_configuration "repair_time") = false /\
  (0 <? default_repair_time no_default_host) = false /\
  configuration nan_repair_pole = Some wooden_configuration /\
  gl_object_isa_pole_configuration wooden_configuration = true /\
  (tilt_angle nan_repair_pole <? 0) || (90 <? tilt_angle nan_repair_pole) = false /\
  (tilt_direction nan_repair_pole <? 0) || (360 <=? tilt_direction nan_repair_pole)
    = false /\
  match init no_default_host nan_repair_pole with
  | init_return 1 p' => is_nan (repair_time p') = true
  | _ => False
  end.
Proof. vm_compute. repeat split. Qed.

(** ** Precommit *)

Section Precommit.

Variables (sin cos : double -> double) (PI : double).
Variables (h : host) (t0 : TIMESTAMP).

(** Precommit as one case analysis on the pole it receives. *)
Lemma precommit_eq p :
  precommit sin cos PI h p t0 =
  match config p with
  | None => None
  | Some c =>
      let q := refreshed c h t0 p in
      Some (if repair_due h p then repair t0 q
            else if wind_changed h p then wind_update sin cos PI c q
            else q, TS_NEVER)
  end.
Proof.
  unfold precommit, refreshed, repair_due, wind_changed, observed_wind_speed.
  destruct_pole p; cbn.
  destruct config'; reflexivity.
Qed.

(** The fields the refresh leaves alone. *)
Lemma refreshed_frame c p :
  let q := refreshed c h t0 p in
  pole_status q = pole_status p /\
  recalc q = recalc p /\
  down_time q = down_time p /\
  repair_time q = repair_time p /\
  config q = config p /\
  install_year q = install_year p /\
  tilt_angle q = tilt_angle p /\
  tilt_direction q = tilt_direction p /\
  pole_moment q = pole_moment p.
Proof. destruct_pole p; cbn. repeat split. Qed.

(** The degradation model, on the fields it assigns. *)
Lemma refreshed_degradation c p :
  let q := refreshed c h t0 p in
  current_hollow_diameter q =
    (if (0 <? age_at t0 p) && (0 <? degradation_rate c)
     then 2 * age_at t0 p * degradation_rate c
     else current_hollow_diameter p) /\
  resisting_moment q =
    0.008186 * strength_factor_250b_wood c * fiber_strength c
    * ((ground_diameter c * ground_diameter c * ground_diameter c)
       - (current_hollow_diameter q * current_hollow_diameter q
          * current_hollow_diameter q)).
Proof.
  destruct_pole p; cbn. unfold age_at; cbn. split; [|reflexivity].
  destruct (0 <? Z2F (year_int t0) - Z2F install_year'); reflexivity.
Qed.

(** What the repair branch assigns. *)
Lemma repair_fields q :
  let q' := repair t0 q in
  tilt_angle q' = 0 /\ tilt_direction q' = 0 /\ pole_status q' = PS_OK /\
  install_year q' = wrap32 (year_uint t0) /\ recalc q' = true /\
  down_time q' = down_time q /\ repair_time q' = repair_time q /\
  config q' = config q /\ resisting_moment q' = resisting_moment q.
Proof. destruct_pole q; cbn. repeat split. Qed.

(** What the wind branch leaves in the fields the step reads later. *)
Lemma wind_update_fields c q :
  let q' := wind_update sin cos PI c q in
  resisting_moment q' =
    (if resisting_moment q <? 0 then 0 else resisting_moment q) /\
  recalc q' = true /\ pole_status q' = pole_status q /\
  last_wind_speed q' = wind_speed q /\
  down_time q' = down_time q /\ repair_time q' = repair_time q /\
  config q' = config q /\ install_year q' = install_year q.
Proof. destruct_pole q; cbn. repeat split. Qed.

End Precommit.

(** ** Presync and the collaborators *)

Lemma presync_recalc p t0 :
  recalc p = true -> presync p t0 = (reset_sync_accumulators p, TS_NEVER).
Proof. intros R. unfold presync. now rewrite R. Qed.

Lemma presync_idle p t0 : recalc p = false -> presync p t0 = (p, TS_NEVER).
Proof. intros R. unfold presync. now rewrite R. Qed.

(** The collaborators change the eight accumulators and nothing else. *)
Lemma collaborate_eq cs p :
  collaborate cs p =
  p <| pole_moment := sum_from to_pole_moment cs (pole_moment p) |>
    <| equipment_moment := sum_from to_equipment_moment cs (equipment_moment p) |>
    <| wire_moment := sum_from to_wire_moment cs (wire_moment p) |>
    <| wire_tension := sum_from to_wire_tension cs (wire_tension p) |>
    <| wire_load := sum_from to_wire_load cs (wire_load p) |>
    <| equipment_moment_nowind :=
         sum_from to_equipment_moment_nowind cs (equipment_moment_nowind p) |>
    <| wire_load_nowind := sum_from to_wire_load_nowind cs (wire_load_nowind p) |>
    <| wire_moment_nowind := sum_from to_wire_moment_nowind cs (wire_moment_nowind p) |>.
Proof.
  unfold collaborate, sum_from. revert p.
  induction cs as [|c cs IH]; intros p.
  - destruct_pole p; reflexivity.
  - cbn [fold_left]. rewrite IH. destruct_pole p; reflexivity.
Qed.

(** The fields the collaborators leave alone, and the moments they leave. *)
Lemma collaborate_fields cs p :
  let p' := collaborate cs p in
  pole_status p' = pole_status p /\ recalc p' = recalc p /\
  down_time p' = down_time p /\ repair_time p' = repair_time p /\
  config p' = config p /\ resisting_moment p' = resisting_moment p /\
  install_year p' = install_year p /\
  tilt_angle p' = tilt_angle p /\ tilt_direction p' = tilt_direction p /\
  pole_moment p' = sum_from to_pole_moment cs (pole_moment p) /\
  equipment_moment p' = sum_from to_equipment_moment cs (equipment_moment p) /\
  wire_moment p' = sum_from to_wire_moment cs (wire_moment p) /\
  wire_tension p' = sum_from to_wire_tension cs (wire_tension p).
Proof. cbv zeta. rewrite collaborate_eq. destruct_pole p; cbn. repeat split. Qed.

Lemma reset_sync_fields p :
  let p' := reset_sync_accumulators p in
  pole_moment p' = 0 /\ equipment_moment p' = 0 /\ wire_moment p' = 0 /\
  wire_tension p' = 0 /\
  pole_status p' = pole_status p /\ recalc p' = recalc p /\
  down_time p' = down_time p /\ repair_time p' = repair_time p /\
  config p' = config p /\ resisting_moment p' = resisting_moment p.
Proof. destruct_pole p; cbn. repeat split. Qed.

(** ** The time step *)

Section StepProperties.

Variables (sin cos : double -> double) (PI : double).

Lemma step_eq h t0 cs p :
  step sin cos PI h t0 cs p =
  match precommit sin cos PI h p t0 with
  | None => None
  | Some (p1, _) => Some (postsync h (collaborate cs (fst (presync p1 t0))) t0)
  end.
Proof.
  unfold step. destruct (precommit sin cos PI h p t0) as [[p1 e]|]; [|reflexivity].
  unfold presync, sync, commit. cbn.
  now destruct (postsync h _ t0).
Qed.

Lemma wind_changed_not_due h p : wind_changed h p = true -> repair_due h p = false.
Proof.
  unfold wind_changed, repair_due. now destruct (pole_status p).
Qed.

(** The wind branch of a step: the pole at the entry of postsync. *)
Lemma step_wind_changed h t0 cs p c :
  config p = Some c -> wind_changed h p = true ->
  let p1 := wind_update sin cos PI c (refreshed c h t0 p) in
  precommit sin cos PI h p t0 = Some (p1, TS_NEVER) /\
  recalc p1 = true /\
  step sin cos PI h t0 cs p =
    Some (postsync h (collaborate cs (reset_sync_accumulators p1)) t0).
Proof.
  intros C W p1.
  assert (P : precommit sin cos PI h p t0 = Some (p1, TS_NEVER)).
  { rewrite precommit_eq, C. cbv zeta. now rewrite (wind_changed_not_due _ _ W), W. }
  assert (R : recalc p1 = true) by apply wind_update_fields.
  split; [exact P|]. split; [exact R|].
  now rewrite step_eq, P, (presync_recalc _ _ R).
Qed.

(** C9: in a step in which the wind-change trigger fires, precommit sets
    the recalc flag and leaves its tilt and wind moment in [pole_moment];
    presync then resets [pole_moment] to zero, so at the entry of postsync
    it holds only what the collaborators have added from zero (zero when
    there are none), and the total moment of the step is the sum of what
    the collaborators added to the four accumulators: the moment computed by
    precommit is no part of it. *)
Theorem wind_moment_is_reset h t0 cs p c :
  config p = Some c ->
  wind_changed h p = true ->
  exists p1,
    precommit sin cos PI h p t0 = Some (p1, TS_NEVER) /\
    recalc p1 = true /\
    pole_moment (fst (presync p1 t0)) = 0 /\
    let entry := collaborate cs (fst (presync p1 t0)) in
    pole_moment entry = sum_from to_pole_moment cs 0 /\
    (cs = [] -> pole_moment entry = 0) /\
    step sin cos PI h t0 cs p = Some (postsync h entry t0) /\
    total_moment (fst (postsync h entry t0)) =
      sum_from to_pole_moment cs 0 + sum_from to_equipment_moment cs 0
      + sum_from to_wire_moment cs 0 + sum_from to_wire_tension cs 0.
Proof.
  intros C W.
  destruct (step_wind_changed h t0 cs p c C W) as (P & R & S).
  set (p1 := wind_update sin cos PI c (refreshed c h t0 p)) in *.
  exists p1. split; [exact P|]. split; [exact R|].
  rewrite (presync_recalc _ t0 R). cbn [fst].
  destruct (reset_sync_fields p1) as (Z1 & Z2 & Z3 & Z4 & _ & R' & _).
  split; [exact Z1|]. cbv zeta.
  destruct (collaborate_fields cs (reset_sync_accumulators p1))
    as (_ & R'' & _ & _ & _ & _ & _ & _ & _ & A1 & A2 & A3 & A4).
  rewrite Z1 in A1. rewrite Z2 in A2. rewrite Z3 in A3. rewrite Z4 in A4.
  split; [exact A1|].
  split; [intros ->; exact Z1|].
  split; [exact S|].
  assert (Rc : recalc (collaborate cs (reset_sync_accumulators p1)) = true)
    by congruence.
  destruct (postsync_recalc h t0 _ Rc) as (T & _).
  rewrite T, A1, A2, A3, A4. reflexivity.
Qed.

(** The quiet branch of a step: no trigger fires and the flag is not set. *)
Lemma step_quiet h t0 cs p c :
  config p = Some c -> repair_due h p = false -> wind_changed h p = false ->
  recalc p = false ->
  let q := refreshed c h t0 p in
  precommit sin cos PI h p t0 = Some (q, TS_NEVER) /\
  step sin cos PI h t0 cs p = Some (collaborate cs q, TS_NEVER).
Proof.
  intros C D W R q.
  assert (P : precommit sin cos PI h p t0 = Some (q, TS_NEVER)).
  { rewrite precommit_eq, C. cbv zeta. now rewrite D, W. }
  split; [exact P|].
  destruct (refreshed_frame h t0 c p) as (_ & Rq & _). fold q in Rq.
  rewrite step_eq, P, presync_idle by congruence. cbn [fst].
  rewrite postsync_idle; [reflexivity|].
  destruct (collaborate_fields cs q) as (_ & Rc & _). congruence.
Qed.

(** The repair branch of precommit. *)
Lemma precommit_repair h t0 p c :
  config p = Some c -> repair_due h p = true ->
  precommit sin cos PI h p t0 = Some (repair t0 (refreshed c h t0 p), TS_NEVER).
Proof. intros C D. rewrite precommit_eq, C. cbv zeta. now rewrite D. Qed.

(** *** C2 *)

Lemma clamped_not_negative x : ((if x <? 0 then 0 else x) <? 0) = false.
Proof. destruct (x <? 0) eqn:E; [reflexivity|exact E]. Qed.

(** C2, as amended: precommit recomputes the resisting moment from the
    degradation model, [0.008186 * strength factor * fiber strength *
    (ground diameter^3 - hollow diameter^3)]. When the wind-change trigger
    fires (the status is OK and the wind speed differs from the last one
    observed), precommit clamps the recomputed moment: it returns zero when
    the recomputed moment is negative and the recomputed moment itself
    otherwise, so the resisting moment is not negative (it is [>= 0], or
    NaN) when precommit returns and through presync, sync and postsync of
    the step; when the trigger does not fire, precommit leaves the resisting
    moment as the degradation model computed it. *)
Theorem resisting_moment_clamped_on_wind_change h t0 cs p c :
  config p = Some c ->
  let q := refreshed c h t0 p in
  resisting_moment q =
    0.008186 * strength_factor_250b_wood c * fiber_strength c
    * ((ground_diameter c * ground_diameter c * ground_diameter c)
       - (current_hollow_diameter q * current_hollow_diameter q
          * current_hollow_diameter q)) /\
  (wind_changed h p = true ->
   exists p1 p' e,
     precommit sin cos PI h p t0 = Some (p1, TS_NEVER) /\
     resisting_moment p1 =
       (if resisting_moment q <? 0 then 0 else resisting_moment q) /\
     ((resisting_moment q <? 0) = true -> resisting_moment p1 = 0) /\
     ((resisting_moment q <? 0) = false ->
      resisting_moment p1 = resisting_moment q) /\
     (resisting_moment p1 <? 0) = false /\
     ((0 <=? resisting_moment p1) = true \/ is_nan (resisting_moment p1) = true) /\
     step sin cos PI h t0 cs p = Some (p', e) /\
     resisting_moment (fst (presync p1 t0)) = resisting_moment p1 /\
     resisting_moment p' = resisting_moment p1) /\
  (wind_changed h p = false ->
   exists p1,
     precommit sin cos PI h p t0 = Some (p1, TS_NEVER) /\
     resisting_moment p1 = resisting_moment q).
Proof.
  intros C q. split; [apply refreshed_degradation|]. split; intros W.
  - destruct (step_wind_changed h t0 cs p c C W) as (P & R & S).
    fold q in P, R, S.
    set (p1 := wind_update sin cos PI c q) in *.
    destruct (wind_update_fields sin cos PI c q) as (M & _).
    fold p1 in M.
    assert (N : (resisting_moment p1 <? 0) = false)
      by (rewrite M; apply clamped_not_negative).
    destruct (reset_sync_fields p1) as (_ & _ & _ & _ & _ & _ & _ & _ & _ & M1).
    destruct (collaborate_fields cs (reset_sync_accumulators p1))
      as (_ & _ & _ & _ & _ & M2 & _).
    destruct (postsync_frame h t0 (collaborate cs (reset_sync_accumulators p1)))
      as (M3 & _).
    exists p1, (fst (postsync h (collaborate cs (reset_sync_accumulators p1)) t0)),
      (snd (postsync h (collaborate cs (reset_sync_accumulators p1)) t0)).
    split; [exact P|]. split; [exact M|].
    split; [intros B; now rewrite M, B|].
    split; [intros B; now rewrite M, B|].
    split; [exact N|]. split.
    { apply FloatOrder.ltb_false_iff in N. destruct N as [N|[N|N]]; auto.
      discriminate. }
    split; [now rewrite S, <- surjective_pairing|].
    rewrite (presync_recalc _ t0 R). cbn [fst]. split; congruence.
  - rewrite precommit_eq, C. cbv zeta. rewrite W. fold q.
    destruct (repair_due h p).
    + eexists. split; [reflexivity|]. apply repair_fields.
    + eexists. split; reflexivity.
Qed.

(** *** C4 *)

(** A failed pole that is not yet due for repair goes through a step
    unchanged but for the weather data, the degradation and the
    accumulators. *)
Lemma failed_step h t0 cs p c :
  config p = Some c -> pole_status p = PS_FAILED -> recalc p = false ->
  repair_due h p = false ->
  exists p',
    step sin cos PI h t0 cs p = Some (p', TS_NEVER) /\
    config p' = Some c /\ pole_status p' = PS_FAILED /\ recalc p' = false /\
    down_time p' = down_time p /\ repair_time p' = repair_time p.
Proof.
  intros C F R D.
  assert (W : wind_changed h p = false) by (unfold wind_changed; now rewrite F).
  destruct (step_quiet h t0 cs p c C D W R) as (_ & S).
  destruct (refreshed_frame h t0 c p) as (Q1 & Q2 & Q3 & Q4 & Q5 & _).
  destruct (collaborate_fields cs (refreshed c h t0 p))
    as (K1 & K2 & K3 & K4 & K5 & _).
  eexists. split; [exact S|]. repeat split; congruence.
Qed.




End StepProperties.

(** ** The gust input *)

Section Gusts.

Variables (sin cos : double -> double) (PI : double).

(** What the erasure keeps. *)
Lemma without_gusts_fields p :
  let q := without_gusts p in
  config q = config p /\ pole_status q = pole_status p /\
  repair_time q = repair_time p /\ down_time q = down_time p /\
  last_wind_speed q = last_wind_speed p /\
  wind_speed_ref q = wind_speed_ref p /\ wind_speed q = wind_speed p /\
  wind_direction_ref q = wind_direction_ref p /\
  wind_direction q = wind_direction p /\
  pole_moment q = pole_moment p /\ total_moment q = total_moment p /\
  resisting_moment q = resisting_moment p /\ pole_stress q = pole_stress p /\
  susceptibility q = susceptibility p /\
  critical_wind_speed q = critical_wind_speed p.
Proof. destruct_pole p; cbn. repeat split. Qed.

(** Each stage of a step commutes with the erasure of the gust field. *)
Lemma without_gusts_read_weather h p :
  without_gusts (read_weather h p) =
  (without_gusts p) <| wind_speed := observed_wind_speed h p |>
                    <| wind_direction := observed_wind_direction h p |>.
Proof. reflexivity. Qed.

Lemma without_gusts_reset_commit p :
  without_gusts (reset_commit_accumulators p) =
  reset_commit_accumulators (without_gusts p).
Proof. destruct_pole p; reflexivity. Qed.

Lemma without_gusts_degrade c t0 p :
  without_gusts (degrade c t0 p) = degrade c t0 (without_gusts p).
Proof. reflexivity. Qed.

Lemma observed_agree h1 h2 p1 p2 :
  without_gusts p1 = without_gusts p2 -> agree_but_gusts h1 h2 p1 ->
  observed_wind_speed h1 p1 = observed_wind_speed h2 p2 /\
  observed_wind_direction h1 p1 = observed_wind_direction h2 p2.
Proof.
  intros E (_ & _ & A1 & A2).
  destruct (without_gusts_fields p1) as (_ & _ & _ & _ & _ & S1 & S2 & D1 & D2 & _).
  destruct (without_gusts_fields p2) as (_ & _ & _ & _ & _ & S1' & S2' & D1' & D2' & _).
  cbv zeta in *. rewrite E in S1, S2, D1, D2.
  unfold observed_wind_speed, observed_wind_direction.
  rewrite <- S1, S1', <- S2, S2', <- D1, D1', <- D2, D2'.
  assert (A1' : forall r, wind_speed_ref p2 = Some r -> get_double h1 r = get_double h2 r).
  { intros r H. apply A1. congruence. }
  assert (A2' : forall r, wind_direction_ref p2 = Some r -> get_double h1 r = get_double h2 r).
  { intros r H. apply A2. congruence. }
  destruct (wind_speed_ref p2); destruct (wind_direction_ref p2); split; auto.
Qed.

Lemma observed_reset_commit h p :
  observed_wind_speed h (reset_commit_accumulators p) = observed_wind_speed h p /\
  observed_wind_direction h (reset_commit_accumulators p) = observed_wind_direction h p.
Proof. destruct_pole p; split; reflexivity. Qed.

Lemma without_gusts_refreshed c h1 h2 t0 p1 p2 :
  without_gusts p1 = without_gusts p2 -> agree_but_gusts h1 h2 p1 ->
  without_gusts (refreshed c h1 t0 p1) = without_gusts (refreshed c h2 t0 p2).
Proof.
  intros E A. unfold refreshed.
  destruct (observed_agree h1 h2 p1 p2 E A) as (S & D).
  destruct (observed_reset_commit h1 p1) as (S1 & D1).
  destruct (observed_reset_commit h2 p2) as (S2 & D2).
  rewrite !without_gusts_degrade, !without_gusts_read_weather,
    !without_gusts_reset_commit.
  now rewrite S1, D1, S2, D2, S, D, E.
Qed.

Lemma without_gusts_triggers h1 h2 p1 p2 :
  without_gusts p1 = without_gusts p2 -> agree_but_gusts h1 h2 p1 ->
  config p1 = config p2 /\
  repair_due h1 p1 = repair_due h2 p2 /\
  wind_changed h1 p1 = wind_changed h2 p2.
Proof.
  intros E A.
  destruct (observed_agree h1 h2 p1 p2 E A) as (S & _).
  destruct A as (A0 & _).
  destruct (without_gusts_fields p1) as (C1 & P1 & R1 & T1 & L1 & _).
  destruct (without_gusts_fields p2) as (C2 & P2 & R2 & T2 & L2 & _).
  cbv zeta in *. rewrite E in C1, P1, R1, T1, L1.
  unfold repair_due, wind_changed, hours_down.
  rewrite S, A0.
  rewrite <- C1, C2, <- P1, P2, <- R1, R2, <- T1, T2, <- L1, L2.
  repeat split.
Qed.

Lemma without_gusts_repair t0 q :
  without_gusts (repair t0 q) = repair t0 (without_gusts q).
Proof. destruct_pole q; reflexivity. Qed.

Lemma without_gusts_wind_update c q :
  without_gusts (wind_update sin cos PI c q) =
  wind_update sin cos PI c (without_gusts q).
Proof. destruct_pole q; reflexivity. Qed.

Lemma without_gusts_presync q t0 :
  without_gusts (fst (presync q t0)) = fst (presync (without_gusts q) t0).
Proof. unfold presync. destruct_pole q; cbn. destruct recalc'; reflexivity. Qed.

Lemma without_gusts_collaborate cs : forall q,
  without_gusts (collaborate cs q) = collaborate cs (without_gusts q).
Proof.
  unfold collaborate.
  induction cs as [|c cs IH]; intros q; [reflexivity|].
  cbn [fold_left]. now rewrite IH.
Qed.

Lemma without_gusts_postsync h1 h2 q t0 :
  gl_globalclock h1 = gl_globalclock h2 ->
  stop_on_pole_failure h1 = stop_on_pole_failure h2 ->
  without_gusts (fst (postsync h1 q t0)) = fst (postsync h2 (without_gusts q) t0) /\
  snd (postsync h1 q t0) = snd (postsync h2 (without_gusts q) t0).
Proof.
  intros A0 A1. unfold postsync. destruct_pole q; cbn.
  destruct recalc'; cbn; rewrite ?A0, ?A1; split; reflexivity.
Qed.

(** Precommit on two poles that differ in the gust field only. *)
Lemma without_gusts_precommit h1 h2 t0 p1 p2 :
  without_gusts p1 = without_gusts p2 -> agree_but_gusts h1 h2 p1 ->
  match precommit sin cos PI h1 p1 t0, precommit sin cos PI h2 p2 t0 with
  | Some (q1, _), Some (q2, _) => without_gusts q1 = without_gusts q2
  | None, None => True
  | _, _ => False
  end.
Proof.
  intros E A. rewrite !precommit_eq.
  destruct (without_gusts_triggers h1 h2 p1 p2 E A) as (C & D & W).
  rewrite <- C, <- D, <- W.
  destruct (config p1) as [c|]; [|exact I]. cbv zeta.
  pose proof (without_gusts_refreshed c h1 h2 t0 p1 p2 E A) as Q.
  destruct (repair_due h1 p1).
  - now rewrite !without_gusts_repair, Q.
  - destruct (wind_changed h1 p1); [|exact Q].
    now rewrite !without_gusts_wind_update, Q.
Qed.

(** C10: the gust input reaches no derived quantity. Two steps run on poles
    that differ at most in [wind_gusts], by hosts that differ at most in what
    the weather's gust property reads, both fail on a null configuration or
    both succeed, and then the two poles still differ at most in
    [wind_gusts]: they hold the same pole moment, total moment, resisting
    moment, stress, susceptibility, critical wind speed and status, and the
    two steps return the same time stamp. *)
Theorem gusts_do_not_interfere h1 h2 t0 cs p1 p2 :
  without_gusts p1 = without_gusts p2 ->
  agree_but_gusts h1 h2 p1 ->
  match step sin cos PI h1 t0 cs p1, step sin cos PI h2 t0 cs p2 with
  | Some (q1, e1), Some (q2, e2) =>
      without_gusts q1 = without_gusts q2 /\
      pole_moment q1 = pole_moment q2 /\
      total_moment q1 = total_moment q2 /\
      resisting_moment q1 = resisting_moment q2 /\
      pole_stress q1 = pole_stress q2 /\
      susceptibility q1 = susceptibility q2 /\
      critical_wind_speed q1 = critical_wind_speed q2 /\
      pole_status q1 = pole_status q2 /\
      e1 = e2
  | None, None => True
  | _, _ => False
  end.
Proof.
  intros E A. rewrite !step_eq.
  pose proof (without_gusts_precommit h1 h2 t0 p1 p2 E A) as P.
  destruct A as (A0 & A1 & _).
  destruct (precommit sin cos PI h1 p1 t0) as [[q1 e1]|],
           (precommit sin cos PI h2 p2 t0) as [[q2 e2]|]; try contradiction;
    [|exact I].
  set (r1 := collaborate cs (fst (presync q1 t0))).
  set (r2 := collaborate cs (fst (presync q2 t0))).
  assert (R : without_gusts r1 = without_gusts r2).
  { unfold r1, r2. now rewrite !without_gusts_collaborate, !without_gusts_presync, P. }
  destruct (without_gusts_postsync h1 h1 r1 t0 eq_refl eq_refl) as (F1 & S1).
  destruct (without_gusts_postsync h2 h1 r2 t0) as (F2 & S2); try congruence.
  destruct (postsync h1 r1 t0) as [s1 n1] eqn:E1.
  destruct (postsync h2 r2 t0) as [s2 n2] eqn:E2.
  cbn [fst snd] in *.
  assert (Q : without_gusts s1 = without_gusts s2) by congruence.
  destruct (without_gusts_fields s1)
    as (_ & B1 & _ & _ & _ & _ & _ & _ & _ & B2 & B3 & B4 & B5 & B6 & B7).
  destruct (without_gusts_fields s2)
    as (_ & G1 & _ & _ & _ & _ & _ & _ & _ & G2 & G3 & G4 & G5 & G6 & G7).
  cbv zeta in *. rewrite Q in B1, B2, B3, B4, B5, B6, B7.
  repeat split; congruence.
Qed.

End Gusts.

(** ** Concrete runs *)

(** The year the source derives from the clock 1600000000, both ways. *)
Example year_of_1600000000 :
  year_int 1600000000 = 2020%Z /\ year_uint 1600000000 = 2020%Z.
Proof. vm_compute. split; reflexivity. Qed.

(** C2 as stated fails on a reachable pole: [loaded_1970] is initialised and
    taken through a step of the year 2020 in still air. Fifty years of
    degradation leave a hollow wider than the pole, the wind-change trigger
    does not fire, and the resisting moment is negative after precommit and
    at the end of the step, with the status OK. *)
Lemma degraded_pole_keeps_negative_moment :
  init quiet_host loaded_1970 = init_return 1 initialised_1970 /\
  pole_status initialised_1970 = PS_OK /\
  wind_changed quiet_host initialised_1970 = false /\
  match precommit sin_at_zero cos_at_zero PI_value quiet_host initialised_1970
          1600000000 with
  | Some (p1, _) => (resisting_moment p1 <? 0) = true
  | None => False
  end /\
  match step sin_at_zero cos_at_zero PI_value quiet_host 1600000000 []
          initialised_1970 with
  | Some (p', _) => (resisting_moment p' <? 0) = true /\ pole_status p' = PS_OK
  | None => False
  end.
Proof. vm_compute. repeat split. Qed.

Lemma resisting_moment_clamped_on_wind_change_witness :
  config windy_pole = Some wooden /\
  wind_changed quiet_host windy_pole = true /\
  (resisting_moment (refreshed wooden quiet_host 1600000000 windy_pole) <? 0) = true /\
  exists p1 p' e,
    precommit sin_at_zero cos_at_zero PI_value quiet_host windy_pole 1600000000
      = Some (p1, TS_NEVER) /\
    resisting_moment p1 = 0 /\
    (resisting_moment p1 <? 0) = false /\
    step sin_at_zero cos_at_zero PI_value quiet_host 1600000000 [] windy_pole
      = Some (p', e) /\
    resisting_moment p' = resisting_moment p1.
Proof.
  assert (B : (resisting_moment (refreshed wooden quiet_host 1600000000 windy_pole) <? 0)
              = true) by (vm_compute; reflexivity).
  split; [reflexivity|]. split; [reflexivity|]. split; [exact B|].
  destruct (proj1 (proj2 (resisting_moment_clamped_on_wind_change
                     sin_at_zero cos_at_zero PI_value quiet_host 1600000000 []
                     windy_pole wooden eq_refl)) eq_refl)
    as (p1 & p' & e & H1 & _ & H0 & _ & H2 & _ & H3 & _ & H4).
  exists p1, p', e. repeat split; try assumption. exact (H0 B).
Defined.


Lemma wind_moment_is_reset_witness :
  config windy_pole = Some wooden /\
  wind_changed quiet_host windy_pole = true /\
  exists p1,
    precommit sin_at_zero cos_at_zero PI_value quiet_host windy_pole 1600000000
      = Some (p1, TS_NEVER) /\
    pole_moment (collaborate [transformer] (fst (presync p1 1600000000))) = 0 + 0 /\
    total_moment
      (fst (postsync quiet_host
              (collaborate [transformer] (fst (presync p1 1600000000)))
              1600000000)) = 0 + 0 + (0 + 1200) + (0 + 0) + (0 + 0).
Proof.
  split; [reflexivity|]. split; [reflexivity|].
  destruct (wind_moment_is_reset sin_at_zero cos_at_zero PI_value quiet_host
              1600000000 [transformer] windy_pole wooden eq_refl eq_refl)
    as (p1 & H1 & _ & _ & H2 & _ & _ & H3).
  exists p1. repeat split; assumption.
Defined.

Lemma gusts_do_not_interfere_witness :
  without_gusts windy_pole = without_gusts gusty_pole /\
  agree_but_gusts quiet_host quiet_host windy_pole /\
  match step sin_at_zero cos_at_zero PI_value quiet_host 1600000000 [transformer]
          windy_pole,
        step sin_at_zero cos_at_zero PI_value quiet_host 1600000000 [transformer]
          gusty_pole with
  | Some (q1, e1), Some (q2, e2) =>
      without_gusts q1 = without_gusts q2 /\
      pole_moment q1 = pole_moment q2 /\
      total_moment q1 = total_moment q2 /\
      resisting_moment q1 = resisting_moment q2 /\
      pole_stress q1 = pole_stress q2 /\
      susceptibility q1 = susceptibility q2 /\
      critical_wind_speed q1 = critical_wind_speed q2 /\
      pole_status q1 = pole_status q2 /\
      e1 = e2
  | None, None => True
  | _, _ => False
  end.
Proof.
  assert (A : agree_but_gusts quiet_host quiet_host windy_pole)
    by (repeat split).
  split; [reflexivity|]. split; [exact A|].
  exact (gusts_do_not_interfere sin_at_zero cos_at_zero PI_value
           quiet_host quiet_host 1600000000 [transformer]
           windy_pole gusty_pole eq_refl A).
Defined.

(** ** Degradation *)

(** The hollow diameter after the degradation update, for a positive rate. *)
Lemma hollow_diameter_update c h t p :
  (0 <? degradation_rate c) = true ->
  current_hollow_diameter (refreshed c h t p) =
    (if 0 <? age_at t p then 2 * age_at t p * degradation_rate c
     else current_hollow_diameter p).
Proof.
  intros R. rewrite (proj1 (refreshed_degradation h t c p)), R.
  now rewrite andb_true_r.
Qed.

(** *** C5 *)

(** C5 as stated fails on a reachable pole: [windy_pole] fails in 2020 and is
    repaired a day later, which moves its install year to 2020 and leaves the
    hollow diameter of fifty years of degradation. At a later step of 2020
    the age is 0 and the update keeps that diameter, 25; at the step of 2021
    the age is 1 and the update assigns 0.5: the age has grown and the
    hollow diameter has shrunk, at the constant rate 0.25. *)
Lemma repaired_pole_hollow_diameter_shrinks :
  run sin_at_zero cos_at_zero PI_value
      [(quiet_host, 1600000000%Z, []); (day_later_host, 1600090000%Z, [])]
      windy_pole = Some repaired_2020 /\
  config repaired_2020 = Some wooden /\
  (0 <? degradation_rate wooden) = true /\
  match step sin_at_zero cos_at_zero PI_value same_year_host 1600100000 []
          repaired_2020 with
  | Some (p3, _) =>
      age_at 1600100000 repaired_2020 = 0 /\
      current_hollow_diameter p3 = 25 /\
      age_at 1640000000 p3 = 1 /\
      match precommit sin_at_zero cos_at_zero PI_value next_year_host p3
              1640000000 with
      | Some (p4, _) => current_hollow_diameter p4 = 0.5
      | None => False
      end
  | None => False
  end.
Proof. vm_compute. repeat split. Qed.

(** C5, amended: in the degradation update of precommit with a positive,
    finite degradation rate, the hollow diameter becomes 2 x age x rate when
    the age is positive and keeps its previous value otherwise; between two
    updates with positive ages it does not decrease as the age increases;
    the resisting moment is recomputed as
    0.008186 x strength_factor x fiber_strength x
    (ground_diameter^3 - hollow_diameter^3), and, for a positive finite
    strength coefficient, a finite ground diameter cubed and hollow diameters
    that are not negative, it does not increase as the hollow diameter
    increases. *)
Theorem degradation_is_monotone
    (c : pole_configuration) (h1 h2 : host) (t1 t2 : TIMESTAMP) (p1 p2 : pole) :
  finite_positive (degradation_rate c) = true ->
  let K := 0.008186 * strength_factor_250b_wood c * fiber_strength c in
  let G := ground_diameter c * ground_diameter c * ground_diameter c in
  let q1 := refreshed c h1 t1 p1 in
  let q2 := refreshed c h2 t2 p2 in
  current_hollow_diameter q1 =
    (if 0 <? age_at t1 p1 then 2 * age_at t1 p1 * degradation_rate c
     else current_hollow_diameter p1) /\
  ((0 <? age_at t1 p1) = true -> (age_at t1 p1 <=? age_at t2 p2) = true ->
   (current_hollow_diameter q1 <=? current_hollow_diameter q2) = true) /\
  resisting_moment q1 =
    K * (G - current_hollow_diameter q1 * current_hollow_diameter q1
             * current_hollow_diameter q1) /\
  (finite_positive K = true -> finite G = true ->
   (0 <=? current_hollow_diameter q1) = true ->
   (current_hollow_diameter q1 <=? current_hollow_diameter q2) = true ->
   (resisting_moment q2 <=? resisting_moment q1) = true).
Proof.
  intros R K G q1 q2.
  assert (R0 : (0 <? degradation_rate c) = true).
  { unfold finite_positive in R. now apply andb_true_iff in R. }
  split; [now apply hollow_diameter_update|].
  split.
  { intros A1 A12. unfold q1, q2.
    rewrite !hollow_diameter_update by exact R0.
    rewrite A1, (FloatArith.ltb_leb_trans_zero _ _ A1 A12).
    now apply FloatArith.hollow_mono. }
  split; [exact (proj2 (refreshed_degradation h1 t1 c p1))|].
  intros HK HG H1 H12. unfold q1, q2.
  rewrite (proj2 (refreshed_degradation h1 t1 c p1)).
  rewrite (proj2 (refreshed_degradation h2 t2 c p2)).
  now apply FloatArith.moment_antitone.
Qed.

Lemma degradation_is_monotone_witness :
  let q1 := refreshed wooden quiet_host 1600000000 decade_old_pole in
  let q2 := refreshed wooden next_year_host 1640000000 decade_old_pole in
  finite_positive (degradation_rate wooden) = true /\
  (0 <? age_at 1600000000 decade_old_pole) = true /\
  (age_at 1600000000 decade_old_pole <=? age_at 1640000000 decade_old_pole) = true /\
  finite_positive
    (0.008186 * strength_factor_250b_wood wooden * fiber_strength wooden) = true /\
  finite (ground_diameter wooden * ground_diameter wooden * ground_diameter wooden)
    = true /\
  (0 <=? current_hollow_diameter q1) = true /\
  (current_hollow_diameter q1 <=? current_hollow_diameter q2) = true /\
  (resisting_moment q2 <=? resisting_moment q1) = true.
Proof.
  intros q1 q2.
  destruct (degradation_is_monotone wooden quiet_host next_year_host
              1600000000 1640000000 decade_old_pole decade_old_pole eq_refl)
    as (_ & A & _ & B).
  pose proof (A eq_refl eq_refl) as A'.
  pose proof (B eq_refl eq_refl eq_refl A') as B'.
  repeat split; assumption.
Defined.

(** * Further properties of the handlers

    What the source shows of the handlers beyond the properties above: the
    life cycle of the object, the weather binding, the triggers of precommit,
    the fields each handler leaves alone, and the integer arithmetic that
    precommit and postsync carry out in [double]. *)

(** ** Integers in binary64 arithmetic

    The years, the hours and the seconds of the handlers are integers held
    in [double]: below 2^53 their differences, products and exact quotients
    are exact, and the integer part of a quotient is bounded by the
    dividend. *)

Module ExactIntegers.

Import Rounding64.

#[local] Open Scope Z_scope.
#[local] Arguments Z.mul : simpl never.
#[local] Arguments Z.pow : simpl never.
#[local] Arguments Z.sub : simpl never.
#[local] Arguments Z.add : simpl never.

Lemma Zdigits2_le_53 a : 0 < a < 2 ^ 53 -> 0 < Zdigits2 a <= 53.
Proof.
  intros [P U]. split; [now apply Zdigits2_pos|].
  destruct (Z_le_gt_dec (Zdigits2 a) 53) as [L|G]; [exact L|].
  pose proof (Zdigits2_bounds a P) as [B _].
  assert (2 ^ 53 <= 2 ^ (Zdigits2 a - 1)) by (apply Z.pow_le_mono_r; lia).
  lia.
Qed.

(** The mantissa of [integer_float]. *)
Lemma shifted_mantissa a :
  0 < a < 2 ^ 53 ->
  0 < a * 2 ^ (53 - Zdigits2 a) /\
  Zdigits2 (a * 2 ^ (53 - Zdigits2 a)) = 53.
Proof.
  intros H. pose proof (Zdigits2_le_53 a H) as D.
  split.
  - apply Z.mul_pos_pos; [lia|apply pow2_pos; lia].
  - rewrite Zdigits2_mul_pow2 by lia. lia.
Qed.

Lemma integer_float_valid n :
  Z.abs n < 2 ^ 53 -> valid_binary (integer_float n) = true.
Proof.
  intros H. destruct n as [|p|p]; [reflexivity| |];
    unfold integer_float; cbv zeta.
  all: set (a := Z.abs _) in *.
  all: assert (A : 0 < a < 2 ^ 53) by (unfold a in *; cbn [Z.abs] in *; lia).
  all: destruct (shifted_mantissa a A) as (P & D).
  all: pose proof (Zdigits2_le_53 a A) as Da.
  all: unfold valid_binary, SpecFloat.valid_binary, bounded, canonical_mantissa.
  all: apply andb_true_iff; split; [apply Z.eqb_eq|apply Z.leb_le].
  all: try (change (emax - prec) with 971; lia).
  all: change (Z.pos (digits2_pos (Z.to_pos (a * 2 ^ (53 - Zdigits2 a)))))
         with (Zdigits2 (Z.pos (Z.to_pos (a * 2 ^ (53 - Zdigits2 a))))).
  all: rewrite Z2Pos.id by exact P.
  all: rewrite D; unfold fexp, SpecFloat.emin.
  all: change prec with 53; change emax with 1024; lia.
Qed.

Lemma integer_float_sval n :
  Z.abs n < 2 ^ 53 -> sval (integer_float n) = n * 2 ^ 1074.
Proof.
  intros H. destruct n as [|p|p]; [reflexivity| |];
    unfold integer_float; cbv zeta; cbn [sval].
  all: set (a := Z.abs _) in *.
  all: assert (A : 0 < a < 2 ^ 53) by (unfold a in *; cbn [Z.abs] in *; lia).
  all: destruct (shifted_mantissa a A) as (P & D).
  all: pose proof (Zdigits2_le_53 a A) as Da.
  all: rewrite Z2Pos.id by exact P.
  all: rewrite emin64_value.
  all: rewrite <- Z.mul_assoc, <- Z.pow_add_r by lia.
  all: replace (53 - Zdigits2 a + (Zdigits2 a - 53 - -1074)) with 1074 by lia.
  - change (Z.pos p <? 0) with false. cbn [cond_Zopp]. reflexivity.
  - change (Z.neg p <? 0) with true. cbn [cond_Zopp].
    unfold a. cbn [Z.abs]. lia.
Qed.

(** The integers below 2^53 in magnitude are representable. *)
Lemma nearest_integer n :
  Z.abs n < 2 ^ 53 -> nearest emin64 (n * 2 ^ 1074) = integer_float n.
Proof.
  intros H. rewrite <- (integer_float_sval n H).
  pose proof (integer_float_valid n H) as V.
  destruct n as [|p|p]; [reflexivity| |]; unfold integer_float in *; cbv zeta in *;
    now apply nearest_sval.
Qed.

Lemma binary_normalize_integer n :
  Z.abs n < 2 ^ 53 -> binary_normalize prec emax n 0 false = integer_float n.
Proof.
  intros H. rewrite (binary_normalize_nearest n 0 emin64).
  - rewrite emin64_value. change (0 - -1074) with 1074. now apply nearest_integer.
  - rewrite emin64_value. lia.
  - lia.
Qed.

Lemma Z2F_spec n : Z.abs n < 2 ^ 53 -> Prim2SF (Z2F n) = integer_float n.
Proof.
  intros H. unfold Z2F. rewrite binary_normalize_integer by exact H.
  apply Prim2SF_SF2Prim. now apply integer_float_valid.
Qed.

Lemma integer_float_shape n :
  finite_or_zero (integer_float n) = true /\ integer_float n <> S754_nan.
Proof. destruct n; split; (reflexivity || discriminate). Qed.

(** Comparing two such numbers compares the integers. *)
Lemma SFcompare_integer a b :
  Z.abs a < 2 ^ 53 -> Z.abs b < 2 ^ 53 ->
  SFcompare (integer_float a) (integer_float b) = Some (a ?= b).
Proof.
  intros Ha Hb.
  pose proof (integer_float_valid a Ha) as Va.
  pose proof (integer_float_valid b Hb) as Vb.
  destruct (integer_float_shape a) as (Fa & Na).
  destruct (integer_float_shape b) as (Fb & Nb).
  pose proof (SFleb_sval _ _ Va Vb Fa Fb) as L1.
  pose proof (SFleb_sval _ _ Vb Va Fb Fa) as L2.
  rewrite !integer_float_sval in L1, L2 by assumption.
  unfold SFleb in L1, L2.
  rewrite (FloatOrder.SFcompare_antisym (integer_float a) (integer_float b)) in L2.
  assert (P : 0 < 2 ^ 1074) by (apply pow2_pos; lia).
  destruct (Z.compare_spec a b) as [E|E|E].
  - subst b. now apply FloatOrder.SFcompare_refl.
  - destruct (SFcompare (integer_float a) (integer_float b)) as [[ | | ]|] eqn:C;
      cbn [option_map CompOpp] in L2.
    + specialize (L2 eq_refl). nia.
    + reflexivity.
    + specialize (L2 eq_refl). nia.
    + apply FloatOrder.SFcompare_none in C. tauto.
  - destruct (SFcompare (integer_float a) (integer_float b)) as [[ | | ]|] eqn:C;
      cbn [option_map CompOpp] in L2.
    + specialize (L1 eq_refl). nia.
    + specialize (L1 eq_refl). nia.
    + reflexivity.
    + apply FloatOrder.SFcompare_none in C. tauto.
Qed.

#[local] Open Scope float_scope.

Lemma Z2F_ltb a b :
  (Z.abs a < 2 ^ 53)%Z -> (Z.abs b < 2 ^ 53)%Z -> (Z2F a <? Z2F b) = (a <? b)%Z.
Proof.
  intros Ha Hb. rewrite ltb_spec, !Z2F_spec by assumption.
  unfold SFltb, Z.ltb. rewrite SFcompare_integer by assumption.
  now destruct (a ?= b)%Z.
Qed.

Lemma Z2F_leb a b :
  (Z.abs a < 2 ^ 53)%Z -> (Z.abs b < 2 ^ 53)%Z -> (Z2F a <=? Z2F b) = (a <=? b)%Z.
Proof.
  intros Ha Hb. rewrite leb_spec, !Z2F_spec by assumption.
  unfold SFleb, Z.leb. rewrite SFcompare_integer by assumption.
  now destruct (a ?= b)%Z.
Qed.

Lemma Z2F_eqb a b :
  (Z.abs a < 2 ^ 53)%Z -> (Z.abs b < 2 ^ 53)%Z -> (Z2F a =? Z2F b) = (a =? b)%Z.
Proof.
  intros Ha Hb. rewrite eqb_spec, !Z2F_spec by assumption.
  unfold SFeqb. rewrite SFcompare_integer by assumption.
  destruct (Z.eqb_spec a b) as [->|N]; [now rewrite Z.compare_refl|].
  destruct (Z.compare_spec a b); [contradiction|reflexivity..].
Qed.

(** The difference of two integers is exact. *)
Lemma Z2F_sub a b :
  (Z.abs a < 2 ^ 53)%Z -> (Z.abs b < 2 ^ 53)%Z -> (Z.abs (a - b) < 2 ^ 53)%Z ->
  Z2F a - Z2F b = Z2F (a - b).
Proof.
  intros Ha Hb Hd. apply Prim2SF_inj.
  rewrite sub_spec, !Z2F_spec by assumption.
  pose proof (integer_float_valid a Ha) as Va.
  pose proof (integer_float_valid b Hb) as Vb.
  destruct (integer_float_shape a) as (Fa & _).
  destruct (integer_float_shape b) as (Fb & _).
  pose proof (SFsub_nearest _ _ Va Vb Fa Fb) as S.
  rewrite !integer_float_sval in S by assumption.
  rewrite <- Z.mul_sub_distr_r, nearest_integer in S by assumption.
  destruct S as [S|(s1 & s2 & S1 & S2)]; [exact S|].
  (* both sides are zeros: the subtraction returns the positive one *)
  unfold SF64sub in *.
  assert (E : (a - b = 0)%Z)
    by (destruct (a - b)%Z; [reflexivity|discriminate..]).
  clear S1 S2. rewrite E. assert (b = a) by lia. subst b.
  destruct a as [|pa|pa]; [reflexivity| |];
    unfold integer_float; cbv zeta; cbn [SFsub];
    change (IntDef.Z.min ?x ?y) with (Z.min x y);
    rewrite Z.min_id, shl_align_value by lia;
    now rewrite Z.sub_diag.
Qed.

#[local] Open Scope Z_scope.

Lemma nearest_pos sigma d :
  0 < d -> nearest sigma d = encode sigma false (round_to_grid sigma d).
Proof. intros H. destruct d; try lia. reflexivity. Qed.

(** The rounding does not depend on the unit. *)
Lemma nearest_rescale d j :
  0 < d -> 0 <= j -> nearest (emin64 - j) (d * 2 ^ j) = nearest emin64 d.
Proof.
  intros D J.
  assert (P : 0 < d * 2 ^ j) by (apply Z.mul_pos_pos; [lia|apply pow2_pos; lia]).
  rewrite !nearest_pos by assumption.
  rewrite round_to_grid_rescale; try assumption.
  - apply encode_rescale; try assumption.
    + apply cexp_ge_emin.
    + apply round_to_grid_nonneg; [unfold emin64; lia|lia].
  - apply cexp_ge_emin.
Qed.

Lemma Zdigits2_mul_le x y : 0 < x -> 0 < y -> Zdigits2 (x * y) <= Zdigits2 x + Zdigits2 y.
Proof.
  intros X Y.
  pose proof (Zdigits2_bounds x X) as [_ Ux].
  pose proof (Zdigits2_bounds y Y) as [_ Uy].
  pose proof (Zdigits2_pos x X). pose proof (Zdigits2_pos y Y).
  assert (P : 0 < x * y) by nia.
  pose proof (Zdigits2_bounds (x * y) P) as [L _].
  destruct (Z_le_gt_dec (Zdigits2 (x * y)) (Zdigits2 x + Zdigits2 y)) as [?|G];
    [assumption|exfalso].
  assert (2 ^ (Zdigits2 x + Zdigits2 y) <= 2 ^ (Zdigits2 (x * y) - 1))
    by (apply Z.pow_le_mono_r; lia).
  rewrite Z.pow_add_r in * by lia. nia.
Qed.

#[local] Open Scope float_scope.


(** The integer part of an integer is the integer. *)
Lemma Ztrunc_Z2F n : (Z.abs n < 2 ^ 53)%Z -> Ztrunc (Z2F n) = Some n.
Proof.
  intros H. unfold Ztrunc. rewrite Z2F_spec by assumption.
  destruct n as [|p|p]; [reflexivity| |]; unfold integer_float; cbv zeta.
  all: set (a := Z.abs _) in *.
  all: assert (A : (0 < a < 2 ^ 53)%Z) by (unfold a in *; cbn [Z.abs] in *; lia).
  all: destruct (shifted_mantissa a A) as (P & D).
  all: pose proof (Zdigits2_le_53 a A) as Da.
  all: assert (E : (match (Zdigits2 a - 53)%Z with
                   | Z.neg k => Z.shiftr (Z.pos (Z.to_pos (a * 2 ^ (53 - Zdigits2 a)))) (Z.pos k)
                   | _ => Z.shiftl (Z.pos (Z.to_pos (a * 2 ^ (53 - Zdigits2 a)))) (Zdigits2 a - 53)
                   end = a)%Z).
  1,3: rewrite Z2Pos.id by exact P;
       destruct (Zdigits2 a - 53)%Z as [|k|k] eqn:K; try lia;
       [ rewrite Z.shiftl_0_r; replace (53 - Zdigits2 a)%Z with 0%Z by lia;
         change (2 ^ 0)%Z with 1%Z; lia
       | rewrite Z.shiftr_div_pow2 by lia;
         replace (53 - Zdigits2 a)%Z with (Z.pos k) by lia;
         apply Z.div_mul; apply Z.pow_nonzero; lia ].
  - rewrite E. reflexivity.
  - rewrite E. reflexivity.
Qed.

(** The product of two positive integers is exact. *)
Lemma Z2F_mul a b :
  (0 < a)%Z -> (0 < b)%Z -> (a * b < 2 ^ 53)%Z -> Z2F a * Z2F b = Z2F (a * b).
Proof.
  intros Pa Pb H.
  assert (Ha : (Z.abs a < 2 ^ 53)%Z) by (rewrite Z.abs_eq by lia; nia).
  assert (Hb : (Z.abs b < 2 ^ 53)%Z) by (rewrite Z.abs_eq by lia; nia).
  assert (Hab : (Z.abs (a * b) < 2 ^ 53)%Z) by (rewrite Z.abs_eq by nia; lia).
  apply Prim2SF_inj.
  rewrite mul_spec, !Z2F_spec by assumption.
  pose proof (integer_float_valid a Ha) as Va.
  pose proof (integer_float_valid b Hb) as Vb.
  pose proof (integer_float_sval a Ha) as Sa.
  pose proof (integer_float_sval b Hb) as Sb.
  rewrite <- (nearest_integer (a * b) Hab).
  destruct a as [|pa|pa], b as [|pb|pb]; try lia.
  unfold SF64mul. unfold integer_float in *. cbv zeta in *.
  rewrite SFmul_finite, Sa, Sb by assumption.
  set (u := (2 ^ 1074)%Z) in *.
  replace (Z.pos pa * u * (Z.pos pb * u))%Z
    with ((Z.pos pa * Z.pos pb * u) * u)%Z by ring.
  unfold u at 2.
  rewrite emin64_value.
  change (2 * -1074)%Z with (-1074 - 1074)%Z.
  rewrite <- emin64_value at 1. rewrite nearest_rescale; [|lia|lia].
  now rewrite emin64_value.
Qed.

(** The quotient of a multiple by its divisor is exact. *)
Lemma Z2F_div b k :
  (0 < b)%Z -> (0 < k)%Z -> (b * k < 2 ^ 53)%Z -> Z2F (b * k) / Z2F b = Z2F k.
Proof.
  intros Pb Pk H.
  assert (Hb : (Z.abs b < 2 ^ 53)%Z) by (rewrite Z.abs_eq by lia; nia).
  assert (Hk : (Z.abs k < 2 ^ 53)%Z) by (rewrite Z.abs_eq by lia; nia).
  assert (Ha : (Z.abs (b * k) < 2 ^ 53)%Z) by (rewrite Z.abs_eq by nia; lia).
  apply Prim2SF_inj.
  rewrite div_spec, !Z2F_spec by assumption.
  rewrite <- (nearest_integer k Hk).
  set (a := (b * k)%Z) in *.
  assert (Pa : (0 < a)%Z) by (unfold a; nia).
  assert (Aa : (0 < a < 2 ^ 53)%Z) by lia.
  assert (Ab : (0 < b < 2 ^ 53)%Z) by lia.
  assert (Ak : (0 < k < 2 ^ 53)%Z) by lia.
  destruct (shifted_mantissa a Aa) as (P1 & D1).
  destruct (shifted_mantissa b Ab) as (P2 & D2).
  pose proof (Zdigits2_le_53 a Aa) as Da.
  pose proof (Zdigits2_le_53 b Ab) as Db.
  pose proof (Zdigits2_le_53 k Ak) as Dk.
  pose proof (Zdigits2_mul_le b k Pb Pk) as Dm. fold a in Dm.
  assert (Ia : integer_float a =
               S754_finite false (Z.to_pos (a * 2 ^ (53 - Zdigits2 a))) (Zdigits2 a - 53)).
  { destruct a; try lia. reflexivity. }
  assert (Ib : integer_float b =
               S754_finite false (Z.to_pos (b * 2 ^ (53 - Zdigits2 b))) (Zdigits2 b - 53)).
  { destruct b; try lia. reflexivity. }
  rewrite Ia, Ib. unfold SF64div. cbn [SFdiv xorb].
  unfold SFdiv_core_binary.
  rewrite !Z2Pos.id by assumption. rewrite D1, D2.
  set (da := Zdigits2 a) in *. set (db := Zdigits2 b) in *. set (dk := Zdigits2 k) in *.
  replace (53 + (da - 53) - (53 + (db - 53)))%Z with (da - db)%Z by lia.
  replace (da - 53 - (db - 53))%Z with (da - db)%Z by lia.
  assert (E' : Z.min (fexp prec emax (da - db)) (da - db) = (da - db - 53)%Z).
  { unfold fexp, SpecFloat.emin. change prec with 53%Z. change emax with 1024%Z. lia. }
  rewrite E'.
  replace (da - db - (da - db - 53))%Z with 53%Z by lia.
  rewrite Z.shiftl_mul_pow2 by lia.
  assert (Q : (a * 2 ^ (53 - da) * 2 ^ 53
               = (b * 2 ^ (53 - db)) * (k * 2 ^ (53 - da + db)))%Z).
  { unfold a. replace (53 - da + db)%Z with ((53 - da) + db)%Z by lia.
    replace (2 ^ 53)%Z with (2 ^ (53 - db) * 2 ^ db)%Z
      by (rewrite <- Z.pow_add_r by lia; f_equal; lia).
    rewrite (Z.pow_add_r 2 (53 - da) db) by lia. ring. }
  assert (Pq : (0 < k * 2 ^ (53 - da + db))%Z)
    by (apply Z.mul_pos_pos; [lia|apply pow2_pos; lia]).
  assert (DE : Z.div_eucl (a * 2 ^ (53 - da) * 2 ^ 53) (b * 2 ^ (53 - db))
               = (k * 2 ^ (53 - da + db), 0)%Z).
  { rewrite Q.
    pose proof (Z.div_eucl_eq ((b * 2 ^ (53 - db)) * (k * 2 ^ (53 - da + db)))
                  (b * 2 ^ (53 - db)) ltac:(lia)) as EQ.
    pose proof (Z.mod_pos_bound ((b * 2 ^ (53 - db)) * (k * 2 ^ (53 - da + db)))
                  (b * 2 ^ (53 - db)) P2) as MB.
    unfold Z.modulo, Z.div in *.
    destruct (Z.div_eucl _ _) as [q r]. cbn [fst snd] in *.
    set (B := (b * 2 ^ (53 - db))%Z) in *.
    set (K := (k * 2 ^ (53 - da + db))%Z) in *.
    assert (R0 : r = 0%Z).
    { assert (B * (K - q) = r)%Z by lia.
      destruct (Z.eq_dec K q) as [->|N]; [lia|].
      assert (1 <= Z.abs (K - q))%Z by lia.
      assert (Z.abs (B * (K - q)) = B * Z.abs (K - q))%Z
        by (rewrite Z.abs_mul, (Z.abs_eq B) by lia; reflexivity).
      assert (B * 1 <= B * Z.abs (K - q))%Z by (apply Z.mul_le_mono_nonneg_l; lia).
      lia. }
    subst r. assert (q = K) by (apply (Z.mul_reg_l _ _ B); lia).
    subst q. reflexivity. }
  rewrite DE.
  replace (new_location (b * 2 ^ (53 - db)) 0) with loc_Exact
    by (unfold new_location, new_location_even, new_location_odd;
        now destruct (Z.even _)).
  destruct (k * 2 ^ (53 - da + db))%Z as [|q|q] eqn:EQ; try lia.
  rewrite (binary_round_aux_nearest _ _ _ emin64).
  - rewrite <- EQ, nearest_pos by lia. do 2 f_equal.
    rewrite emin64_value, <- Z.mul_assoc, <- Z.pow_add_r by lia.
    f_equal. f_equal. lia.
  - unfold cexp. rewrite <- EQ, Zdigits2_mul_pow2 by lia. fold dk.
    unfold fexp, SpecFloat.emin. change prec with 53%Z. change emax with 1024%Z. lia.
  - rewrite emin64_value. lia.
Qed.


End ExactIntegers.

Module Quotients.

Import Rounding64 ExactIntegers.

#[local] Open Scope Z_scope.
#[local] Arguments Z.mul : simpl never.
#[local] Arguments Z.pow : simpl never.
#[local] Arguments Z.sub : simpl never.
#[local] Arguments Z.add : simpl never.

Lemma loc_bits_range l : 0 <= loc_bits l <= 3.
Proof. destruct l as [|[ | | ]]; cbn; lia. Qed.

(** A mantissa with its location is the mantissa with two more bits, shifted
    twice. *)
Lemma shr_record_of_loc_double m l :
  0 <= m ->
  Nat.iter 2 shr_1 {| shr_m := 4 * m + loc_bits l; shr_r := false; shr_s := false |}
  = shr_record_of_loc m l.
Proof.
  intros M. change (Nat.iter 2 shr_1 ?x) with (shr_1 (shr_1 x)).
  assert (B := loc_bits_range l).
  assert (H : exists k j, loc_bits l = 2 * k + j /\ 0 <= k <= 1 /\ 0 <= j <= 1 /\
                          shr_record_of_loc m l =
                          {| shr_m := m; shr_r := Z.odd k; shr_s := Z.odd j |}).
  { destruct l as [|[ | | ]]; cbn [loc_bits shr_record_of_loc];
      [exists 0, 0|exists 1, 0|exists 0, 1|exists 1, 1]; repeat split; lia. }
  destruct H as (k & j & E & K & J & ->). rewrite E.
  rewrite shr_1_spec by lia.
  replace ((4 * m + (2 * k + j)) / 2) with (2 * m + k)
    by (apply Z.div_unique with j; lia).
  rewrite shr_1_spec by lia.
  replace ((2 * m + k) / 2) with m by (apply Z.div_unique with k; lia).
  replace (4 * m + (2 * k + j)) with (j + 2 * (2 * m + k)) by lia.
  replace (2 * m + k) with (k + 2 * m) by lia.
  rewrite !Z.odd_add_mul_2. cbn [orb]. now rewrite orb_false_r.
Qed.

Lemma Zdigits2_two_more m b :
  0 < m -> 0 <= b <= 3 -> Zdigits2 (4 * m + b) = Zdigits2 m + 2.
Proof.
  intros M B. pose proof (Zdigits2_bounds m M) as [L U].
  pose proof (Zdigits2_pos m M) as P.
  apply Zdigits2_unique; [lia|].
  replace (Zdigits2 m + 2 - 1) with (2 + (Zdigits2 m - 1)) by lia.
  replace (Zdigits2 m + 2) with (2 + Zdigits2 m) by lia.
  rewrite !Z.pow_add_r by lia. change (2 ^ 2) with 4. lia.
Qed.

(** Rounding a mantissa with a location is rounding the mantissa with two
    more bits. *)
Lemma binary_round_aux_inexact s m e l :
  0 < m -> e <= cexp e m ->
  binary_round_aux prec emax s m e l =
  binary_round_aux prec emax s (4 * m + loc_bits l) (e - 2) loc_Exact.
Proof.
  intros M C. unfold binary_round_aux.
  assert (B := loc_bits_range l).
  assert (E : shr_fexp prec emax m e l
              = shr_fexp prec emax (4 * m + loc_bits l) (e - 2) loc_Exact).
  { unfold shr_fexp. rewrite Zdigits2_two_more by assumption.
    replace (Zdigits2 m + 2 + (e - 2)) with (Zdigits2 m + e) by lia.
    fold (cexp e m). set (c := cexp e m) in *.
    cbn [shr_record_of_loc]. unfold shr.
    destruct (c - (e - 2)) as [|p2|p2] eqn:E2; try lia.
    rewrite iter_pos_nat.
    replace (Pos.to_nat p2) with (Z.to_nat (c - e) + 2)%nat by lia.
    rewrite Nat.iter_add, shr_record_of_loc_double by lia.
    destruct (c - e) as [|p|p] eqn:E1; try lia.
    - cbn [Z.to_nat Nat.iter]. f_equal. lia.
    - rewrite iter_pos_nat. cbn [Z.to_nat]. f_equal. lia. }
  rewrite E. reflexivity.
Qed.

(** The quotient of a positive integer [Q] by a number of mantissa [m2] and
    exponent [e2], at least 1: the rounding of the integer quotient [q] of
    the aligned mantissas with the two bits [b] of its location. *)
Lemma SFdiv_integer_eq Q m2 e2 :
  0 < Q < 2 ^ 53 -> Zdigits2 (Zpos m2) = 53 -> -52 <= e2 <= 0 ->
  exists q r b,
    Q * 2 ^ (53 - Zdigits2 Q) * 2 ^ 53 = Zpos m2 * q + r /\
    0 <= r < Zpos m2 /\ 0 <= b <= 3 /\ (r = 0 -> b = 0) /\ 2 ^ 52 <= q /\
    SFdiv prec emax (integer_float Q) (S754_finite false m2 e2) =
    nearest emin64 ((4 * q + b) * 2 ^ (Zdigits2 Q - e2 + 966)).
Proof.
  intros HQ D2 E2.
  destruct (shifted_mantissa Q HQ) as (P1 & D1).
  pose proof (Zdigits2_le_53 Q HQ) as DQ.
  assert (IQ : integer_float Q =
               S754_finite false (Z.to_pos (Q * 2 ^ (53 - Zdigits2 Q))) (Zdigits2 Q - 53)).
  { destruct Q; try lia. reflexivity. }
  rewrite IQ. cbn [SFdiv xorb]. unfold SFdiv_core_binary.
  rewrite Z2Pos.id by assumption. rewrite D1, D2.
  set (L := Zdigits2 Q) in *.
  set (m1 := Q * 2 ^ (53 - L)) in *.
  replace (53 + (L - 53) - (53 + e2)) with (L - 53 - e2) by lia.
  assert (E' : Z.min (fexp prec emax (L - 53 - e2)) (L - 53 - e2) = L - 106 - e2).
  { unfold fexp, SpecFloat.emin. change prec with 53. change emax with 1024. lia. }
  rewrite E'. replace (L - 53 - e2 - (L - 106 - e2)) with 53 by lia.
  rewrite Z.shiftl_mul_pow2 by lia.
  set (e' := L - 106 - e2) in *.
  pose proof (Zdigits2_bounds (Z.pos m2) ltac:(lia)) as [L2 U2]. rewrite D2 in L2, U2.
  pose proof (Zdigits2_bounds m1 P1) as [Lm Um]. rewrite D1 in Lm, Um.
  change (2 ^ (53 - 1)) with (2 ^ 52) in *.
  pose proof (Z.div_eucl_eq (m1 * 2 ^ 53) (Z.pos m2) ltac:(lia)) as EQ.
  pose proof (Z.mod_pos_bound (m1 * 2 ^ 53) (Z.pos m2) ltac:(lia)) as MB.
  unfold Z.modulo in MB.
  destruct (Z.div_eucl (m1 * 2 ^ 53) (Z.pos m2)) as [q r]. cbn [fst snd] in *.
  exists q, r, (loc_bits (new_location (Z.pos m2) r)).
  split; [exact EQ|]. split; [exact MB|].
  split; [apply loc_bits_range|].
  split.
  { intros ->. unfold new_location, new_location_even, new_location_odd.
    now destruct (Z.even _). }
  set (T := 2 ^ 52) in *.
  assert (T53 : 2 ^ 53 = 2 * T) by reflexivity. rewrite T53 in *.
  assert (TP : 0 < T) by reflexivity.
  assert (Q1 : T <= q).
  { assert (T * (2 * T) <= Z.pos m2 * q + r) by nia.
    assert (Z.pos m2 * (T - 1) + r < T * (2 * T)) by nia.
    assert (Z.pos m2 * (T - 1) < Z.pos m2 * q) by lia.
    apply Z.mul_lt_mono_pos_l in H1; lia. }
  split; [exact Q1|].
  assert (Dq : 53 <= Zdigits2 q).
  { pose proof (Zdigits2_le T q ltac:(lia)). exact H. }
  clearbody T.
  assert (Pq : 0 < q) by lia.
  assert (Cq : e' <= cexp e' q).
  { unfold cexp, fexp, SpecFloat.emin. change prec with 53. change emax with 1024. lia. }
  rewrite (binary_round_aux_inexact false q e' _ Pq Cq).
  set (b := loc_bits (new_location (Z.pos m2) r)).
  assert (B : 0 <= b <= 3) by apply loc_bits_range.
  destruct (4 * q + b) as [|w|w] eqn:W; try lia.
  rewrite (binary_round_aux_nearest _ _ _ emin64).
  2:{ unfold cexp. rewrite <- W, Zdigits2_two_more by lia.
      unfold fexp, SpecFloat.emin. change prec with 53. change emax with 1024. lia. }
  2:{ rewrite emin64_value. unfold e'. lia. }
  rewrite <- W. rewrite emin64_value.
  replace (e' - 2 - -1074) with (L - e2 + 966) by (unfold e'; lia).
  assert (PE : 0 < 2 ^ (L - e2 + 966)) by (apply pow2_pos; lia).
  rewrite nearest_pos by (apply Z.mul_pos_pos; lia). reflexivity.
Qed.

(** Dividing by a number that is at least 2 gives a rounding of a value
    between zero and the integer. *)
Lemma SFdiv_integer Q m2 e2 :
  0 < Q < 2 ^ 53 -> Zdigits2 (Zpos m2) = 53 -> -51 <= e2 <= 0 ->
  exists V,
    SFdiv prec emax (integer_float Q) (S754_finite false m2 e2) = nearest emin64 V /\
    0 < V <= Q * 2 ^ 1074.
Proof.
  intros HQ D2 E2.
  destruct (SFdiv_integer_eq Q m2 e2 HQ D2 ltac:(lia))
    as (q & r & b & EQ & MB & B & _ & Q1 & R).
  destruct (shifted_mantissa Q HQ) as (P1 & D1).
  pose proof (Zdigits2_le_53 Q HQ) as DQ.
  set (L := Zdigits2 Q) in *.
  set (m1 := Q * 2 ^ (53 - L)) in *.
  pose proof (Zdigits2_bounds (Z.pos m2) ltac:(lia)) as [L2 U2]. rewrite D2 in L2, U2.
  change (2 ^ (53 - 1)) with (2 ^ 52) in *.
  set (T := 2 ^ 52) in *.
  assert (T53 : 2 ^ 53 = 2 * T) by reflexivity. rewrite T53 in *.
  assert (TP : 0 < T) by reflexivity. clearbody T.
  exists ((4 * q + b) * 2 ^ (L - e2 + 966)).
  assert (PE : 0 < 2 ^ (L - e2 + 966)) by (apply pow2_pos; lia).
  assert (PV : 0 < (4 * q + b) * 2 ^ (L - e2 + 966)) by (apply Z.mul_pos_pos; lia).
  split; [exact R|]. split; [exact PV|].
  replace 1074 with ((108 - L + e2) + (L - e2 + 966)) by lia.
  rewrite (Z.pow_add_r 2 (108 - L + e2) (L - e2 + 966)) by lia.
  rewrite Z.mul_assoc. apply Z.mul_le_mono_nonneg_r; [lia|].
  assert (Q2 : q * T <= m1 * (2 * T)).
  { assert (q * T <= q * Z.pos m2) by (apply Z.mul_le_mono_nonneg_l; lia). lia. }
  assert (Q3 : q <= 2 * m1)
    by (apply (Z.mul_le_mono_pos_r _ _ T); lia).
  replace (108 - L + e2) with ((53 - L) + (55 + e2)) by lia.
  rewrite (Z.pow_add_r 2 (53 - L) (55 + e2)), Z.mul_assoc by lia. fold m1.
  assert (16 <= 2 ^ (55 + e2)).
  { change 16 with (2 ^ 4). apply Z.pow_le_mono_r; lia. }
  assert (m1 * 16 <= m1 * 2 ^ (55 + e2)) by (apply Z.mul_le_mono_nonneg_l; lia).
  lia.
Qed.

End Quotients.

Module IntegerParts.

Import Rounding64 ExactIntegers Quotients.

#[local] Open Scope Z_scope.
#[local] Arguments Z.mul : simpl never.
#[local] Arguments Z.pow : simpl never.
#[local] Arguments Z.sub : simpl never.
#[local] Arguments Z.add : simpl never.

(** The integer part of a number between zero and an integer. *)
Lemma Ztrunc_bounded x Q :
  SFleb (S754_zero false) (Prim2SF x) = true ->
  SFleb (Prim2SF x) (integer_float Q) = true ->
  0 <= Q < 2 ^ 53 ->
  exists z, Ztrunc x = Some z /\ 0 <= z <= Q.
Proof.
  intros N L HQ. unfold Ztrunc.
  pose proof (Prim2SF_valid x) as V.
  assert (HQ' : Z.abs Q < 2 ^ 53) by (rewrite Z.abs_eq; lia).
  pose proof (integer_float_valid Q HQ') as VQ.
  destruct (integer_float_shape Q) as (FQ & _).
  destruct (nonneg_shape _ N) as [(s & E)|[E|(m & e & E)]]; rewrite E in *.
  - exists 0. split; [reflexivity|lia].
  - destruct (integer_float Q) as [?|?| |[|] ? ?]; discriminate.
  - pose proof (SFleb_sval _ _ V VQ eq_refl FQ L) as S.
    rewrite integer_float_sval in S by assumption.
    destruct (valid_finite _ _ _ V) as (_ & _ & Ee). rewrite emin64_value in Ee.
    cbn [sval cond_Zopp] in S. rewrite emin64_value in S.
    eexists. split; [reflexivity|].
    destruct e as [|pe|pe].
    + rewrite Z.shiftl_0_r.
      change (0 - -1074) with 1074 in S.
      assert (0 < 2 ^ 1074) by (apply pow2_pos; lia).
      split; [lia|]. apply (Z.mul_le_mono_pos_r _ _ (2 ^ 1074)); lia.
    + rewrite Z.shiftl_mul_pow2 by lia.
      assert (X : 2 ^ (Z.pos pe - -1074) = 2 ^ Z.pos pe * 2 ^ 1074)
        by (rewrite <- Z.pow_add_r by lia; f_equal; lia).
      rewrite X, Z.mul_assoc in S.
      assert (0 < 2 ^ 1074) by (apply pow2_pos; lia).
      assert (0 < 2 ^ Z.pos pe) by (apply pow2_pos; lia).
      split; [apply Z.mul_nonneg_nonneg; lia|].
      apply (Z.mul_le_mono_pos_r _ _ (2 ^ 1074)); lia.
    + rewrite Z.shiftr_div_pow2 by lia.
      assert (P : 0 < 2 ^ Z.pos pe) by (apply pow2_pos; lia).
      split; [apply Z.div_pos; lia|].
      assert (X : 2 ^ 1074 = 2 ^ Z.pos pe * 2 ^ (Z.neg pe - -1074))
        by (rewrite <- Z.pow_add_r by lia; f_equal; lia).
      rewrite X, Z.mul_assoc in S.
      assert (0 < 2 ^ (Z.neg pe - -1074)) by (apply pow2_pos; lia).
      assert (Z.pos m <= Q * 2 ^ Z.pos pe)
        by (apply (Z.mul_le_mono_pos_r _ _ (2 ^ (Z.neg pe - -1074))); lia).
      apply Z.div_le_upper_bound; lia.
Qed.

#[local] Open Scope float_scope.

(** The integer part of the quotient of a non-negative integer by a number
    that is at least 2 lies between zero and the integer. *)
Lemma Ztrunc_quotient Q y m2 e2 :
  (0 <= Q < 2 ^ 53)%Z ->
  Prim2SF y = S754_finite false m2 e2 ->
  Zdigits2 (Zpos m2) = 53%Z -> (-51 <= e2 <= 0)%Z ->
  exists z, Ztrunc (Z2F Q / y) = Some z /\ (0 <= z <= Q)%Z.
Proof.
  intros HQ Ey D2 E2.
  assert (HQ' : (Z.abs Q < 2 ^ 53)%Z) by (rewrite Z.abs_eq; lia).
  destruct (Z.eq_dec Q 0) as [->|NZ].
  - exists 0%Z. split; [|lia]. unfold Ztrunc.
    rewrite div_spec, Ey, Z2F_spec by assumption. reflexivity.
  - assert (PQ : (0 < Q < 2 ^ 53)%Z) by lia.
    destruct (SFdiv_integer Q m2 e2 PQ D2 E2) as (V & EV & PV & UV).
    assert (R : Prim2SF (Z2F Q / y) = nearest emin64 V).
    { rewrite div_spec, Ey, Z2F_spec by assumption. exact EV. }
    apply Ztrunc_bounded; [| |lia]; rewrite R.
    + rewrite nearest_pos by assumption. unfold encode.
      destruct (round_to_grid emin64 V); try reflexivity.
      destruct (_ <=? _)%Z; reflexivity.
    + rewrite <- (nearest_integer Q HQ'). apply nearest_mono; [|exact UV].
      unfold emin64. lia.
Qed.

End IntegerParts.

Module Hours.

Import Rounding64 ExactIntegers Quotients.

#[local] Open Scope Z_scope.
#[local] Arguments Z.mul : simpl never.
#[local] Arguments Z.pow : simpl never.
#[local] Arguments Z.sub : simpl never.
#[local] Arguments Z.add : simpl never.

(** The quotient of [s] seconds by 3600 (mantissa 3600 x 2^41, exponent
    -41), against [k] whole hours. *)
Lemma SFdiv_3600 s :
  0 < s < 2 ^ 53 ->
  exists V,
    SFdiv prec emax (integer_float s) (S754_finite false 7916483719987200 (-41))
    = nearest emin64 V /\
    0 < V /\
    forall k,
      (s <= 3600 * k -> V <= k * 2 ^ 1074) /\
      (3600 * k < s -> (k * 2 ^ 12 + 1) * 2 ^ 1062 <= V).
Proof.
  intros HS.
  destruct (SFdiv_integer_eq s 7916483719987200 (-41) HS eq_refl ltac:(lia))
    as (q & r & b & EQ & MB & B & BZ & Q1 & R).
  pose proof (Zdigits2_le_53 s HS) as DS.
  set (L := Zdigits2 s) in *.
  replace (L - -41 + 966) with (L + 1007) in R by lia.
  exists ((4 * q + b) * 2 ^ (L + 1007)).
  split; [exact R|].
  assert (PX : 0 < 2 ^ (L + 1007)) by (apply pow2_pos; lia).
  assert (PM : 0 < 2 ^ (53 - L)) by (apply pow2_pos; lia).
  assert (T52 : 0 < 2 ^ 52) by reflexivity.
  split; [apply Z.mul_pos_pos; lia|].
  (* the integers of the division, without the common factor 2^41 *)
  assert (EN : 2 ^ (53 - L) * 2 ^ 53 = 4096 * 2 ^ (53 - L) * 2 ^ 41).
  { change (2 ^ 53) with (4096 * 2 ^ 41). ring. }
  change (Z.pos 7916483719987200) with (3600 * 2 ^ 41) in *.
  rewrite <- Z.mul_assoc, EN in EQ.
  set (M := 2 ^ (53 - L)) in *. set (P := 2 ^ 41) in *.
  assert (PP : 0 < P) by reflexivity.
  set (a := s * (4096 * M)).
  assert (EU : r = P * (a - 3600 * q)) by (unfold a; lia).
  assert (U : 0 <= a - 3600 * q < 3600).
  { rewrite EU in MB. destruct MB as [M1 M2]. split.
    - apply (Z.mul_le_mono_pos_l _ _ P); lia.
    - apply (Z.mul_lt_mono_pos_l P); lia. }
  assert (UZ : a - 3600 * q = 0 -> b = 0).
  { intros Z0. apply BZ. rewrite EU, Z0. lia. }
  assert (X74 : 2 ^ 1074 = 4 * (4096 * M) * 2 ^ (L + 1007)).
  { unfold M. replace 1074 with (2 + (12 + (53 - L)) + (L + 1007)) by lia.
    rewrite !Z.pow_add_r by lia. reflexivity. }
  assert (X62 : 2 ^ 1062 = 4 * M * 2 ^ (L + 1007)).
  { unfold M. replace 1062 with (2 + (53 - L) + (L + 1007)) by lia.
    rewrite !Z.pow_add_r by lia. reflexivity. }
  intros k. set (c := k * (4096 * M)).
  split.
  - intros LE.
    assert (A : a <= 3600 * c).
    { unfold a, c.
      replace (3600 * (k * (4096 * M))) with (3600 * k * (4096 * M)) by ring.
      apply Z.mul_le_mono_nonneg_r; lia. }
    rewrite X74.
    replace (k * (4 * (4096 * M) * 2 ^ (L + 1007))) with (4 * c * 2 ^ (L + 1007))
      by (unfold c; ring).
    apply Z.mul_le_mono_nonneg_r; [lia|].
    destruct (Z.eq_dec (a - 3600 * q) 0) as [Z0|NZ].
    + rewrite (UZ Z0). lia.
    + lia.
  - intros LT.
    assert (A : 3600 * c + 4096 * M <= a).
    { unfold a, c.
      replace (3600 * (k * (4096 * M)) + 4096 * M) with ((3600 * k + 1) * (4096 * M))
        by ring.
      apply Z.mul_le_mono_nonneg_r; lia. }
    rewrite X62. change (2 ^ 12) with 4096.
    replace ((k * 4096 + 1) * (4 * M * 2 ^ (L + 1007)))
      with ((4 * c + 4 * M) * 2 ^ (L + 1007)) by (unfold c; ring).
    apply Z.mul_le_mono_nonneg_r; [lia|]. lia.
Qed.

(** The number that holds [k + 2^-12]. *)
Lemma above_integer k :
  1 <= k < 2 ^ 40 ->
  exists m e,
    valid_binary (S754_finite false m e) = true /\
    sval (S754_finite false m e) = (k * 2 ^ 12 + 1) * 2 ^ 1062.
Proof.
  intros HK. set (n := k * 2 ^ 12 + 1).
  assert (N : 0 < n < 2 ^ 53).
  { unfold n. change (2 ^ 12) with 4096. change (2 ^ 40) with 1099511627776 in HK.
    change (2 ^ 53) with 9007199254740992. lia. }
  destruct (shifted_mantissa n N) as (P & D).
  pose proof (Zdigits2_le_53 n N) as Dn.
  exists (Z.to_pos (n * 2 ^ (53 - Zdigits2 n))), (Zdigits2 n - 65).
  split.
  - unfold valid_binary, SpecFloat.valid_binary, bounded, canonical_mantissa.
    apply andb_true_iff; split; [apply Z.eqb_eq|apply Z.leb_le].
    + change (Z.pos (digits2_pos (Z.to_pos (n * 2 ^ (53 - Zdigits2 n)))))
        with (Zdigits2 (Z.pos (Z.to_pos (n * 2 ^ (53 - Zdigits2 n))))).
      rewrite Z2Pos.id by exact P. rewrite D. unfold fexp, SpecFloat.emin.
      change prec with 53. change emax with 1024. lia.
    + change (emax - prec) with 971. lia.
  - cbn [sval cond_Zopp]. rewrite Z2Pos.id by exact P.
    rewrite emin64_value, <- Z.mul_assoc, <- Z.pow_add_r by lia.
    f_equal. f_equal. lia.
Qed.

(** More than [k] hours have elapsed exactly when more than [3600 k]
    seconds have. *)
Lemma SFltb_hours s k :
  0 < s < 2 ^ 53 -> 1 <= k < 2 ^ 40 ->
  forall x, valid_binary x = true ->
  x = SFdiv prec emax (integer_float s) (S754_finite false 7916483719987200 (-41)) ->
  SFltb (integer_float k) x = (3600 * k <? s).
Proof.
  intros HS HK x Vx Ex.
  destruct (SFdiv_3600 s HS) as (V & R & PV & HV).
  rewrite R in Ex.
  assert (Hk : Z.abs k < 2 ^ 53).
  { rewrite Z.abs_eq by lia. apply Z.lt_trans with (2 ^ 40); [lia|reflexivity]. }
  assert (Hs : Z.abs s < 2 ^ 53) by (rewrite Z.abs_eq; lia).
  pose proof (integer_float_valid k Hk) as Vk.
  destruct (integer_float_shape k) as (Fk & Nk).
  assert (S2 : emin64 <= emin64) by lia.
  (* the quotient is at most [s] *)
  assert (Ls : SFleb x (integer_float s) = true).
  { rewrite Ex, <- (nearest_integer s Hs). apply nearest_mono; [exact S2|].
    apply (proj1 (HV s)). lia. }
  assert (Sx : exists sx, x = S754_zero sx \/ exists mx ex, x = S754_finite sx mx ex).
  { destruct (integer_float_shape s) as (Fs & _).
    destruct x as [sx|sx| |sx mx ex].
    - exists sx. now left.
    - destruct sx; [|destruct (integer_float s) as [?|?| |[|] ? ?]; discriminate].
      rewrite nearest_pos in Ex by exact PV. unfold encode in Ex.
      destruct (round_to_grid emin64 V); try discriminate.
      destruct (_ <=? _); discriminate.
    - discriminate.
    - exists sx. right. eauto. }
  assert (Fx : finite_or_zero x = true).
  { destruct Sx as (sx & [->|(mx & ex & ->)]); reflexivity. }
  destruct (Z.ltb_spec (3600 * k) s) as [LT|LE].
  - (* more than [3600 k] seconds *)
    destruct (above_integer k HK) as (m & e & Vw & Sw).
    assert (Lw : SFleb (S754_finite false m e) x = true).
    { rewrite Ex, <- (nearest_sval false m e Vw), Sw.
      apply nearest_mono; [exact S2|]. now apply (proj2 (HV k)). }
    pose proof (SFleb_sval _ _ Vw Vx eq_refl Fx Lw) as I1. rewrite Sw in I1.
    pose proof (SFleb_sval _ _ Vx Vk Fx Fk) as I2.
    rewrite integer_float_sval in I2 by exact Hk.
    unfold SFltb, SFleb in *.
    rewrite (FloatOrder.SFcompare_antisym (integer_float k) x) in I2.
    assert (P62 : 0 < 2 ^ 1062) by (apply pow2_pos; lia).
    assert (X : (k * 2 ^ 12 + 1) * 2 ^ 1062 > k * 2 ^ 1074).
    { replace 1074 with (12 + 1062) by lia. rewrite Z.pow_add_r by lia.
      set (u := 2 ^ 1062) in *. set (v := 2 ^ 12). 
      replace (k * (v * u)) with (k * v * u) by ring.
      replace ((k * v + 1) * u) with (k * v * u + u) by ring. lia. }
    destruct (SFcompare (integer_float k) x) as [[ | | ]|] eqn:C;
      cbn [option_map CompOpp] in I2.
    + specialize (I2 eq_refl). lia.
    + reflexivity.
    + specialize (I2 eq_refl). lia.
    + apply FloatOrder.SFcompare_none in C. destruct C as [C|C]; [tauto|].
      rewrite C in Fx. discriminate.
  - (* at most [3600 k] seconds *)
    assert (Lk : SFleb x (integer_float k) = true).
    { rewrite Ex, <- (nearest_integer k Hk). apply nearest_mono; [exact S2|].
      now apply (proj1 (HV k)). }
    unfold SFltb, SFleb in *.
    rewrite (FloatOrder.SFcompare_antisym (integer_float k) x) in Lk.
    destruct (SFcompare (integer_float k) x) as [[ | | ]|]; cbn in Lk;
      (reflexivity || discriminate).
Qed.

#[local] Open Scope float_scope.

(** The comparison of precommit, on whole hours and seconds. *)
Lemma hours_elapsed s k :
  (0 <= s < 2 ^ 53)%Z -> (1 <= k < 2 ^ 40)%Z ->
  (Z2F k <? Z2F s / 3600) = (3600 * k <? s)%Z.
Proof.
  intros HS HK.
  assert (Hk : (Z.abs k < 2 ^ 53)%Z).
  { rewrite Z.abs_eq by lia. apply Z.lt_trans with (2 ^ 40)%Z; [lia|reflexivity]. }
  assert (Hs : (Z.abs s < 2 ^ 53)%Z) by (rewrite Z.abs_eq; lia).
  rewrite ltb_spec, Z2F_spec by exact Hk.
  destruct (Z.eq_dec s 0) as [->|NZ].
  - rewrite div_spec, Z2F_spec by exact Hs.
    change (Prim2SF 3600) with (S754_finite false 7916483719987200 (-41)).
    cbn [integer_float SF64div SFdiv xorb].
    destruct k as [|pk|pk]; try lia.
    replace (3600 * Z.pos pk <? 0)%Z with false by (symmetry; apply Z.ltb_ge; lia).
    reflexivity.
  - apply SFltb_hours; try lia; [apply Prim2SF_valid|].
    rewrite div_spec, Z2F_spec by exact Hs. reflexivity.
Qed.

End Hours.

Module Signs.

Import Rounding64 FloatArith.

#[local] Open Scope float_scope.

(** Rounding does not look at the sign. *)
Lemma binary_round_aux_opp s m e l :
  binary_round_aux prec emax (negb s) m e l
  = SFopp (binary_round_aux prec emax s m e l).
Proof.
  unfold binary_round_aux.
  destruct (shr_fexp prec emax m e l) as [r1 e1].
  destruct (shr_fexp prec emax _ e1 loc_Exact) as [r2 e2].
  destruct (shr_m r2); [reflexivity| |reflexivity].
  match goal with |- context [if ?b then _ else _] => destruct b end; reflexivity.
Qed.

Lemma SFmul_opp_r x y :
  SFmul prec emax x (SFopp y) = SFopp (SFmul prec emax x y).
Proof.
  destruct x as [sx|sx| |sx mx ex], y as [sy|sy| |sy my ey];
    cbn [SFmul SFopp]; try reflexivity;
    try (destruct sx, sy; reflexivity).
  rewrite <- binary_round_aux_opp. f_equal. destruct sx, sy; reflexivity.
Qed.

Lemma SFmul_opp_l x y :
  SFmul prec emax (SFopp x) y = SFopp (SFmul prec emax x y).
Proof.
  destruct x as [sx|sx| |sx mx ex], y as [sy|sy| |sy my ey];
    cbn [SFmul SFopp]; try reflexivity;
    try (destruct sx, sy; reflexivity).
  rewrite <- binary_round_aux_opp. f_equal. destruct sx, sy; reflexivity.
Qed.

Lemma SFopp_involutive x : SFopp (SFopp x) = x.
Proof. destruct x as [s|s| |s m e]; cbn; rewrite ?negb_involutive; reflexivity. Qed.

(** The wind pressure is the same for a wind speed and its opposite. *)
Lemma mul_opp_opp k w : k * (- w) * (- w) = k * w * w.
Proof.
  apply Prim2SF_inj. rewrite !mul_spec, !opp_spec. unfold SF64mul.
  rewrite SFmul_opp_r, SFmul_opp_r, SFmul_opp_l, SFopp_involutive.
  reflexivity.
Qed.

Lemma nonneg_or_opp w :
  is_nan w = false -> (0 <=? w) = true \/ (0 <=? - w) = true.
Proof.
  rewrite FloatOrder.is_nan_false, !leb_spec, opp_spec.
  change (Prim2SF 0) with (S754_zero false).
  destruct (Prim2SF w) as [s|[|]| |[|] m e]; cbn; intros N; auto; congruence.
Qed.

Lemma pressure_not_nan k w :
  finite_positive k = true -> is_nan w = false -> is_nan (k * w * w) = false.
Proof.
  intros K N. pose proof (mul_finite_positive_l k w K N) as N1.
  destruct (finite_positive_shape k K) as (m & e & Ek).
  rewrite FloatOrder.is_nan_false in *. rewrite mul_spec.
  pose proof (Prim2SF_valid w) as Vw. pose proof (Prim2SF_valid (k * w)) as Vp.
  destruct (Prim2SF w) as [s|s| |s mw ew] eqn:Ew.
  - rewrite mul_spec, Ek, Ew. discriminate.
  - rewrite mul_spec, Ek, Ew. discriminate.
  - congruence.
  - now apply mul_finite_not_nan_r.
Qed.

(** The wind pressure is never negative. *)
Lemma pressure_nonneg k w :
  finite_positive k = true -> is_nan w = false -> (0 <=? k * w * w) = true.
Proof.
  intros K N.
  assert (P : forall v, (0 <=? v) = true -> (0 <=? k * v * v) = true).
  { intros v V. destruct (leb_not_nan _ _ V) as [_ Nv].
    assert (K0 : (0 <=? k) = true).
    { apply ltb_leb. unfold finite_positive in K.
      now apply andb_true_iff in K. }
    apply mul_nonneg; [|exact V|now apply pressure_not_nan].
    apply mul_nonneg; [exact K0|exact V|now apply mul_finite_positive_l]. }
  destruct (nonneg_or_opp w N) as [V|V]; [now apply P|].
  rewrite <- mul_opp_opp. now apply P.
Qed.

End Signs.

(** ** Years and hours *)

Lemma wrap32_range z : (- 2 ^ 31 <= wrap32 z < 2 ^ 31)%Z.
Proof.
  unfold wrap32, wrap_signed.
  pose proof (Z.mod_pos_bound (z + 2 ^ (32 - 1)) (2 ^ 32) ltac:(lia)).
  change (2 ^ (32 - 1))%Z with (2 ^ 31)%Z in *.
  change (2 ^ 32)%Z with (2 * 2 ^ 31)%Z in *. lia.
Qed.

Lemma wrap32_small z : (- 2 ^ 31 <= z < 2 ^ 31)%Z -> wrap32 z = z.
Proof.
  intros H. unfold wrap32, wrap_signed.
  change (2 ^ (32 - 1))%Z with (2 ^ 31)%Z.
  rewrite Z.mod_small; [lia|].
  change (2 ^ 32)%Z with (2 * 2 ^ 31)%Z. lia.
Qed.

Lemma wrap64_small z : (- 2 ^ 63 <= z < 2 ^ 63)%Z -> wrap64 z = z.
Proof.
  intros H. unfold wrap64, wrap_signed.
  change (2 ^ (64 - 1))%Z with (2 ^ 63)%Z.
  rewrite Z.mod_small; [lia|].
  change (2 ^ 64)%Z with (2 * 2 ^ 63)%Z. lia.
Qed.

(** The age is the exact difference of the two years. *)
Lemma age_at_exact t0 p :
  (- 2 ^ 31 <= install_year p < 2 ^ 31)%Z ->
  age_at t0 p = Z2F (year_int t0 - install_year p) /\
  (0 <? age_at t0 p) = (install_year p <? year_int t0)%Z.
Proof.
  intros I.
  assert (Y : (- 2 ^ 31 <= year_int t0 < 2 ^ 31)%Z) by apply wrap32_range.
  assert (A : age_at t0 p = Z2F (year_int t0 - install_year p)).
  { unfold age_at. cbv zeta. apply ExactIntegers.Z2F_sub; lia. }
  split; [exact A|].
  rewrite A. change 0 with (Z2F 0).
  rewrite ExactIntegers.Z2F_ltb by lia.
  destruct (Z.ltb_spec 0 (year_int t0 - install_year p)),
           (Z.ltb_spec (install_year p) (year_int t0)); (reflexivity || lia).
Qed.

(** The year of a time stamp since 1970, as both conversions derive it. *)
Lemma derived_year t0 :
  (0 <= t0 < 86400 * (2 ^ 31 - 1970))%Z ->
  exists z,
    year_int t0 = (1970 + z)%Z /\ year_uint t0 = (1970 + z)%Z /\
    (0 <= z <= t0 / 86400)%Z /\ (t0 / 86400 < 2 ^ 31 - 1970)%Z.
Proof.
  intros H.
  assert (Q : (0 <= t0 / 86400 < 2 ^ 31 - 1970)%Z).
  { split; [apply Z.div_pos; lia|apply Z.div_lt_upper_bound; lia]. }
  destruct (IntegerParts.Ztrunc_quotient (t0 / 86400) 365.24 6425370030862500 (-44))
    as (z & E & B); try reflexivity; try lia.
  exists z. unfold year_int, year_uint, double_to_int, double_to_uint.
  rewrite Z.quot_div_nonneg, E by lia.
  destruct (Z.leb_spec (- 2 ^ 31) z), (Z.ltb_spec z (2 ^ 31)); cbn [andb]; try lia.
  destruct (Z.leb_spec (- 2 ^ 63) z), (Z.ltb_spec z (2 ^ 63)); cbn [andb]; try lia.
  split; [apply wrap32_small; lia|].
  split; [|lia].
  unfold wrapu32. rewrite (Z.mod_small z) by lia. apply Z.mod_small. lia.
Qed.

(** ** The handlers *)

Section FurtherProperties.

Variables (sin cos : double -> double) (PI : double).

(** What [init] returns when it succeeds, as the composition of its parts. *)
Lemma init_success h p p' :
  init h p = init_return 1 p' ->
  exists cfg c r,
    configuration p = Some cfg /\ OBJECTDATA cfg = Some c /\
    ((tilt_angle p <? 0) || (90 <? tilt_angle p)) = false /\
    ((tilt_direction p <? 0) || (360 <=? tilt_direction p)) = false /\
    ((repair_time p <=? 0) = false -> r = repair_time p) /\
    ((repair_time p <=? 0) = true -> (0 <? r) = true) /\
    p' = init_geometry c
           (init_weather h (p <| config := Some c |> <| repair_time := r |>)).
Proof.
  unfold init.
  destruct (configuration p) as [cfg|] eqn:Ecfg; [|discriminate].
  destruct (OBJECTDATA cfg) as [c|] eqn:Ec; [|discriminate].
  destruct_pole p; cbn in *.
  destruct weather';
  (destruct (repair_time' <=? 0) eqn:Ert;
   [ destruct (gl_get_addr cfg "repair_time") as [v|] eqn:Ev; cbn;
     [ destruct (0 <? v) eqn:Ep; cbn;
       [ | destruct (0 <? default_repair_time h) eqn:Ed; cbn; [|discriminate] ]
     | destruct (0 <? default_repair_time h) eqn:Ed; cbn; [|discriminate] ]
   | ]).
  all: cbn; destruct ((tilt_angle' <? 0) || (90 <? tilt_angle')) eqn:Eta; cbn;
    try discriminate.
  all: destruct ((tilt_direction' <? 0) || (360 <=? tilt_direction')) eqn:Etd; cbn;
    try discriminate.
  all: intros H; injection H as <-.
  all: exists cfg, c.
  all: first
    [ exists v; repeat split; congruence
    | exists (default_repair_time h); repeat split; congruence
    | exists repair_time'; repeat split; congruence ].
Qed.


(** The wind data precommit leaves in the pole, whatever branch it takes. *)
Lemma precommit_wind h p t0 q e :
  precommit sin cos PI h p t0 = Some (q, e) ->
  e = TS_NEVER /\
  wind_speed q = observed_wind_speed h p /\
  wind_direction q = observed_wind_direction h p /\
  wind_gusts q = observed_wind_gusts h p /\
  wind_speed_ref q = wind_speed_ref p /\
  wind_direction_ref q = wind_direction_ref p /\
  wind_gusts_ref q = wind_gusts_ref p.
Proof.
  rewrite precommit_eq.
  destruct (config p) as [c|] eqn:C; [|discriminate].
  cbv zeta. intros H. injection H as <- <-.
  unfold observed_wind_speed, observed_wind_direction, observed_wind_gusts.
  destruct (repair_due h p), (wind_changed h p); destruct_pole p; cbn;
    repeat split.
Qed.

(** What the weather check of [init] binds. *)
Lemma init_weather_refs h p :
  let p' := init_weather h p in
  match weather p with
  | Some w =>
      wind_speed_ref p' = bind_weather_property w (wind_speed_name h) /\
      wind_direction_ref p' = bind_weather_property w (wind_dir_name h) /\
      wind_gusts_ref p' = bind_weather_property w (wind_gust_name h)
  | None =>
      wind_speed_ref p' = wind_speed_ref p /\
      wind_direction_ref p' = wind_direction_ref p /\
      wind_gusts_ref p' = wind_gusts_ref p
  end /\
  wind_speed p' = wind_speed p /\ wind_direction p' = wind_direction p /\
  wind_gusts p' = wind_gusts p.
Proof. destruct_pole p; destruct weather'; cbn; repeat split. Qed.

Lemma init_geometry_wind c p :
  let p' := init_geometry c p in
  wind_speed_ref p' = wind_speed_ref p /\
  wind_direction_ref p' = wind_direction_ref p /\
  wind_gusts_ref p' = wind_gusts_ref p /\
  wind_speed p' = wind_speed p /\ wind_direction p' = wind_direction p /\
  wind_gusts p' = wind_gusts p /\ config p' = config p.
Proof. destruct_pole p; cbn; repeat split. Qed.

Lemma bind_weather_property_eq w n :
  bind_weather_property w n =
  if is_valid (weather_property w n) then Some (weather_property w n) else None.
Proof.
  unfold bind_weather_property, weather_property.
  now destruct (is_valid _).
Qed.


(** The weather references and the wind data of an initialised pole. *)
Lemma init_wind h p p' :
  init h p = init_return 1 p' ->
  match weather p with
  | Some w =>
      wind_speed_ref p' = bind_weather_property w (wind_speed_name h) /\
      wind_direction_ref p' = bind_weather_property w (wind_dir_name h) /\
      wind_gusts_ref p' = bind_weather_property w (wind_gust_name h)
  | None =>
      wind_speed_ref p' = wind_speed_ref p /\
      wind_direction_ref p' = wind_direction_ref p /\
      wind_gusts_ref p' = wind_gusts_ref p
  end /\
  wind_speed p' = wind_speed p /\ wind_direction p' = wind_direction p /\
  wind_gusts p' = wind_gusts p /\ (exists c, config p' = Some c).
Proof.
  intros H. destruct (init_success h p p' H) as (cfg & c & r & _ & _ & _ & _ & _ & _ & ->).
  set (p0 := p <| config := Some c |> <| repair_time := r |>).
  assert (W : weather p0 = weather p /\ wind_speed_ref p0 = wind_speed_ref p /\
              wind_direction_ref p0 = wind_direction_ref p /\
              wind_gusts_ref p0 = wind_gusts_ref p /\
              wind_speed p0 = wind_speed p /\ wind_direction p0 = wind_direction p /\
              wind_gusts p0 = wind_gusts p /\ config p0 = Some c)
    by (unfold p0; destruct_pole p; cbn; repeat split).
  destruct W as (W0 & W1 & W2 & W3 & W4 & W5 & W6 & W7).
  destruct (init_geometry_wind c (init_weather h p0)) as (G1 & G2 & G3 & G4 & G5 & G6 & G7).
  destruct (init_weather_refs h p0) as (R & R4 & R5 & R6).
  assert (C : config (init_weather h p0) = Some c)
    by (unfold p0; destruct_pole p; destruct weather'; reflexivity).
  rewrite W0 in R. rewrite G1, G2, G3, G4, G5, G6, G7.
  split.
  - destruct (weather p); destruct R as (R1 & R2 & R3); repeat split; congruence.
  - repeat split; try congruence. now exists c.
Qed.

(** X1: once [init] has succeeded, precommit reads each of the three wind
    data from the weather object when that object publishes the property
    under the name the module's global gives, whatever the local value, and
    keeps the local value when the weather object does not publish it;
    without a weather object [init] leaves the references as they were. *)
Theorem weather_overrides_local_wind h h' t0 p p' :
  init h p = init_return 1 p' ->
  exists q,
    precommit sin cos PI h' p' t0 = Some (q, TS_NEVER) /\
    match weather p with
    | Some w =>
        let from_weather n local :=
          if is_valid (weather_property w n)
          then get_double h' (weather_property w n) else local in
        wind_speed q = from_weather (wind_speed_name h) (wind_speed p) /\
        wind_direction q = from_weather (wind_dir_name h) (wind_direction p) /\
        wind_gusts q = from_weather (wind_gust_name h) (wind_gusts p)
    | None =>
        wind_speed q = observed_wind_speed h' p /\
        wind_direction q = observed_wind_direction h' p /\
        wind_gusts q = observed_wind_gusts h' p
    end.
Proof.
  intros H.
  destruct (init_wind h p p' H) as (R & S & D & G & c & C).
  destruct (precommit sin cos PI h' p' t0) as [[q e]|] eqn:P.
  2:{ rewrite precommit_eq, C in P. discriminate. }
  destruct (precommit_wind h' p' t0 q e P) as (-> & Q1 & Q2 & Q3 & _).
  exists q. split; [reflexivity|].
  rewrite Q1, Q2, Q3.
  unfold observed_wind_speed, observed_wind_direction, observed_wind_gusts.
  destruct (weather p) as [w|]; destruct R as (R1 & R2 & R3);
    rewrite R1, R2, R3, ?S, ?D, ?G.
  - cbv zeta. rewrite !bind_weather_property_eq.
    repeat split; destruct (is_valid _); reflexivity.
  - repeat split.
Qed.


(** X2: [create] clears the configuration reference, so [init] right after
    [create] reports the missing configuration and returns 0, leaving the
    object as [create] left it, and precommit on such a pole reads through
    the null configuration pointer. *)
Theorem created_pole_needs_configuration h t0 p :
  snd (create p) = 1%Z /\
  init h (fst (create p)) = init_return 0 (fst (create p)) /\
  precommit sin cos PI h (fst (create p)) t0 = None.
Proof. destruct_pole p; repeat split. Qed.

(** X3: postsync clears the recalc flag, so a second postsync, at any time
    and under any globals, returns the pole unchanged together with
    [TS_NEVER]. *)
Theorem postsync_twice h h' t t' p :
  recalc (fst (postsync h p t)) = false /\
  postsync h' (fst (postsync h p t)) t' = (fst (postsync h p t), TS_NEVER).
Proof.
  assert (R : recalc (fst (postsync h p t)) = false).
  { destruct (recalc p) eqn:E.
    - apply (postsync_recalc h t p E).
    - now rewrite postsync_idle. }
  split; [exact R|]. now apply postsync_idle.
Qed.

(** What precommit leaves alone, whatever branch it takes. *)
Lemma precommit_frame h p t0 q e :
  precommit sin cos PI h p t0 = Some (q, e) ->
  config q = config p /\ down_time q = down_time p /\
  repair_time q = repair_time p /\
  pole_stress q = pole_stress p /\ total_moment q = total_moment p /\
  susceptibility q = susceptibility p /\
  pole_stress_polynomial_a q = pole_stress_polynomial_a p /\
  pole_stress_polynomial_b q = pole_stress_polynomial_b p /\
  pole_stress_polynomial_c q = pole_stress_polynomial_c p /\
  equipment_moment q = equipment_moment p /\ wire_moment q = wire_moment p /\
  wire_tension q = wire_tension p /\ wire_load q = wire_load p /\
  height q = height p /\ guy_height q = guy_height p /\
  weather q = weather p /\ configuration q = configuration p.
Proof.
  rewrite precommit_eq.
  destruct (config p) as [c|] eqn:C; [|discriminate].
  cbv zeta. intros H. injection H as <- <-.
  destruct (repair_due h p), (wind_changed h p); destruct_pole p; cbn in *;
    repeat split; assumption.
Qed.

(** The status and the flag after precommit. *)
Lemma precommit_status h p t0 q e :
  precommit sin cos PI h p t0 = Some (q, e) ->
  pole_status q = (if repair_due h p then PS_OK else pole_status p) /\
  recalc q = (if repair_due h p then true
              else if wind_changed h p then true else recalc p) /\
  last_wind_speed q =
    (if repair_due h p then last_wind_speed p
     else if wind_changed h p then observed_wind_speed h p
          else last_wind_speed p).
Proof.
  rewrite precommit_eq.
  destruct (config p) as [c|] eqn:C; [|discriminate].
  cbv zeta. intros H. injection H as <- <-.
  unfold observed_wind_speed.
  destruct (repair_due h p), (wind_changed h p); destruct_pole p; cbn;
    repeat split.
Qed.

(** X4: precommit never fails a pole and never schedules an event: it
    returns [TS_NEVER], a pole that is FAILED when it returns was FAILED
    before, and the time of the failure, the stress, the total moment, the
    susceptibility and the stress polynomial are those it received. *)
Theorem precommit_never_fails_a_pole h p t0 q e :
  precommit sin cos PI h p t0 = Some (q, e) ->
  e = TS_NEVER /\
  (pole_status q = PS_FAILED -> pole_status p = PS_FAILED) /\
  down_time q = down_time p /\
  pole_stress q = pole_stress p /\ total_moment q = total_moment p /\
  susceptibility q = susceptibility p /\
  pole_stress_polynomial_a q = pole_stress_polynomial_a p /\
  pole_stress_polynomial_b q = pole_stress_polynomial_b p /\
  pole_stress_polynomial_c q = pole_stress_polynomial_c p.
Proof.
  intros H.
  destruct (precommit_wind h p t0 q e H) as (E & _).
  destruct (precommit_status h p t0 q e H) as (S & _).
  destruct (precommit_frame h p t0 q e H)
    as (_ & F1 & _ & F2 & F3 & F4 & F5 & F6 & F7 & _).
  repeat split; try assumption.
  rewrite S. destruct (repair_due h p); [discriminate|auto].
Qed.

(** The configuration pointer through one step. *)
Lemma step_config h t0 cs p c :
  config p = Some c ->
  exists q e, step sin cos PI h t0 cs p = Some (q, e) /\ config q = Some c.
Proof.
  intros C. rewrite step_eq.
  destruct (precommit sin cos PI h p t0) as [[p1 e1]|] eqn:P.
  2:{ rewrite precommit_eq, C in P. discriminate. }
  destruct (precommit_frame h p t0 p1 e1 P) as (C1 & _).
  destruct (postsync h (collaborate cs (fst (presync p1 t0))) t0) as [q e] eqn:Q.
  exists q, e. split; [reflexivity|].
  pose proof (postsync_frame h t0 (collaborate cs (fst (presync p1 t0)))) as F.
  rewrite Q in F. cbn [fst] in F. destruct F as (_ & _ & -> & _).
  destruct (collaborate_fields cs (fst (presync p1 t0))) as (_ & _ & _ & _ & -> & _).
  unfold presync. destruct (recalc p1); cbn [fst]; [|congruence].
  destruct (reset_sync_fields p1) as (_ & _ & _ & _ & _ & _ & _ & _ & -> & _).
  congruence.
Qed.

(** X5: once [init] has succeeded the configuration pointer is set and no
    handler changes it, so every run of time steps, whatever the hosts, the
    times and the collaborators, goes through: precommit never reads through
    a null configuration. *)
Theorem initialised_pole_runs h p p' steps :
  init h p = init_return 1 p' ->
  exists c q,
    config p' = Some c /\
    run sin cos PI steps p' = Some q /\ config q = Some c.
Proof.
  intros H. destruct (init_wind h p p' H) as (_ & _ & _ & _ & c & C).
  exists c. clear H. revert p' C.
  induction steps as [|[[h1 t1] cs] rest IH]; intros p' C.
  - exists p'. repeat split; assumption.
  - destruct (step_config h1 t1 cs p' c C) as (q1 & e1 & S & C1).
    destruct (IH q1 C1) as (q & _ & R & Cq).
    exists q. repeat split; try assumption.
    cbn [run]. now rewrite S.
Qed.

(** What a step without trigger leaves alone. *)
Lemma quiet_step_fields c h t0 cs p :
  let q := collaborate cs (refreshed c h t0 p) in
  config q = config p /\ pole_status q = pole_status p /\
  recalc q = recalc p /\ last_wind_speed q = last_wind_speed p /\
  wind_speed_ref q = wind_speed_ref p /\
  wind_speed q = observed_wind_speed h p /\
  pole_stress q = pole_stress p /\ total_moment q = total_moment p /\
  susceptibility q = susceptibility p /\ down_time q = down_time p /\
  critical_wind_speed q = critical_wind_speed p /\
  wind_pressure q = wind_pressure p.
Proof.
  cbv zeta. rewrite collaborate_eq. unfold observed_wind_speed.
  destruct_pole p; cbn. repeat split.
Qed.

(** X6: the pole is analysed only when a trigger of precommit fires. While
    its status is OK and the wind speed precommit observes equals the last
    one it has latched, no step sets the recalc flag: whatever the
    collaborators add to the accumulators, the status stays OK, the stress,
    the total moment, the susceptibility, the critical wind speed and the
    wind pressure keep the values they had, and every step returns
    [TS_NEVER]. *)
Theorem unchanged_wind_is_never_analysed steps p c :
  config p = Some c -> pole_status p = PS_OK -> recalc p = false ->
  Forall (fun s => (last_wind_speed p =? observed_wind_speed (step_host s) p) = true)
         steps ->
  wake_ups sin cos PI steps p = Some (map (fun _ => TS_NEVER) steps) /\
  exists q,
    run sin cos PI steps p = Some q /\
    pole_status q = PS_OK /\ recalc q = false /\
    pole_stress q = pole_stress p /\ total_moment q = total_moment p /\
    susceptibility q = susceptibility p /\ down_time q = down_time p /\
    critical_wind_speed q = critical_wind_speed p /\
    wind_pressure q = wind_pressure p /\
    last_wind_speed q = last_wind_speed p.
Proof.
  intros C S R F.
  assert (G : forall rest q,
             wind_speed_ref q = wind_speed_ref p ->
             (wind_speed_ref p = None -> wind_speed q = wind_speed p) ->
             last_wind_speed q = last_wind_speed p ->
             Forall (fun s => (last_wind_speed p
                               =? observed_wind_speed (step_host s) p) = true) rest ->
             Forall (fun s => (last_wind_speed q
                               =? observed_wind_speed (step_host s) q) = true) rest).
  { intros rest q Rq Wq Lq. apply Forall_impl. intros s.
    unfold observed_wind_speed. rewrite Rq, Lq.
    destruct (wind_speed_ref p); [auto|]. now rewrite Wq. }
  revert p C S R F G.
  induction steps as [|[[h t0] cs] rest IH]; intros p C S R F G.
  - split; [reflexivity|]. exists p. repeat split; assumption.
  - inversion F as [|s rest' Hs Hrest]; subst. cbn [step_host fst] in Hs.
    assert (D : repair_due h p = false) by (unfold repair_due; now rewrite S).
    assert (W : wind_changed h p = false)
      by (unfold wind_changed; now rewrite S, Hs).
    destruct (step_quiet sin cos PI h t0 cs p c C D W R) as (_ & St).
    destruct (quiet_step_fields c h t0 cs p)
      as (C1 & S1 & R1 & L1 & F1 & W1 & Q1 & Q2 & Q3 & Q4 & Q5 & Q6).
    set (q1 := collaborate cs (refreshed c h t0 p)) in *.
    assert (W1' : wind_speed_ref p = None -> wind_speed q1 = wind_speed p).
    { intros N. rewrite W1. unfold observed_wind_speed. now rewrite N. }
    assert (F' := G rest q1 F1 W1' L1 Hrest).
    destruct (IH q1) as (E & q & Rn & A1 & A2 & A3 & A4 & A5 & A6 & A7 & A8 & A9);
      try congruence.
    { intros rest0 q0 Rq Wq Lq. apply Forall_impl. intros s.
      unfold observed_wind_speed. rewrite Rq, Lq.
      destruct (wind_speed_ref q1); [auto|]. now rewrite Wq. }
    split.
    + cbn [wake_ups map]. rewrite St, E. reflexivity.
    + exists q. cbn [run]. rewrite St.
      repeat split; congruence.
Qed.

(** What the handlers that follow precommit leave alone. *)
Lemma after_precommit_frame h t0 cs p1 :
  let q := fst (postsync h (collaborate cs (fst (presync p1 t0))) t0) in
  last_wind_speed q = last_wind_speed p1 /\
  wind_speed q = wind_speed p1 /\ wind_direction q = wind_direction p1 /\
  wind_gusts q = wind_gusts p1 /\
  wind_speed_ref q = wind_speed_ref p1 /\
  critical_wind_speed q = critical_wind_speed p1 /\
  wind_pressure q = wind_pressure p1 /\
  pole_moment_nowind q = pole_moment_nowind p1 /\
  current_hollow_diameter q = current_hollow_diameter p1 /\
  resisting_moment q = resisting_moment p1 /\
  install_year q = install_year p1 /\
  tilt_angle q = tilt_angle p1 /\ tilt_direction q = tilt_direction p1 /\
  height q = height p1.
Proof.
  cbv zeta. unfold presync, postsync.
  destruct (recalc p1) eqn:R; cbn [fst].
  - destruct (collaborate_fields cs (reset_sync_accumulators p1))
      as (_ & -> & _).
    destruct (reset_sync_fields p1) as (_ & _ & _ & _ & _ & -> & _).
    rewrite R, collaborate_eq. destruct_pole p1; cbn. repeat split.
  - destruct (collaborate_fields cs p1) as (_ & -> & _).
    rewrite R, collaborate_eq. destruct_pole p1; cbn. repeat split.
Qed.

(** X7: the wind-change trigger latches the wind speed it has seen. After a
    step in which it fired, [last_wind_speed] is the wind speed precommit
    observed, so under the same observation the trigger fires again in the
    next step only when that wind speed is NaN (which differs from itself)
    and the status is still OK. *)
Theorem wind_trigger_latches h t0 cs p c :
  config p = Some c -> wind_changed h p = true ->
  exists q e,
    step sin cos PI h t0 cs p = Some (q, e) /\
    last_wind_speed q = observed_wind_speed h p /\
    observed_wind_speed h q = observed_wind_speed h p /\
    wind_changed h q =
      pole_status_eqb (pole_status q) PS_OK && is_nan (observed_wind_speed h p).
Proof.
  intros C W.
  destruct (step_wind_changed sin cos PI h t0 cs p c C W) as (P & _ & _).
  set (p1 := wind_update sin cos PI c (refreshed c h t0 p)) in *.
  destruct (precommit_wind h p t0 p1 _ P) as (_ & W1 & _ & _ & R1 & _).
  destruct (precommit_status h p t0 p1 _ P) as (_ & _ & L1).
  rewrite (wind_changed_not_due h p W), W in L1.
  rewrite step_eq, P.
  destruct (after_precommit_frame h t0 cs p1) as (L & Ws & _ & _ & Rf & _).
  destruct (postsync h (collaborate cs (fst (presync p1 t0))) t0) as [q e] eqn:Q.
  cbn [fst] in *. exists q, e. split; [reflexivity|].
  assert (O : observed_wind_speed h q = observed_wind_speed h p).
  { unfold observed_wind_speed at 1. rewrite Rf, R1, Ws, W1.
    unfold observed_wind_speed. now destruct (wind_speed_ref p). }
  split; [congruence|]. split; [exact O|].
  unfold wind_changed. rewrite O, L, L1. reflexivity.
Qed.

(** X8: in the wind branch of precommit the critical wind speed is computed
    from the clamped resisting moment, the wire tension left by the previous
    step and the pole's own moment per unit of pressure: the no-wind moments
    of the equipment and of the wires enter as zero, since precommit has
    just reset them. *)
Theorem critical_wind_speed_ignores_equipment h t0 p c :
  config p = Some c -> wind_changed h p = true ->
  exists q,
    precommit sin cos PI h p t0 = Some (q, TS_NEVER) /\
    equipment_moment_nowind q = 0 /\ wire_moment_nowind q = 0 /\
    resisting_moment q = clamped (resisting_moment (refreshed c h t0 p)) /\
    pole_moment_nowind q = moment_per_pressure c p /\
    wind_pressure q =
      0.00256 * 2.24 * observed_wind_speed h p * observed_wind_speed h p /\
    critical_wind_speed q =
      sqrt ((resisting_moment q - wire_tension p)
            / (moment_per_pressure c p + 0 + 0) / (0.00256 * 2.24)).
Proof.
  intros C W.
  destruct (step_wind_changed sin cos PI h t0 [] p c C W) as (P & _ & _).
  eexists. split; [exact P|].
  unfold clamped, moment_per_pressure, observed_wind_speed.
  destruct_pole p; cbn. repeat split.
Qed.

(** X9: precommit assigns the resisting moment and the three no-wind
    accumulators before it reads them, so what it returns does not depend
    on the values these fields held: the resisting moment [init] computed
    from the tapered diameter and the no-wind moments the collaborators
    added in the previous step never reach the analysis. *)
Theorem precommit_forgets_stale_outputs h t0 p rm a b d :
  precommit sin cos PI h (with_stale_outputs rm a b d p) t0
  = precommit sin cos PI h p t0.
Proof.
  unfold with_stale_outputs. rewrite !precommit_eq.
  destruct_pole p; cbn. destruct config'; reflexivity.
Qed.

(** [init] as one case analysis on the pole it receives. *)
Lemma init_eq h p :
  init h p =
  match configuration p with
  | None => init_return 0 p
  | Some cfg =>
      match OBJECTDATA cfg with
      | None => init_return 0 p
      | Some c =>
          match resolve_repair_time h cfg (repair_time p) with
          | None => init_exception "pole::default_repair_time must be positive"
          | Some r =>
              let p1 := init_weather h (p <| config := Some c |> <| repair_time := r |>) in
              if tilt_rejected p then init_return 0 p1
              else init_return 1 (init_geometry c p1)
          end
      end
  end.
Proof.
  unfold init, resolve_repair_time, tilt_rejected, is_positive.
  destruct (configuration p) as [cfg|] eqn:Ecfg; [|reflexivity].
  destruct (OBJECTDATA cfg) as [c|] eqn:Ec; [|reflexivity].
  destruct_pole p; cbn in *.
  destruct weather';
  (destruct (repair_time' <=? 0) eqn:Ert;
   [ destruct (gl_get_addr cfg "repair_time") as [v|] eqn:Ev; cbn;
     [ destruct (0 <? v) eqn:Ep; cbn;
       [ | destruct (0 <? default_repair_time h) eqn:Ed; cbn; [|reflexivity] ]
     | destruct (0 <? default_repair_time h) eqn:Ed; cbn; [|reflexivity] ]
   | ]).
  all: cbn; destruct ((tilt_angle' <? 0) || (90 <? tilt_angle')) eqn:Eta; cbn;
    try reflexivity.
  all: destruct ((tilt_direction' <? 0) || (360 <=? tilt_direction')) eqn:Etd; cbn;
    reflexivity.
Qed.

(** A repair time that [init] has settled on is kept by a second [init]. *)
Lemma resolve_repair_time_fixed h cfg own r :
  resolve_repair_time h cfg own = Some r ->
  resolve_repair_time h cfg r = Some r.
Proof.
  unfold resolve_repair_time, is_positive.
  destruct (own <=? 0) eqn:E.
  - destruct (gl_get_addr cfg "repair_time") as [v|].
    + destruct (0 <? v) eqn:V.
      * intros H. injection H as <-.
        now rewrite (FloatOrder.ltb_true_leb_false _ _ V).
      * destruct (0 <? default_repair_time h) eqn:D; [|discriminate].
        intros H. injection H as <-.
        now rewrite (FloatOrder.ltb_true_leb_false _ _ D).
    + destruct (0 <? default_repair_time h) eqn:D; [|discriminate].
      intros H. injection H as <-.
      now rewrite (FloatOrder.ltb_true_leb_false _ _ D).
  - intros H. injection H as <-. now rewrite E.
Qed.

(** X10: [init] is idempotent: called again, under the same globals, on the
    pole a successful [init] has returned, it succeeds and returns that pole
    unchanged (the repair time settled on, the weather references and the
    geometry are the same). *)
Theorem init_twice h p p' :
  init h p = init_return 1 p' -> init h p' = init_return 1 p'.
Proof.
  rewrite (init_eq h p).
  destruct (configuration p) as [cfg|] eqn:Ecfg; [|discriminate].
  destruct (OBJECTDATA cfg) as [c|] eqn:Ec; [|discriminate].
  destruct (resolve_repair_time h cfg (repair_time p)) as [r|] eqn:Er;
    [|discriminate].
  cbv zeta. destruct (tilt_rejected p) eqn:T; [discriminate|].
  set (p1 := init_weather h (p <| config := Some c |> <| repair_time := r |>)).
  intros H.
  assert (E : init_geometry c p1 = p') by (injection H; intros E; exact E).
  clear H. subst p'.
  assert (F : configuration (init_geometry c p1) = Some cfg /\
              repair_time (init_geometry c p1) = r /\
              tilt_rejected (init_geometry c p1) = tilt_rejected p).
  { unfold p1, tilt_rejected. destruct_pole p; destruct weather'; cbn in *;
      repeat split; assumption. }
  destruct F as (F1 & F2 & F3).
  rewrite (init_eq h (init_geometry c p1)), F1, Ec, F2.
  rewrite (resolve_repair_time_fixed h cfg _ r Er). cbv zeta.
  rewrite F3, T. f_equal.
  unfold p1. destruct_pole p; destruct weather'; reflexivity.
Qed.

(** X11: a repair does not restore the wood. The repair branch resets the
    tilt, the status and the install year and sets the recalc flag, but it
    leaves the hollow diameter and the resisting moment of the degradation
    model; when that moment is not positive, postsync of the same step finds
    an infinite stress, whatever the loads, and fails the pole again at the
    current clock. *)
Theorem repair_of_rotten_pole_fails_again h t0 cs p c :
  config p = Some c -> repair_due h p = true ->
  (0 <? resisting_moment (refreshed c h t0 p)) = false ->
  exists q e,
    step sin cos PI h t0 cs p = Some (q, e) /\
    current_hollow_diameter q = current_hollow_diameter (refreshed c h t0 p) /\
    resisting_moment q = resisting_moment (refreshed c h t0 p) /\
    install_year q = wrap32 (year_uint t0) /\
    tilt_angle q = 0 /\ tilt_direction q = 0 /\
    pole_stress q = infinity /\
    pole_status q = PS_FAILED /\
    down_time q = gl_globalclock h.
Proof.
  intros C D M.
  pose proof (precommit_repair sin cos PI h t0 p c C D) as P.
  set (p1 := repair t0 (refreshed c h t0 p)) in *.
  assert (F1 : recalc p1 = true /\
               current_hollow_diameter p1 = current_hollow_diameter (refreshed c h t0 p) /\
               resisting_moment p1 = resisting_moment (refreshed c h t0 p) /\
               install_year p1 = wrap32 (year_uint t0) /\
               tilt_angle p1 = 0 /\ tilt_direction p1 = 0).
  { unfold p1. destruct_pole p; cbn. repeat split. }
  destruct F1 as (R1 & H1 & M1 & Y1 & T1 & T2).
  rewrite step_eq, P.
  destruct (after_precommit_frame h t0 cs p1)
    as (_ & _ & _ & _ & _ & _ & _ & _ & A1 & A2 & A3 & A4 & A5 & _).
  set (entry := collaborate cs (fst (presync p1 t0))) in *.
  assert (Re : recalc entry = true /\ resisting_moment entry = resisting_moment p1).
  { unfold entry. rewrite (presync_recalc _ _ R1). cbn [fst].
    destruct (collaborate_fields cs (reset_sync_accumulators p1))
      as (_ & -> & _ & _ & _ & -> & _).
    destruct (reset_sync_fields p1) as (_ & _ & _ & _ & _ & -> & _ & _ & _ & ->).
    now split. }
  destruct Re as (Re & Me).
  destruct (postsync_recalc h t0 entry Re) as (_ & S & St & Dt & _).
  assert (SO : stress_of entry = infinity).
  { unfold stress_of. now rewrite Me, M1, M. }
  rewrite SO in S, St, Dt.
  change (infinity <? 1) with false in St, Dt.
  destruct (postsync h entry t0) as [q e] eqn:Q. cbn [fst] in *.
  exists q, e. split; [reflexivity|].
  repeat split; congruence.
Qed.

(** X12: the age precommit computes is the exact difference of the year it
    derives from [t0] and the install year, so the degradation model runs
    exactly when that year is later than the install year: in the year of
    the installation and before, the hollow diameter keeps its previous
    value. *)
Theorem degradation_starts_the_year_after c h t0 p :
  (- 2 ^ 31 <= install_year p < 2 ^ 31)%Z ->
  age_at t0 p = Z2F (year_int t0 - install_year p) /\
  (0 <? age_at t0 p) = (install_year p <? year_int t0)%Z /\
  current_hollow_diameter (refreshed c h t0 p) =
    (if (install_year p <? year_int t0)%Z && (0 <? degradation_rate c)
     then 2 * Z2F (year_int t0 - install_year p) * degradation_rate c
     else current_hollow_diameter p).
Proof.
  intros I. destruct (age_at_exact t0 p I) as (A & B).
  split; [exact A|]. split; [exact B|].
  rewrite (proj1 (refreshed_degradation h t0 c p)), B, A. reflexivity.
Qed.

(** X13: a failed pole is repaired by the first precommit that runs more
    than [repair_time] hours after the failure, and the wake-up the failing
    pole asks for comes too early for it. With a repair time of [k] whole
    hours, postsync returns the clock plus [3600 k] seconds; [s] seconds
    after the failure the repair test of precommit holds exactly when
    [3600 k < s], whatever [s / 3600] rounds to; so at the time postsync
    asked for the pole is not repaired: the step leaves it FAILED and
    returns [TS_NEVER]. *)
Theorem scheduled_wake_up_does_not_repair h t0 p c k :
  config p = Some c -> recalc p = true ->
  stop_on_pole_failure h = false -> (stress_of p <? 1) = false ->
  repair_time p = Z2F k -> (1 <= k)%Z -> (3600 * k < 2 ^ 31)%Z ->
  (- 2 ^ 63 <= gl_globalclock h)%Z -> (gl_globalclock h + 3600 * k < 2 ^ 63)%Z ->
  let q := fst (postsync h p t0) in
  let e := snd (postsync h p t0) in
  e = (gl_globalclock h + 3600 * k)%Z /\
  pole_status q = PS_FAILED /\ down_time q = gl_globalclock h /\
  (forall h' s,
     (0 <= s < 2 ^ 53)%Z -> gl_globalclock h' = (gl_globalclock h + s)%Z ->
     repair_due h' q = (3600 * k <? s)%Z) /\
  (forall h' t1 cs,
     gl_globalclock h' = e ->
     exists q', step sin cos PI h' t1 cs q = Some (q', TS_NEVER) /\
                pole_status q' = PS_FAILED).
Proof.
  intros C R S F RT K1 K2 G1 G2 q e.
  destruct (postsync_recalc h t0 p R) as (_ & _ & St & Dt & _ & Rq).
  pose proof (postsync_recalc_event h t0 p R) as Ev.
  destruct (postsync_frame h t0 p) as (_ & Rt & Cq & _).
  fold q in St, Dt, Rq, Rt, Cq. fold e in Ev.
  rewrite F in St, Dt. rewrite S, F in Ev.
  assert (M : repair_time p * 3600 = Z2F (k * 3600)).
  { rewrite RT. change 3600 with (Z2F 3600). apply ExactIntegers.Z2F_mul; lia. }
  assert (T : double_to_int (repair_time p * 3600) = (k * 3600)%Z).
  { rewrite M. unfold double_to_int. rewrite ExactIntegers.Ztrunc_Z2F by lia.
    destruct (Z.leb_spec (- 2 ^ 31) (k * 3600)), (Z.ltb_spec (k * 3600) (2 ^ 31));
      cbn [andb]; lia. }
  assert (E : e = (gl_globalclock h + 3600 * k)%Z).
  { rewrite Ev, T. rewrite wrap64_small; lia. }
  assert (K40 : (k < 2 ^ 40)%Z).
  { change (2 ^ 31)%Z with 2147483648%Z in K2.
    change (2 ^ 40)%Z with 1099511627776%Z. lia. }
  assert (D : forall h' s,
             (0 <= s < 2 ^ 53)%Z -> gl_globalclock h' = (gl_globalclock h + s)%Z ->
             repair_due h' q = (3600 * k <? s)%Z).
  { intros h' s Hs Hc. unfold repair_due, hours_down.
    rewrite St, Rt, RT, Dt, Hc.
    replace (gl_globalclock h + s - gl_globalclock h)%Z with s by lia.
    rewrite wrap64_small.
    - cbn [pole_status_eqb andb]. apply Hours.hours_elapsed; lia.
    - change (2 ^ 53)%Z with 9007199254740992%Z in Hs.
      change (2 ^ 63)%Z with 9223372036854775808%Z. lia. }
  split; [exact E|]. split; [exact St|]. split; [exact Dt|].
  split; [exact D|].
  intros h' t1 cs Hc.
  assert (D0 : repair_due h' q = false).
  { rewrite (D h' (3600 * k)%Z).
    - apply Z.ltb_irrefl.
    - change (2 ^ 31)%Z with 2147483648%Z in K2.
      change (2 ^ 53)%Z with 9007199254740992%Z. lia.
    - now rewrite Hc. }
  destruct (failed_step sin cos PI h' t1 cs q c) as (q' & S' & _ & F' & _);
    try assumption; [congruence|].
  exists q'. now split.
Qed.

(** X14: for a time stamp since 1970 whose days stay below 2^31 - 1970, the
    year precommit derives through [(int)] for the age and the one it
    derives through [(unsigned int)] for the install year of a repaired pole
    are the same, and that year lies between 1970 and 1970 plus the number
    of days. *)
Theorem years_agree t0 :
  (0 <= t0 < 86400 * (2 ^ 31 - 1970))%Z ->
  year_uint t0 = year_int t0 /\
  (1970 <= year_int t0 <= 1970 + t0 / 86400)%Z.
Proof.
  intros H. destruct (derived_year t0 H) as (z & I & J & B & _).
  rewrite I, J. split; [reflexivity|lia].
Qed.

(** X15: a repair restarts the age. The repair branch of precommit sets the
    install year to the year of [t0], so the age is zero at [t0] and stays
    non-positive until the year precommit derives is a later one: until
    then the degradation model leaves the hollow diameter, which the repair
    has not reset, as it is. *)
Theorem repair_restarts_the_age h t0 p c :
  config p = Some c -> repair_due h p = true ->
  (0 <= t0 < 86400 * (2 ^ 31 - 1970))%Z ->
  exists q,
    precommit sin cos PI h p t0 = Some (q, TS_NEVER) /\
    install_year q = year_int t0 /\
    age_at t0 q = 0 /\
    current_hollow_diameter q = current_hollow_diameter (refreshed c h t0 p) /\
    forall h' t,
      (0 <? age_at t q) = (year_int t0 <? year_int t)%Z /\
      ((year_int t <=? year_int t0)%Z = true ->
       current_hollow_diameter (refreshed c h' t q) = current_hollow_diameter q).
Proof.
  intros C D H.
  pose proof (precommit_repair sin cos PI h t0 p c C D) as P.
  set (q := repair t0 (refreshed c h t0 p)) in *.
  destruct (derived_year t0 H) as (z & YI & YU & Y1 & Y2).
  assert (F : install_year q = wrap32 (year_uint t0) /\
              current_hollow_diameter q = current_hollow_diameter (refreshed c h t0 p)).
  { unfold q. destruct_pole p; cbn. split; reflexivity. }
  destruct F as (F1 & F2).
  assert (I : install_year q = year_int t0).
  { rewrite F1, YU, YI. apply wrap32_small. lia. }
  assert (R : (- 2 ^ 31 <= install_year q < 2 ^ 31)%Z) by (rewrite I, YI; lia).
  exists q. split; [exact P|]. split; [exact I|].
  split.
  { destruct (age_at_exact t0 q R) as (A & _).
    rewrite A, I, Z.sub_diag. reflexivity. }
  split; [exact F2|].
  intros h' t.
  destruct (age_at_exact t q R) as (_ & B).
  rewrite I in B. split; [exact B|].
  intros L. rewrite (proj1 (refreshed_degradation h' t c q)), B.
  replace (year_int t0 <? year_int t)%Z with false; [reflexivity|].
  symmetry. apply Z.ltb_ge. now apply Z.leb_le.
Qed.

(** X16: precommit loads the pole by the square of the wind speed, so a
    negative wind speed (which init does not reject) is analysed like the
    positive one: the wind pressure is never negative when the wind speed
    is a number, and the pole precommit returns for the opposite wind speed
    is the same one but for the fields [wind_speed] and [last_wind_speed]
    that record the wind speed itself. *)
Theorem negative_wind_loads_like_positive h t0 p c :
  config p = Some c -> wind_speed_ref p = None -> pole_status p = PS_OK ->
  (last_wind_speed p =? wind_speed p) = false ->
  (last_wind_speed p =? - wind_speed p) = false ->
  is_nan (wind_speed p) = false ->
  exists q,
    precommit sin cos PI h p t0 = Some (q, TS_NEVER) /\
    (0 <=? wind_pressure q) = true /\
    precommit sin cos PI h (p <| wind_speed := - wind_speed p |>) t0
    = Some (q <| wind_speed := - wind_speed p |>
              <| last_wind_speed := - wind_speed p |>, TS_NEVER).
Proof.
  intros C R S L1 L2 N. rewrite !precommit_eq.
  unfold repair_due, wind_changed, observed_wind_speed, refreshed.
  destruct_pole p; cbn in C, R, S, L1, L2, N |- *. subst.
  rewrite L1, L2. cbn [negb].
  eexists. split; [reflexivity|]. split.
  - cbn. apply Signs.pressure_nonneg; [reflexivity|exact N].
  - unfold wind_update, degrade, read_weather, reset_commit_accumulators. cbn.
    rewrite Signs.mul_opp_opp. reflexivity.
Qed.

(** The tilt through precommit: kept, or reset to zero by a repair. *)
Lemma precommit_tilt h p t0 q e :
  precommit sin cos PI h p t0 = Some (q, e) ->
  (tilt_angle q = tilt_angle p /\ tilt_direction q = tilt_direction p) \/
  (tilt_angle q = 0 /\ tilt_direction q = 0).
Proof.
  rewrite precommit_eq.
  destruct (config p) as [c|] eqn:C; [|discriminate].
  cbv zeta. intros H. injection H as <- <-.
  destruct (repair_due h p), (wind_changed h p); destruct_pole p; cbn; auto.
Qed.

(** More of what the handlers that follow precommit leave alone. *)
Lemma after_precommit_inputs h t0 cs p1 :
  let q := fst (postsync h (collaborate cs (fst (presync p1 t0))) t0) in
  repair_time q = repair_time p1 /\ guy_height q = guy_height p1 /\
  configuration q = configuration p1 /\ config q = config p1.
Proof.
  cbv zeta. unfold presync, postsync.
  destruct (recalc p1) eqn:R; cbn [fst].
  - destruct (collaborate_fields cs (reset_sync_accumulators p1))
      as (_ & -> & _).
    destruct (reset_sync_fields p1) as (_ & _ & _ & _ & _ & -> & _).
    rewrite R, collaborate_eq. destruct_pole p1; cbn. repeat split.
  - destruct (collaborate_fields cs p1) as (_ & -> & _).
    rewrite R, collaborate_eq. destruct_pole p1; cbn. repeat split.
Qed.

(** What a step leaves of the data [init] has checked and computed: the
    tilt is kept or, by a repair, reset to zero. *)
Lemma step_inputs h t0 cs p q e :
  step sin cos PI h t0 cs p = Some (q, e) ->
  repair_time q = repair_time p /\ height q = height p /\
  guy_height q = guy_height p /\ configuration q = configuration p /\
  config q = config p /\
  ((tilt_angle q = tilt_angle p /\ tilt_direction q = tilt_direction p) \/
   (tilt_angle q = 0 /\ tilt_direction q = 0)).
Proof.
  rewrite step_eq.
  destruct (precommit sin cos PI h p t0) as [[p1 e1]|] eqn:P; [|discriminate].
  intros H.
  assert (E : q = fst (postsync h (collaborate cs (fst (presync p1 t0))) t0))
    by (injection H; intros E; exact (eq_sym (f_equal fst E))).
  destruct (precommit_frame h p t0 p1 e1 P)
    as (F1 & _ & F2 & _ & _ & _ & _ & _ & _ & _ & _ & _ & _ & F3 & F4 & _ & F5).
  pose proof (precommit_tilt h p t0 p1 e1 P) as T.
  destruct (after_precommit_inputs h t0 cs p1) as (G1 & G2 & G3 & G4).
  destruct (after_precommit_frame h t0 cs p1)
    as (_ & _ & _ & _ & _ & _ & _ & _ & _ & _ & _ & G5 & G6 & G7).
  rewrite <- E in G1, G2, G3, G4, G5, G6, G7.
  rewrite G1, G2, G3, G4, G5, G6, G7.
  repeat split; try congruence.
Qed.

(** X17: what [init] has checked stays true while the pole runs. After a
    successful [init] and any run of time steps the repair time is the one
    [init] settled on, which is not at or below zero; the tilt angle and the
    tilt direction still pass the range test of [init]; and the height is
    the one [init] computed. *)
Theorem init_checks_hold_throughout h p p' steps q :
  init h p = init_return 1 p' ->
  run sin cos PI steps p' = Some q ->
  repair_time q = repair_time p' /\ (repair_time q <=? 0) = false /\
  tilt_rejected q = false /\
  height q = height p' /\ guy_height q = guy_height p /\
  configuration q = configuration p.
Proof.
  intros I R.
  destruct (init_success h p p' I) as (cfg & c & r & _ & _ & T1 & T2 & R1 & R2 & E).
  assert (B : repair_time p' = r /\ tilt_rejected p' = false /\
              guy_height p' = guy_height p /\ configuration p' = configuration p).
  { rewrite E. unfold tilt_rejected, init_geometry, init_weather.
    destruct_pole p; cbn in T1, T2 |- *.
    destruct weather'; cbn; rewrite T1, T2; repeat split. }
  destruct B as (Br & Bt & Bg & Bc).
  assert (P : (r <=? 0) = false).
  { destruct (repair_time p <=? 0) eqn:L.
    - specialize (R2 eq_refl). revert R2. rewrite ltb_spec, leb_spec.
      change (Prim2SF 0) with (S754_zero false).
      destruct (Prim2SF r) as [s|[|]| |[|] m e]; cbn; congruence.
    - now rewrite (R1 eq_refl). }
  rewrite <- Br in P. rewrite <- Bg, <- Bc. clear I E R1 R2 T1 T2 Br Bg Bc.
  revert p' R P Bt.
  induction steps as [|[[h1 t1] cs] rest IH]; intros p' R P Bt; cbn [run] in R.
  - injection R as <-. repeat split; assumption.
  - destruct (step sin cos PI h1 t1 cs p') as [[p1 e1]|] eqn:S; [|discriminate].
    destruct (step_inputs h1 t1 cs p' p1 e1 S) as (A1 & A2 & A3 & A4 & _ & A5).
    rewrite <- A1, <- A2, <- A3, <- A4. apply IH; [exact R|congruence|].
    unfold tilt_rejected in *.
    destruct A5 as [[-> ->]|[-> ->]]; [exact Bt|reflexivity].
Qed.

End FurtherProperties.

(** ** Concrete runs of the further properties *)

Lemma weather_overrides_local_wind_witness :
  exists p' q,
    init weather_host stationed_pole = init_return 1 p' /\
    precommit sin_at_zero cos_at_zero PI_value weather_host p' 1600000000
      = Some (q, TS_NEVER) /\
    wind_speed q = 12 /\ wind_direction q = 270 /\ wind_gusts q = 7.
Proof.
  destruct (init weather_host stationed_pole) as [code p'|] eqn:I;
    try discriminate.
  assert (code = 1%Z) by (vm_compute in I; congruence). subst code.
  destruct (weather_overrides_local_wind sin_at_zero cos_at_zero PI_value
              weather_host weather_host 1600000000 stationed_pole p' I)
    as (q & P & W1 & W2 & W3).
  exists p', q. repeat split; assumption.
Defined.


Lemma precommit_never_fails_a_pole_witness :
  exists q,
    precommit sin_at_zero cos_at_zero PI_value quiet_host windy_pole 1600000000
      = Some (q, TS_NEVER) /\
    down_time q = down_time windy_pole /\
    pole_stress q = pole_stress windy_pole.
Proof.
  destruct (precommit sin_at_zero cos_at_zero PI_value quiet_host windy_pole
              1600000000) as [[q e]|] eqn:P; [|discriminate].
  destruct (precommit_never_fails_a_pole sin_at_zero cos_at_zero PI_value
              quiet_host windy_pole 1600000000 q e P)
    as (-> & _ & D & S & _).
  exists q. repeat split; assumption.
Defined.

Lemma initialised_pole_runs_witness :
  exists q,
    init quiet_host loaded_1970 = init_return 1 initialised_1970 /\
    run sin_at_zero cos_at_zero PI_value
        [(quiet_host, 1600000000%Z, [transformer]);
         (hour_later_host, 1600003600%Z, [])] initialised_1970 = Some q /\
    config q = Some wooden.
Proof.
  assert (I : init quiet_host loaded_1970 = init_return 1 initialised_1970)
    by reflexivity.
  destruct (initialised_pole_runs sin_at_zero cos_at_zero PI_value quiet_host
              loaded_1970 initialised_1970
              [(quiet_host, 1600000000%Z, [transformer]);
               (hour_later_host, 1600003600%Z, [])] I)
    as (c & q & C & R & Cq).
  exists q. split; [exact I|]. split; [exact R|].
  rewrite Cq, <- C. reflexivity.
Defined.

Lemma unchanged_wind_is_never_analysed_witness :
  exists q,
    run sin_at_zero cos_at_zero PI_value
        [(quiet_host, 1600000000%Z, [transformer]);
         (hour_later_host, 1600003600%Z, [transformer])] initialised_1970
      = Some q /\
    wake_ups sin_at_zero cos_at_zero PI_value
        [(quiet_host, 1600000000%Z, [transformer]);
         (hour_later_host, 1600003600%Z, [transformer])] initialised_1970
      = Some [TS_NEVER; TS_NEVER] /\
    pole_status q = PS_OK /\ pole_stress q = 0 /\ total_moment q = 0.
Proof.
  destruct (unchanged_wind_is_never_analysed sin_at_zero cos_at_zero PI_value
              [(quiet_host, 1600000000%Z, [transformer]);
               (hour_later_host, 1600003600%Z, [transformer])]
              initialised_1970 wooden eq_refl eq_refl eq_refl)
    as (E & q & R & S & _ & A & B & _).
  - repeat constructor.
  - exists q. split; [exact R|]. split; [exact E|].
    split; [exact S|]. split; [exact A|exact B].
Defined.

Lemma wind_trigger_latches_witness :
  exists q e,
    step sin_at_zero cos_at_zero PI_value quiet_host 1600000000 [transformer]
      windy_pole = Some (q, e) /\
    last_wind_speed q = 20 /\
    wind_changed quiet_host q = false.
Proof.
  destruct (wind_trigger_latches sin_at_zero cos_at_zero PI_value quiet_host
              1600000000 [transformer] windy_pole wooden eq_refl eq_refl)
    as (q & e & S & L & _ & W).
  exists q, e. split; [exact S|]. split; [exact L|].
  rewrite W. apply andb_false_r.
Defined.

Lemma critical_wind_speed_ignores_equipment_witness :
  exists q,
    precommit sin_at_zero cos_at_zero PI_value quiet_host windy_pole 1600000000
      = Some (q, TS_NEVER) /\
    equipment_moment_nowind q = 0 /\
    critical_wind_speed q =
      sqrt ((resisting_moment q - wire_tension windy_pole)
            / (moment_per_pressure wooden windy_pole + 0 + 0) / (0.00256 * 2.24)).
Proof.
  destruct (critical_wind_speed_ignores_equipment sin_at_zero cos_at_zero
              PI_value quiet_host 1600000000 windy_pole wooden eq_refl eq_refl)
    as (q & P & E & _ & _ & _ & _ & K).
  exists q. repeat split; assumption.
Defined.

Lemma init_twice_witness :
  init quiet_host loaded_1970 = init_return 1 initialised_1970 /\
  init quiet_host initialised_1970 = init_return 1 initialised_1970.
Proof.
  assert (I : init quiet_host loaded_1970 = init_return 1 initialised_1970)
    by reflexivity.
  split; [exact I|].
  exact (init_twice quiet_host loaded_1970 initialised_1970 I).
Defined.

Lemma repair_of_rotten_pole_fails_again_witness :
  exists p1 q e,
    step sin_at_zero cos_at_zero PI_value quiet_host 1600000000 [] windy_pole
      = Some (p1, 1600086400%Z) /\
    pole_status p1 = PS_FAILED /\
    step sin_at_zero cos_at_zero PI_value day_later_host 1600090000 [transformer] p1
      = Some (q, e) /\
    current_hollow_diameter q = 25 /\
    install_year q = 2020%Z /\
    pole_status q = PS_FAILED /\ down_time q = 1600090000%Z.
Proof.
  destruct (step sin_at_zero cos_at_zero PI_value quiet_host 1600000000 []
              windy_pole) as [[p1 e1]|] eqn:S1; [|discriminate].
  assert (E1 : e1 = 1600086400%Z /\ pole_status p1 = PS_FAILED /\
               config p1 = Some wooden /\ repair_due day_later_host p1 = true /\
               (0 <? resisting_moment (refreshed wooden day_later_host 1600090000 p1))
               = false /\
               current_hollow_diameter (refreshed wooden day_later_host 1600090000 p1)
               = 25 /\ wrap32 (year_uint 1600090000) = 2020%Z).
  { vm_compute in S1. injection S1 as <- <-. vm_compute. repeat split. }
  destruct E1 as (-> & F & C & D & M & H & Y).
  destruct (repair_of_rotten_pole_fails_again sin_at_zero cos_at_zero PI_value
              day_later_host 1600090000 [transformer] p1 wooden C D M)
    as (q & e & S2 & A1 & _ & A3 & _ & _ & _ & A7 & A8).
  exists p1, q, e. repeat split; try assumption; congruence.
Defined.

Lemma degradation_starts_the_year_after_witness :
  (- 2 ^ 31 <= install_year initialised_1970 < 2 ^ 31)%Z /\
  age_at 1600000000 initialised_1970 = 50 /\
  (0 <? age_at 1600000000 initialised_1970) = true /\
  current_hollow_diameter (refreshed wooden quiet_host 1600000000 initialised_1970)
  = 2 * 50 * 0.25.
Proof.
  assert (I : (- 2 ^ 31 <= install_year initialised_1970 < 2 ^ 31)%Z)
    by (split; [discriminate|reflexivity]).
  destruct (degradation_starts_the_year_after wooden quiet_host 1600000000
              initialised_1970 I) as (A & B & H).
  split; [exact I|]. split; [exact A|]. split; [exact B|exact H].
Defined.

Lemma scheduled_wake_up_does_not_repair_witness :
  snd (postsync quiet_host overloaded_pole 1600000000) = 1600086400%Z /\
  down_time (fst (postsync quiet_host overloaded_pole 1600000000)) = 1600000000%Z /\
  repair_due (quiet_host <| gl_globalclock := 1600086400%Z |>)
             (fst (postsync quiet_host overloaded_pole 1600000000)) = false /\
  repair_due (quiet_host <| gl_globalclock := 1600086401%Z |>)
             (fst (postsync quiet_host overloaded_pole 1600000000)) = true.
Proof.
  destruct (scheduled_wake_up_does_not_repair sin_at_zero cos_at_zero PI_value
              quiet_host 1600000000 overloaded_pole wooden 24
              eq_refl eq_refl eq_refl eq_refl eq_refl)
    as (E & _ & D & W & _); try (split; [discriminate|reflexivity]);
    try reflexivity; try discriminate.
  split; [exact E|]. split; [exact D|]. split.
  - apply (W (quiet_host <| gl_globalclock := 1600086400%Z |>) 86400%Z);
      [split; [discriminate|reflexivity]|reflexivity].
  - apply (W (quiet_host <| gl_globalclock := 1600086401%Z |>) 86401%Z);
      [split; [discriminate|reflexivity]|reflexivity].
Defined.

Lemma years_agree_witness :
  (0 <= 1600000000 < 86400 * (2 ^ 31 - 1970))%Z /\
  year_uint 1600000000 = 2020%Z /\ year_int 1600000000 = 2020%Z.
Proof.
  assert (H : (0 <= 1600000000 < 86400 * (2 ^ 31 - 1970))%Z)
    by (split; [discriminate|reflexivity]).
  destruct (years_agree 1600000000 H) as (E & _).
  split; [exact H|]. split; [rewrite E|]; reflexivity.
Defined.

Lemma repair_restarts_the_age_witness :
  exists q,
    precommit sin_at_zero cos_at_zero PI_value day_later_host failed_2020 1600090000
      = Some (q, TS_NEVER) /\
    install_year q = 2020%Z /\ age_at 1600090000 q = 0 /\
    current_hollow_diameter q = 25 /\
    (0 <? age_at 1600100000 q) = false /\ (0 <? age_at 1640000000 q) = true.
Proof.
  assert (H : (0 <= 1600090000 < 86400 * (2 ^ 31 - 1970))%Z)
    by (split; [discriminate|reflexivity]).
  destruct (repair_restarts_the_age sin_at_zero cos_at_zero PI_value
              day_later_host 1600090000 failed_2020 wooden eq_refl eq_refl H)
    as (q & P & I & A & D & L).
  exists q. split; [exact P|]. split; [exact I|]. split; [exact A|].
  split; [exact D|].
  split; [exact (proj1 (L quiet_host 1600100000%Z))
         |exact (proj1 (L quiet_host 1640000000%Z))].
Defined.

Lemma negative_wind_loads_like_positive_witness :
  exists q,
    precommit sin_at_zero cos_at_zero PI_value quiet_host windy_pole 1600000000
      = Some (q, TS_NEVER) /\
    (0 <=? wind_pressure q) = true /\
    precommit sin_at_zero cos_at_zero PI_value quiet_host
      (windy_pole <| wind_speed := -20 |>) 1600000000
    = Some (q <| wind_speed := -20 |> <| last_wind_speed := -20 |>, TS_NEVER).
Proof.
  exact (negative_wind_loads_like_positive sin_at_zero cos_at_zero PI_value
           quiet_host 1600000000 windy_pole wooden
           eq_refl eq_refl eq_refl eq_refl eq_refl eq_refl).
Defined.

Lemma init_checks_hold_throughout_witness :
  exists q,
    init quiet_host loaded_1970 = init_return 1 initialised_1970 /\
    run sin_at_zero cos_at_zero PI_value
        [(quiet_host, 1600000000%Z, [transformer]);
         (hour_later_host, 1600003600%Z, [])] initialised_1970 = Some q /\
    repair_time q = 24 /\ tilt_rejected q = false /\ height q = 39.
Proof.
  assert (I : init quiet_host loaded_1970 = init_return 1 initialised_1970)
    by reflexivity.
  assert (R : exists q,
             run sin_at_zero cos_at_zero PI_value
                 [(quiet_host, 1600000000%Z, [transformer]);
                  (hour_later_host, 1600003600%Z, [])] initialised_1970 = Some q)
    by (vm_compute; eexists; reflexivity).
  destruct R as (q & R). exists q.
  destruct (init_checks_hold_throughout sin_at_zero cos_at_zero PI_value
              quiet_host loaded_1970 initialised_1970 _ q I R)
    as (A & _ & B & C & _).
  split; [exact I|]. split; [exact R|].
  split; [rewrite A; reflexivity|]. split; [exact B|].
  rewrite C. reflexivity.
Defined.
